(** * sketch-dataset: duplicate artboard detection

    A shallow embedding of [datasets/find_duplicate_sketch_artboard.py]:
    the similarity comparator [compare_image], the grouping engine
    [merge_artboard_group], the manifest filter and the strip
    materializer of the [__main__] block, the error-log writer of
    [process] and the font scraper [get_missing_font].

    Conventions.
    - Python [str] is [string]; a character is a code point below 256.
    - A raised exception is a value of [exn]; effectful code lives in the
      monad [M], which also records every call of the comparator.
    - numpy arrays carry their shape and an element function; the
      elements of a decoded image are integers (dtype uint8), so the
      float64 arithmetic of the metric is exact and is carried out in
      [Q]: sums of squares of 8-bit differences stay far below 2^53, and
      a quotient below 500 stays below 500 after rounding. *)

From Stdlib Require Import ZArith QArith Lia Ascii String.
From stdpp Require Import base option list strings gmap sorting.

Close Scope Q_scope.
Local Open Scope string_scope.
Local Open Scope list_scope.
Local Open Scope nat_scope.

(** ** Exceptions and the call-recording monad *)

Inductive exn :=
  | TupleIndexError (i : nat)   (* shape[i]: tuple index out of range *)
  | ListIndexError              (* list index out of range *)
  | TooManyIndices              (* a[:x, :y, :c] on fewer than three axes *)
  | AssertionError              (* sewar: supplied images have different sizes *)
  | ValueError                  (* tuple unpacking of the wrong arity *)
  | DecodeError (p : string).   (* PIL could not open or decode the file *)

(** One entry per call [compare_image(get_image(p), get_image(q))]. *)
Inductive event := Compared (p q : string).

Definition M (A : Type) : Type := list event * (exn + A).

Definition ret {A} (a : A) : M A := ([], inr a).
Definition raise {A} (e : exn) : M A := ([], inl e).
Definition tell (ev : event) : M unit := ([ev], inr tt).
Definition bind {A B} (m : M A) (f : A → M B) : M B :=
  match m with
  | (t, inl e) => (t, inl e)
  | (t, inr a) => let '(t', r) := f a in (t ++ t', r)
  end.
Definition lift {A} (r : exn + A) : M A := ([], r).

Notation "'let*' x ':=' m 'in' k" := (bind m (fun x => k))
  (at level 10, x pattern, m at level 200, k at level 200).

Fixpoint mapM {A B} (f : A → M B) (l : list A) : M (list B) :=
  match l with
  | [] => ret []
  | a :: l' => let* b := f a in let* bs := mapM f l' in ret (b :: bs)
  end.

(** The comparator calls a computation made, in order. *)
Definition trace {A} (m : M A) : list event := fst m.

(** ** numpy arrays and the sewar metric *)

Record ndarray := NdArray {
  shape : list nat;
  item : list nat → Z
}.

Definition ndim (a : ndarray) : nat := length (shape a).

(** [a.shape[i]] *)
Definition shape_at (a : ndarray) (i : nat) : exn + nat :=
  match shape a !! i with
  | Some n => inr n
  | None => inl (TupleIndexError i)
  end.

(** [a[:x, :y, :c]]: a view on the same elements with the first three
    axes clipped. *)
Definition slice3 (a : ndarray) (x y c : nat) : exn + ndarray :=
  match shape a with
  | s0 :: s1 :: s2 :: rest =>
      inr (NdArray (x `min` s0 :: y `min` s1 :: c `min` s2 :: rest) (item a))
  | _ => inl TooManyIndices
  end.

(** All index tuples of an array of the given shape, in C order. *)
Fixpoint indices (sh : list nat) : list (list nat) :=
  match sh with
  | [] => [[]]
  | n :: sh' => i ← seq 0 n; (i ::.) <$> indices sh'
  end.

Inductive float64 := NaN | Fin (q : Q).

(** [x < 500] on floats; every comparison with nan is false. *)
Definition float_lt (x : float64) (y : Q) : bool :=
  match x with
  | NaN => false
  | Fin q => negb (Qle_bool y q)
  end.

Definition sumZ (l : list Z) : Z := foldr Z.add 0%Z l.

(** [np.mean]: nan on an empty array. *)
Definition np_mean (l : list Z) : float64 :=
  match l with
  | [] => NaN
  | _ => Fin (sumZ l # Pos.of_nat (length l))
  end.

(** [a[:, :, np.newaxis]] on a two-axis array. *)
Definition newaxis (a : ndarray) : ndarray :=
  NdArray (shape a ++ [1]) (λ ix, item a (take 2 ix)).

(** Modelled from the spec: [mse] of the third-party package sewar, whose
    source is not part of the repository; the mean of the squared
    element-wise differences, after sewar's check that both arrays have
    one shape and its promotion of two-axis arrays to three axes. *)
Definition mse (GT P : ndarray) : exn + float64 :=
  if decide (shape GT = shape P) then
    let '(GT, P) :=
      if decide (ndim GT = 2) then (newaxis GT, newaxis P) else (GT, P) in
    inr (np_mean ((λ ix, (item GT ix - item P ix) ^ 2)%Z <$> indices (shape GT)))
  else inl AssertionError.

Definition ebind {A B} (r : exn + A) (f : A → exn + B) : exn + B :=
  match r with inl e => inl e | inr a => f a end.

Notation "'let?' x ':=' r 'in' k" := (ebind r (fun x => k))
  (at level 10, x pattern, r at level 200, k at level 200).

Definition threshold : Q := 500 # 1.

(** [compare_image], lines 96-102. *)
Definition compare_image (image1 image2 : ndarray) : exn + bool :=
  let? h1 := shape_at image1 0 in
  let? h2 := shape_at image2 0 in
  let x := h1 `min` h2 in
  let? w1 := shape_at image1 1 in
  let? w2 := shape_at image2 1 in
  let y := w1 `min` w2 in
  let? c1 := shape_at image1 2 in
  let? c2 := shape_at image2 2 in
  let c := c1 `min` c2 in
  let? a := slice3 image1 x y c in
  let? b := slice3 image2 x y c in
  let? res := mse a b in
  inr (float_lt res threshold).

(** ** Decoded files *)

(** A PIL image: [size] is (width, height); [bands] counts the channels
    (1 for the modes 1, L, P, I and F; 3 for RGB, 4 for RGBA, ...);
    [getpixel x y k] is band [k] of the pixel in column [x], row [y]. *)
Record pil_image := PilImage {
  size : nat * nat;
  bands : nat;
  getpixel : nat → nat → nat → Z
}.

(** [np.array(im)]: rows first; a single-band image has no channel axis. *)
Definition np_array (im : pil_image) : ndarray :=
  let '(w, h) := size im in
  if decide (bands im ≤ 1) then
    NdArray [h; w]
      (λ ix, match ix with i :: j :: _ => getpixel im j i 0 | _ => 0%Z end)
  else
    NdArray [h; w; bands im]
      (λ ix, match ix with i :: j :: k :: _ => getpixel im j i k | _ => 0%Z end).

(** What the run finds on disk: the folders the first glob matches under
    the output folder, the entries the second glob matches in a folder,
    and the image PIL decodes from a path, if any. *)
Record filesystem := FileSystem {
  glob_folders : list string;
  glob_files : string → list string;
  image_open : string → option pil_image
}.

Section Engine.
Context (fs : filesystem).

(** [Image.open(path)] *)
Definition Image_open (p : string) : M pil_image :=
  match image_open fs p with
  | Some im => ret im
  | None => raise (DecodeError p)
  end.

(** [get_image], lines 91-93. The lru_cache returns what a fresh decode
    of the same file returns, so it is left out. *)
Definition get_image (p : string) : M ndarray :=
  let* im := Image_open p in ret (np_array im).

(** The comprehension of lines 107-111: every globbed path with the
    first two components of its shape. *)
Definition exported_paths : list string :=
  folder ← glob_folders fs; glob_files fs folder.

Definition artboards : M (list (string * list nat)) :=
  mapM (λ p, let* a := get_image p in ret (p, take 2 (shape a))) exported_paths.

(** [size_groups.setdefault(key, []).append(path)] on an insertion
    ordered dict. *)
Fixpoint setdefault_append (key : nat * nat) (p : string)
    (d : list ((nat * nat) * list string)) : list ((nat * nat) * list string) :=
  match d with
  | [] => [(key, [p])]
  | (k, l) :: d' =>
      if decide (k = key) then (k, l ++ [p]) :: d'
      else (k, l) :: setdefault_append key p d'
  end.

(** Lines 112-114; the loop header unpacks each tuple into three names. *)
Fixpoint size_groups_loop (abs : list (string * list nat))
    (d : list ((nat * nat) * list string)) : M (list ((nat * nat) * list string)) :=
  match abs with
  | [] => ret d
  | (p, [width; height]) :: abs' =>
      size_groups_loop abs' (setdefault_append (width, height) p d)
  | _ :: _ => raise ValueError
  end.

(** [group[0]] *)
Definition group0 (group : list string) : M string :=
  match group with
  | r :: _ => ret r
  | [] => raise ListIndexError
  end.

(** [compare_image(image, get_image(group[0]))], with the call recorded. *)
Definition compare_with (artboard : string) (image : ndarray)
    (group : list string) : M bool :=
  let* r := group0 group in
  let* rep := get_image r in
  let* _ := tell (Compared artboard r) in
  lift (compare_image image rep).

(** Lines 121-125: scan the open groups; on the first match the
    artboard is appended to that group in place and the scan stops.
    Returns the flag [match] and the groups. *)
Fixpoint scan_groups (artboard : string) (image : ndarray)
    (groups : list (list string)) : M (bool * list (list string)) :=
  match groups with
  | [] => ret (false, [])
  | group :: rest =>
      let* b := compare_with artboard image group in
      if b then ret (true, (group ++ [artboard]) :: rest)
      else
        let* (m, rest') := scan_groups artboard image rest in
        ret (m, group :: rest')
  end.

(** Lines 118-127: the body of the loop over one bucket. *)
Definition place (artboard : string) (sub_image_groups : list (list string))
    : M (list (list string)) :=
  let* image := get_image artboard in
  let* (matched, groups) := scan_groups artboard image sub_image_groups in
  if matched then ret groups else ret (groups ++ [[artboard]]).

Fixpoint cluster_loop (artboard_path_list : list string)
    (sub_image_groups : list (list string)) : M (list (list string)) :=
  match artboard_path_list with
  | [] => ret sub_image_groups
  | artboard :: rest =>
      let* sub := place artboard sub_image_groups in
      cluster_loop rest sub
  end.

(** Lines 117-127 for one bucket. *)
Definition cluster_bucket (artboard_path_list : list string)
    : M (list (list string)) :=
  cluster_loop artboard_path_list [].

(** Lines 115-128: buckets in insertion order, groups concatenated. *)
Fixpoint cluster_all (buckets : list ((nat * nat) * list string))
    (image_groups : list (list string)) : M (list (list string)) :=
  match buckets with
  | [] => ret image_groups
  | (_, artboard_path_list) :: rest =>
      let* sub := cluster_bucket artboard_path_list in
      cluster_all rest (image_groups ++ sub)
  end.

Definition size_groups : M (list ((nat * nat) * list string)) :=
  let* abs := artboards in size_groups_loop abs [].

(** [merge_artboard_group], lines 105-129. *)
Definition merge_artboard_group : M (list (list string)) :=
  let* buckets := size_groups in
  cluster_all buckets [].

(** ** The manifest and the review strips, lines 143-161 *)

(** [filter(lambda x: len(x) > 1, ...)]; writing the list as JSON and
    reading it back returns the same list of lists of strings. *)
Definition manifest_of (groups : list (list string)) : list (list string) :=
  filter (λ x, 1 < length x) groups.

(** The strip of one group: the size of the new canvas and, per member,
    the path pasted and the offset (x, y) of its top-left corner. *)
Record composite := Composite {
  canvas : nat * nat;
  pastes : list (string * (nat * nat))
}.

Definition materialize (group : list string) : M composite :=
  let* group_images := mapM Image_open group in
  let* first :=
    match group_images with
    | im :: _ => ret im
    | [] => raise ListIndexError
    end in
  let new_size := (fst (size first) * length group_images, snd (size first)) in
  ret (Composite new_size
         (imap (λ i '(p, image), (p, (i * fst (size image), 0)))
               (zip group group_images))).

Definition main : M (list (list string) * list composite) :=
  let* image_groups := merge_artboard_group in
  let groups := manifest_of image_groups in
  let* strips := mapM materialize groups in
  ret (groups, strips).

(** *** Vocabulary for the statements *)

(** The array [get_image] returns for a path. *)
Definition img (p : string) : option ndarray := np_array <$> image_open fs p.

(** The pixel dimensions (width, height) of the file at a path. *)
Definition dimensions (p : string) : option (nat * nat) :=
  size <$> image_open fs p.

(** The verdict of the comparator on the files at two paths. *)
Definition similar (p q : string) : option bool :=
  a ← img p; b ← img q;
  match compare_image a b with inr v => Some v | inl _ => None end.

(** The first member of a group. *)
Definition representative (g : list string) : string :=
  default EmptyString (head g).

(** The verdict on a path against the first member of a group. *)
Definition similar_to_group (p : string) (g : list string) : option bool :=
  r ← head g; similar p r.

End Engine.

(** ** Text: the error log of [process] and [get_missing_font] *)

Definition newline : ascii := "010"%char.
Definition dquote : ascii := "034"%char.

(** [str.isspace] on the code points below 256. *)
Definition is_whitespace (c : ascii) : bool :=
  match c with
  | "009" | "010" | "011" | "012" | "013"
  | "028" | "029" | "030" | "031" | " " | "133" | "160" => true
  | _ => false
  end%char.

Fixpoint lstrip (s : string) : string :=
  match s with
  | String c s' => if is_whitespace c then lstrip s' else s
  | EmptyString => EmptyString
  end.

Fixpoint rstrip (s : string) : string :=
  match s with
  | EmptyString => EmptyString
  | String c s' =>
      match rstrip s' with
      | EmptyString => if is_whitespace c then EmptyString else String c EmptyString
      | r => String c r
      end
  end.

(** [s.strip()] *)
Definition strip (s : string) : string := rstrip (lstrip s).

(** [s.split(sep)] for a one-character separator: never empty. *)
Fixpoint split_on (sep : ascii) (s : string) : list string :=
  match s with
  | EmptyString => [EmptyString]
  | String c s' =>
      if decide (c = sep) then EmptyString :: split_on sep s'
      else match split_on sep s' with
           | l :: ls => String c l :: ls
           | [] => [String c EmptyString]
           end
  end.

(** The worker of lines 48-57 puts a job's stderr on the error queue only
    when it is not empty; [stderrs] lists the stderr of every job in the
    order in which the jobs finished. *)
Definition error_queue (stderrs : list string) : list string :=
  filter (λ s, s ≠ EmptyString) stderrs.

(** Lines 71-75. *)
Definition error_message_set (queue : list string) : gset string :=
  foldl (λ acc stderr,
           foldl (λ acc line, acc ∪ {[ line +:+ String newline EmptyString ]})
                 acc (split_on newline (strip stderr)))
        ∅ queue.

(** Lines 76-77: the lines written to the error file, each once. The
    file holds them in the order in which [list(set)] iterates, which
    depends on the hashes and on the order of insertion; that order is
    not modelled: the list below is one listing of the set, and what is
    said about the file is said up to the order of its lines. *)
Definition process (stderrs : list string) : list string :=
  elements (error_message_set (error_queue stderrs)).

(** *** A backtracking matcher for the fragment of [re] the scraper uses *)

Inductive regex :=
  | Chr (c : ascii)            (* a literal character *)
  | Dot                        (* . : any character but a newline *)
  | Cat (r1 r2 : regex)
  | Plus (r : regex)           (* r+, greedy *)
  | NotAhead (r : regex)       (* (?!r) *)
  | Group (n : nat) (r : regex).

(** The literal [w] followed by [r]. *)
Fixpoint lit (w : list ascii) (r : regex) : regex :=
  match w with
  | [] => r
  | c :: w' => Cat (Chr c) (lit w' r)
  end.

(** The text between position [s] and the later position [s']. *)
Definition consumed (s s' : list ascii) : list ascii :=
  take (length s - length s') s.

Abbreviation captures := (gmap nat (list ascii)).
Definition matcher := list ascii → captures → option captures.

(** The iterations of a greedy [r+], [m] matching one [r]: after each
    iteration one more is tried first, and only when that fails does
    the rest of the pattern [k] get its turn. *)
Definition plus_loop (m : list ascii → captures → matcher → option captures)
    (k : matcher) : nat → matcher :=
  fix loop n s caps :=
    match n with
    | 0 => None
    | S n' =>
        m s caps
          (λ s' caps',
             match loop n' s' caps' with
             | Some c => Some c
             | None => k s' caps'
             end)
    end.

(** [rmatch r fuel s caps k]: match [r] at the front of [s], then hand
    the rest of the input and the captures to [k]; alternatives are
    tried in the order of the backtracking engine of [re]. [fuel] bounds
    the iterations of a [Plus]. *)
Fixpoint rmatch (r : regex) (fuel : nat) (s : list ascii) (caps : captures)
    (k : matcher) {struct r} : option captures :=
  match r with
  | Chr c =>
      match s with
      | c' :: s' => if decide (c' = c) then k s' caps else None
      | [] => None
      end
  | Dot =>
      match s with
      | c' :: s' => if decide (c' = newline) then None else k s' caps
      | [] => None
      end
  | Cat r1 r2 => rmatch r1 fuel s caps (λ s' caps', rmatch r2 fuel s' caps' k)
  | Plus r1 => plus_loop (rmatch r1 fuel) k fuel s caps
  | NotAhead r1 =>
      match rmatch r1 fuel s caps (λ _ c, Some c) with
      | Some _ => None
      | None => k s caps
      end
  | Group n r1 =>
      rmatch r1 fuel s caps (λ s' caps', k s' (<[n := consumed s s']> caps'))
  end.

(** [re.match(r, s)]: anchored at the start, free at the end. *)
Definition re_match (r : regex) (s : string) : option captures :=
  let l := list_ascii_of_string s in
  rmatch r (S (length l)) l ∅ (λ _ c, Some c).

(** [m.group(n)] *)
Definition group (caps : captures) (n : nat) : option string :=
  string_of_list_ascii <$> caps !! n.

Definition phrase : list ascii := list_ascii_of_string "Client requested name ".

(** The pattern of line 85: one or more characters, the phrase, a double
    quote, group 1 holding one or more characters none of which is a
    double quote, and a double quote. *)
Definition font_re : regex :=
  Cat (Plus Dot)
    (lit phrase
       (Cat (Chr dquote)
          (Cat (Group 1 (Plus (Group 2 (Cat (NotAhead (Chr dquote)) Dot))))
               (Chr dquote)))).

(** [f.readlines()] in text mode: lines keep their newline; a carriage
    return, alone or before a newline, is read as a newline. *)
Fixpoint readlines (s : string) : list string :=
  match s with
  | EmptyString => []
  | String c s' =>
      let nl := String newline EmptyString in
      if decide (c = newline) then nl :: readlines s'
      else if decide (c = "013"%char) then
        match s' with
        | String "010"%char _ => readlines s'
        | _ => nl :: readlines s'
        end
      else match readlines s' with
           | l :: ls => String c l :: ls
           | [] => [String c EmptyString]
           end
  end.

(** Lines 84-87 for one line: the text of group 1 when the line matches
    (group 1 takes part in every match of this pattern). *)
Definition font_of_line (line : string) : option string :=
  caps ← re_match font_re line; group caps 1.

(** [get_missing_font], lines 80-88, on the text of the error file. *)
Definition get_missing_font (error_file : string) : list string :=
  let missing_fonts : gset string :=
    foldl (λ acc line,
             match font_of_line line with
             | Some font => acc ∪ {[ font ]}
             | None => acc
             end) ∅ (readlines error_file) in
  merge_sort String.le (elements missing_fonts).

(** ** Reference definitions and sample inputs *)

(** The squared error summed over the first [H] rows, [W] columns and [C]
    channels of both arrays. *)
Definition sum_upto (n : nat) (f : nat → Z) : Z := sumZ (f <$> seq 0 n).

Definition region_sq_error (a b : ndarray) (H W C : nat) : Z :=
  sum_upto H (λ i, sum_upto W (λ j, sum_upto C (λ k,
    (item a [i; j; k] - item b [i; j; k]) ^ 2)%Z)).

(** The array of a decoded image with its channels as the third axis:
    the array of a single-band image has the two axes height and width,
    and is an image of one channel. *)
Definition with_channel_axis (a : ndarray) : ndarray :=
  if decide (ndim a = 2) then newaxis a else a.

(** The mean squared error over the largest common top-left-aligned
    region of two image arrays: the first min(heights) rows, min(widths)
    columns and min(channel counts) channels of each; there is none when
    the region holds no element. *)
Definition region_mse (a b : ndarray) : option Q :=
  match shape (with_channel_axis a), shape (with_channel_axis b) with
  | [h1; w1; c1], [h2; w2; c2] =>
      let H := h1 `min` h2 in
      let W := w1 `min` w2 in
      let C := c1 `min` c2 in
      if decide (H * W * C = 0) then None
      else Some (region_sq_error (with_channel_axis a) (with_channel_axis b)
                   H W C # Pos.of_nat (H * W * C))%Q
  | _, _ => None
  end.

(** Three 100x100 RGB arrays: all zero; 2 in the even columns and 4 in
    the odd ones (squared error 4 and 16, mean 10); all 30 (error 900). *)
Definition img_zero : ndarray := NdArray [100; 100; 3] (λ _, 0%Z).
Definition img_err10 : ndarray :=
  NdArray [100; 100; 3]
    (λ ix, match ix with
           | [_; j; _] => if Nat.even j then 2%Z else 4%Z
           | _ => 0%Z
           end).
Definition img_err900 : ndarray := NdArray [100; 100; 3] (λ _, 30%Z).

(** A 2x2 grayscale file and a 2x2 RGB file, as PIL decodes them. *)
Definition gray_2x2 : pil_image := PilImage (2, 2) 1 (λ _ _ _, 7%Z).
Definition rgb_2x2 : pil_image := PilImage (2, 2) 3 (λ _ _ _, 7%Z).

(** A small export: two documents, six artboards. In [doc1] three 2x1
    RGB artboards of uniform value 20, 0 and 40 and a 1x1 RGB artboard;
    in [doc2] a 2x1 RGB artboard of value 200 and a 2x2 grayscale one. *)
Definition flat (w h bands : nat) (v : Z) : pil_image :=
  PilImage (w, h) bands (λ _ _ _, v).

Definition sample_files : list (string * pil_image) :=
  [("output/doc1/a.png", flat 2 1 3 20);
   ("output/doc1/b.png", flat 2 1 3 0);
   ("output/doc1/c.png", flat 2 1 3 40);
   ("output/doc1/d.png", flat 1 1 3 0);
   ("output/doc2/e.png", flat 2 1 3 200);
   ("output/doc2/f.png", flat 2 2 1 0)].

Definition sample_fs : filesystem :=
  FileSystem ["output/doc1/"; "output/doc2/"]
    (λ folder,
       if decide (folder = "output/doc1/") then
         ["output/doc1/a.png"; "output/doc1/b.png"; "output/doc1/c.png";
          "output/doc1/d.png"]
       else if decide (folder = "output/doc2/") then
         ["output/doc2/e.png"; "output/doc2/f.png"]
       else [])
    (λ p, (snd ∘ snd) <$> list_find (λ e, fst e = p) sample_files).

(** *** Invariants of the grouping engine *)

(** The first members of a list of groups. *)
Definition heads (gs : list (list string)) : list string :=
  representative <$> gs.

(** A group has a first member, and every later member compared true
    against it. *)
Definition group_ok (fs : filesystem) (g : list string) : Prop :=
  match g with
  | [] => False
  | r :: ms => Forall (λ m, similar fs m r = Some true) ms
  end.

(** The open groups after the artboards [seen] of a bucket were placed. *)
Definition groups_inv (fs : filesystem) (seen : list string)
    (gs : list (list string)) : Prop :=
  Forall (group_ok fs) gs ∧ concat gs ≡ₚ seen.

(** The key under which line 114 files a path: the first two components
    of the shape of its array, that is (height, width). *)
Definition bucket_key (fs : filesystem) (p : string) : option (nat * nat) :=
  (λ wh, (snd wh, fst wh)) <$> dimensions fs p.

(** What line 108 stores for a path. *)
Definition artboard_of (fs : filesystem) (p : string)
    (ab : string * list nat) : Prop :=
  fst ab = p ∧ ∃ k, bucket_key fs p = Some k ∧ snd ab = [fst k; snd k].

(** The dict [size_groups] after the paths [seen] were filed. *)
Definition buckets_inv (fs : filesystem) (seen : list string)
    (d : list ((nat * nat) * list string)) : Prop :=
  NoDup d.*1 ∧ concat d.*2 ≡ₚ seen ∧
  Forall (λ b, Forall (λ p, bucket_key fs p = Some (fst b)) (snd b)) d.

(** The strip of a group of at least two members, stated on the
    dimensions (width, height) of the members: the canvas is as high as
    the first member and as wide as the first member times the number of
    members, and member [i] is pasted at the x-offset that is the sum of
    the widths of the members before it. *)
Definition strip_of (fs : filesystem) (g : list string) (c : composite) : Prop :=
  2 ≤ length g ∧
  ∃ w0 h0 widths,
    (head g ≫= dimensions fs) = Some (w0, h0) ∧
    Forall2 (λ p w, fst <$> dimensions fs p = Some w) g widths ∧
    canvas c = (w0 * length g, h0) ∧
    pastes c = imap (λ i p, (p, (sum_list (take i widths), 0))) g.


Definition sample_groups : list (list string) :=
  [["output/doc1/a.png"; "output/doc1/b.png"; "output/doc1/c.png"];
   ["output/doc2/e.png"]; ["output/doc1/d.png"]; ["output/doc2/f.png"]].

(** *** Reading the pattern of [get_missing_font] *)

(** A character a font name may hold: group 1 refuses the double quote,
    and [.] refuses the newline. *)
Definition name_stop (c : ascii) : Prop := c = dquote ∨ c = newline.

(** The longest run of name characters at the front of [s], and the rest. *)
Fixpoint name_run (s : list ascii) : list ascii * list ascii :=
  match s with
  | c :: s' =>
      if decide (name_stop c) then ([], s)
      else let '(f, r) := name_run s' in (c :: f, r)
  | [] => ([], [])
  end.

(** [s] without the literal [w] at its front. *)
Fixpoint drop_literal (w s : list ascii) : option (list ascii) :=
  match w with
  | [] => Some s
  | c :: w' =>
      match s with
      | c' :: s' => if decide (c' = c) then drop_literal w' s' else None
      | [] => None
      end
  end.

(** The name [f] when [s] starts with the phrase, a double quote, a
    non-empty run [f] of name characters and a double quote. *)
Definition quoted_name_at (s : list ascii) : option (list ascii) :=
  s1 ← drop_literal (phrase ++ [dquote]) s;
  match name_run s1 with
  | ((_ :: _) as f, c :: _) => if decide (c = dquote) then Some f else None
  | _ => None
  end.

(** The quoted name at the last position of the first line of [s], the
    very start excepted, where there is one. *)
Fixpoint last_quoted_name (s : list ascii) : option (list ascii) :=
  match s with
  | [] => None
  | c :: s' =>
      if decide (c = newline) then None
      else match last_quoted_name s' with
           | Some f => Some f
           | None => quoted_name_at s'
           end
  end.

(** A line of the log as the claim writes it and as the exporter writes
    it, after a prefix. *)
Definition quoted (font : string) : string :=
  String dquote font +:+ String dquote EmptyString.

Definition bare_line (font : string) : string :=
  "Client requested name " +:+ quoted font +:+ String newline EmptyString.

Definition prefixed_line (font : string) : string :=
  "sketchtool[4242] CoreText note: " +:+ bare_line font.

Definition bare_log : string :=
  bare_line "Helvetica Neue" +:+ bare_line "Helvetica Neue" +:+ bare_line "Arial".

Definition prefixed_log : string :=
  prefixed_line "Helvetica Neue" +:+ prefixed_line "Helvetica Neue"
  +:+ prefixed_line "Arial".

(** *** Reading the error log of [process] *)

(** The individual lines of a text: its pieces between newlines, a final
    newline ending the last line rather than opening an empty one. *)
Definition lines_of (s : string) : list string :=
  match reverse (split_on newline s) with
  | EmptyString :: pieces => reverse pieces
  | _ => split_on newline s
  end.

(** The error file holds exactly the individual lines of the non-empty
    diagnostic strings, each once and each followed by a newline. *)
Definition log_holds_lines_of_stderrs (stderrs : list string) : Prop :=
  NoDup (process stderrs) ∧
  ∀ written, written ∈ process stderrs ↔
    ∃ s line, s ∈ stderrs ∧ s ≠ EmptyString ∧ line ∈ lines_of s
              ∧ written = line +:+ String newline EmptyString.

(** The same with the lines the code splits off: each diagnostic string
    is first stripped of leading and trailing whitespace. *)
Definition log_holds_lines_of_stripped_stderrs (stderrs : list string) : Prop :=
  NoDup (process stderrs) ∧
  ∀ written, written ∈ process stderrs ↔
    ∃ s line, s ∈ stderrs ∧ s ≠ EmptyString
              ∧ line ∈ split_on newline (strip s)
              ∧ written = line +:+ String newline EmptyString.

(** One iteration of the body of group 1: a character that is neither a
    double quote nor a newline, stored as group 2. *)
Definition name_char_re : regex := Group 2 (Cat (NotAhead (Chr dquote)) Dot).

(** The greedy loops, read off as recursion on the input. *)
Fixpoint dots_k (s : list ascii) (caps : captures) (k : matcher)
    : option captures :=
  match s with
  | c :: s' =>
      if decide (c = newline) then None
      else match dots_k s' caps k with
           | Some x => Some x
           | None => k s' caps
           end
  | [] => None
  end.

Fixpoint names_k (s : list ascii) (caps : captures) (k : matcher)
    : option captures :=
  match s with
  | c :: s' =>
      if decide (name_stop c) then None
      else match names_k s' (<[2 := [c]]> caps) k with
           | Some x => Some x
           | None => k s' (<[2 := [c]]> caps)
           end
  | [] => None
  end.

(** The matcher returned captures whose group 1 is the expected name,
    or both found nothing. *)
Definition agrees (o : option captures) (v : option (list ascii)) : Prop :=
  match o, v with
  | Some caps, Some f => caps !! 1 = Some f
  | None, None => True
  | _, _ => False
  end.

(** What follows group 1 in the pattern: the closing double quote, with
    group 1 set to the text consumed since [s1]. *)
Definition close_quote (s1 : list ascii) : matcher :=
  λ s2 caps,
    match s2 with
    | c :: _ =>
        if decide (c = dquote) then Some (<[1 := consumed s1 s2]> caps) else None
    | [] => None
    end.

(** The part of the pattern after the leading [.+]. *)
Definition after_dots : regex :=
  lit (phrase ++ [dquote]) (Cat (Group 1 (Plus name_char_re)) (Chr dquote)).

(** The number of double quotes in a text. *)
Definition quotes (s : list ascii) : nat := length (filter (λ c, c = dquote) s).

(** *** Further vocabulary for the grouping engine *)

(** [R] holds between every element of a list and every later one. *)
Fixpoint pairwise {A} (R : A → A → Prop) (l : list A) : Prop :=
  match l with
  | [] => True
  | x :: l' => Forall (R x) l' ∧ pairwise R l'
  end.

(** The first member of the later group compared false against the first
    member of the earlier group. *)
Definition reps_dissimilar (fs : filesystem) (g1 g2 : list string) : Prop :=
  similar fs (representative g2) (representative g1) = Some false.

(** The file at a path decodes; it decodes to a single-band image. *)
Definition decodes (fs : filesystem) (p : string) : Prop :=
  is_Some (image_open fs p).

Definition single_band (fs : filesystem) (p : string) : Prop :=
  ∃ im, image_open fs p = Some im ∧ bands im ≤ 1.

(** The open groups of a bucket after the artboards [seen] were placed,
    with what the loop keeps besides [groups_inv]. *)
Definition cluster_inv (fs : filesystem) (seen : list string)
    (gs : list (list string)) : Prop :=
  groups_inv fs seen gs ∧ Forall (decodes fs) seen
  ∧ pairwise (reps_dissimilar fs) gs
  ∧ Forall (λ g, g `sublist_of` seen) gs.

(** An export with a file that is no image. *)
Definition broken_fs : filesystem :=
  FileSystem ["output/doc1/"]
    (λ folder,
       if decide (folder = "output/doc1/") then
         ["output/doc1/a.png"; "output/doc1/notes.txt"; "output/doc1/b.png"]
       else [])
    (λ p, if decide (p = "output/doc1/notes.txt") then None
          else Some (flat 2 1 3 0)).

(** An export with two grayscale artboards of one size. *)
Definition gray_fs : filesystem :=
  FileSystem ["output/doc1/"]
    (λ folder,
       if decide (folder = "output/doc1/") then
         ["output/doc1/a.png"; "output/doc1/g1.png"; "output/doc1/g2.png"]
       else [])
    (λ p, if decide (p = "output/doc1/a.png") then Some (flat 2 1 3 0)
          else Some (flat 2 2 1 0)).

(** Groups of artboards of one size have first members that compared
    false, the later against the earlier. *)
Definition same_size_reps_dissimilar (fs : filesystem)
    (g1 g2 : list string) : Prop :=
  dimensions fs (representative g1) = dimensions fs (representative g2) →
  reps_dissimilar fs g1 g2.

(** The sum over the buckets of the squared bucket sizes. *)
Definition sum_squares (buckets : list ((nat * nat) * list string)) : nat :=
  sum_list_with (λ b, length (snd b) * length (snd b)) buckets.

(** A group made of artboards filed under one of the keys [keys]. *)
Definition group_of_keys (fs : filesystem) (keys : list (nat * nat))
    (g : list string) : Prop :=
  g ≠ [] ∧ ∃ k, k ∈ keys ∧ Forall (λ p, bucket_key fs p = Some k) g.

(** ** The export worker pool, lines 40-77 *)

(** Where a worker thread stands in [GenerateArtboardsThread.run]:
    before the test of line 50, before the [get] of line 52, before the
    export of line 53 with its path, before lines 54-55 with the stderr
    of the export, before the [task_done] of line 57; returned from
    [run] by the [break]; or left [run] by an exception. Every operation
    on a queue is atomic, the queues being locked. The progress bar of
    line 56 is not part of the state. *)
Inductive pc :=
  | AtCheck
  | AtGet
  | AtExport (sketch_path : string)
  | AtReport (sketch_path stderr : string)
  | AtTaskDone (sketch_path : string)
  | Returned
  | Died (sketch_path : string).

(** The shared state: the two queues, the counter of unfinished tasks of
    [sketch_queue] that [join] waits for, the workers, and two logs, of
    the documents handed to the exporter and of the documents whose task
    is done. *)
Record pool := Pool {
  sketch_queue : list string;
  unfinished_tasks : nat;
  error_q : list string;
  workers : list pc;
  exported : list string;
  finished : list string
}.

Definition set_worker (i : nat) (w : pc) (s : pool) : pool :=
  Pool (sketch_queue s) (unfinished_tasks s) (error_q s)
       (<[i := w]> (workers s)) (exported s) (finished s).

(** One step of worker [i]; [None] when the worker is blocked in [get]
    on an empty queue or has left [run]. [export p] is the stderr of the
    export of document [p], or [None] when the export raises. *)
Definition worker_step (export : string → option string)
    (s : pool) (i : nat) : option pool :=
  w ← workers s !! i;
  match w with
  | AtCheck =>
      Some (set_worker i (if decide (sketch_queue s = []) then Returned
                          else AtGet) s)
  | AtGet =>
      match sketch_queue s with
      | [] => None
      | p :: q =>
          Some (Pool q (unfinished_tasks s) (error_q s)
                     (<[i := AtExport p]> (workers s)) (exported s) (finished s))
      end
  | AtExport p =>
      Some (Pool (sketch_queue s) (unfinished_tasks s) (error_q s)
                 (<[i := match export p with
                         | Some stderr => AtReport p stderr
                         | None => Died p
                         end]> (workers s))
                 (exported s ++ [p]) (finished s))
  | AtReport p stderr =>
      Some (Pool (sketch_queue s) (unfinished_tasks s)
                 (if decide (stderr = EmptyString) then error_q s
                  else error_q s ++ [stderr])
                 (<[i := AtTaskDone p]> (workers s)) (exported s) (finished s))
  | AtTaskDone p =>
      match unfinished_tasks s with
      | 0 => Some (set_worker i (Died p) s)
      | S n =>
          Some (Pool (sketch_queue s) n (error_q s)
                     (<[i := AtCheck]> (workers s)) (exported s)
                     (finished s ++ [p]))
      end
  | Returned | Died _ => None
  end.

(** Lines 61-69: every document is put on the queue and eight workers
    are started. *)
Definition process_start (sketch_list : list string) : pool :=
  Pool sketch_list (length sketch_list) [] (replicate 8 AtCheck) [] [].

(** The workers take steps in the order [schedule]; [None] when the
    schedule names a worker that cannot step. *)
Fixpoint run_pool (export : string → option string) (schedule : list nat)
    (s : pool) : option pool :=
  match schedule with
  | [] => Some s
  | i :: rest => s' ← worker_step export s i; run_pool export rest s'
  end.

(** Line 70: [sketch_queue.join()] returns. *)
Definition join_returns (s : pool) : Prop := unfinished_tasks s = 0.

(** Lines 71-77 in a state in which [join] has returned: the lines
    written to the error file, each once, in an order that is not that
    of the file (see [process]). *)
Definition error_file_lines (s : pool) : list string :=
  elements (error_message_set (error_q s)).

(** The job a worker has taken off the queue and not yet marked done;
    the job it has handed to the exporter; the job whose stderr it has
    reported. *)
Definition held_job (w : pc) : option string :=
  match w with
  | AtExport p | AtReport p _ | AtTaskDone p | Died p => Some p
  | _ => None
  end.

Definition exported_job (w : pc) : option string :=
  match w with
  | AtReport p _ | AtTaskDone p | Died p => Some p
  | _ => None
  end.

Definition reported_job (w : pc) : option string :=
  match w with
  | AtTaskDone p => Some p
  | _ => None
  end.

(** The stderr of a document whose export returns. *)
Definition stderr_of (export : string → option string) (p : string) : string :=
  default EmptyString (export p).

(** What every reachable state of the pool satisfies. *)
Definition pool_inv (export : string → option string)
    (sketch_list : list string) (s : pool) : Prop :=
  sketch_list ≡ₚ sketch_queue s ++ omap held_job (workers s) ++ finished s ∧
  unfinished_tasks s = length (sketch_queue s) + length (omap held_job (workers s)) ∧
  exported s ≡ₚ omap exported_job (workers s) ++ finished s ∧
  error_q s ≡ₚ error_queue (stderr_of export
                            <$> omap reported_job (workers s) ++ finished s) ∧
  Forall (λ w, match w with
               | AtReport p e => export p = Some e
               | AtTaskDone p => is_Some (export p)
               | Died p => export p = None
               | _ => True
               end) (workers s) ∧
  Forall (λ p, is_Some (export p)) (finished s) ∧
  (Returned ∈ workers s → sketch_queue s = []) ∧
  length (workers s) = 8.

(** The steps a state has left at most: per worker the steps to the end
    of its round, per queued document one round. *)
Definition pc_weight (w : pc) : nat :=
  match w with
  | AtCheck => 2
  | AtGet => 1
  | AtExport _ => 5
  | AtReport _ _ => 4
  | AtTaskDone _ => 3
  | Returned | Died _ => 0
  end.

Definition pool_measure (s : pool) : nat :=
  sum_list (pc_weight <$> workers s) + 5 * length (sketch_queue s).

(** A sample batch: the second document has an empty stderr. *)
Definition sample_export (p : string) : option string :=
  if decide (p = "b.sketch") then Some EmptyString
  else Some ("warning in " +:+ p).

(** Worker 0 and worker 1 each take one of two documents and interleave;
    worker 2 looks at the queue when it is empty and returns. *)
Definition sample_schedule : list nat :=
  [0; 1; 0; 1; 2; 1; 0; 1; 0; 1; 0; 0; 1].

(** An exporter that raises on the second document of the sample batch. *)
Definition raising_export (p : string) : option string :=
  if decide (p = "b.sketch") then None else Some EmptyString.

(** Workers 0 and 1 both pass the test of line 50 before any [get]; then
    worker 0 alone takes [n] rounds of lines 52-57 and 50. *)
Definition one_worker_schedule (n : nat) : list nat :=
  [0; 1] ++ concat (replicate n [0; 0; 0; 0; 0]).

(** ** The error file between [process] and [get_missing_font] *)

Definition carriage_return : ascii := "013"%char.

(** [f.writelines(lines)], line 77, on a file opened in text mode where
    the line separator is the newline: the text of the file. *)
Definition writelines (lines : list string) : string :=
  foldr String.append EmptyString lines.

(** A stderr without carriage return. *)
Definition cr_free (s : string) : Prop :=
  carriage_return ∉ list_ascii_of_string s.

(** A line as [process] writes it: a text without line break and a
    newline. *)
Definition written_line (l : string) : Prop :=
  ∃ body, l = body +:+ String newline EmptyString
          ∧ (newline ∉ list_ascii_of_string body)
          ∧ (carriage_return ∉ list_ascii_of_string body).

(** Two stderrs of the exporter, the second with two lines and spaces
    around them. *)
Definition sample_stderrs : list string :=
  [ "sketchtool[4242] CoreText note: Client requested name "
      +:+ quoted "Arial" +:+ ", it will not be found.";
    "  warning: no pages" +:+ String newline
      ("sketchtool[7] note: Client requested name " +:+ quoted "Helvetica Neue"
       +:+ " ") ].

(** ** Layer trees: src/utils/sketch_utils.py *)

(** A layer object, by reference. *)
Abbreviation layer := nat.

(** The [layers] attribute of the group objects; a group that the store
    does not list has no layers. *)
Abbreviation object_store := (gmap nat (list nat)).

Definition layers_of (h : object_store) (group : layer) : list layer :=
  default [] (h !! group).

(** The exception of line 17. *)
Inductive raised := TypeError.

Section Flatten.

(** [isinstance(layer, sff.AnyGroup.__args__)], line 17, which the
    library decides: [Some b] when the test returns [b], [None] when it
    raises [TypeError], as [isinstance] does when its second argument
    holds something that is not a class. *)
Variable isinstance_AnyGroup : layer → option bool.

(** The loop of lines 16-20 over what is left of [group_layers], with
    the recursive call as [flatten]. An exception ends the loop: the
    list [layers] is lost, the store stays as it is. *)
Definition flatten_loop
    (flatten : object_store → layer
               → option (object_store * (raised + list layer)))
    : list layer → object_store → list layer
      → option (object_store * (raised + list layer)) :=
  fix loop group_layers h layers :=
    match group_layers with
    | [] => Some (h, inr layers)
    | layer :: rest =>
        match isinstance_AnyGroup layer with
        | None => Some (h, inl TypeError)
        | Some true =>
            match flatten h layer with
            | Some (h', inr sub) => loop rest h' (layers ++ sub)
            | Some (h', inl e) => Some (h', inl e)
            | None => None
            end
        | Some false => loop rest h (layers ++ [layer])
        end
    end.

(** [flatten_sketch_group], lines 8-21: the store after the call, and
    the list returned or the exception raised; [fuel] bounds the depth
    of the recursion, [None] meaning that it was not enough. *)
Fixpoint flatten_sketch_group (fuel : nat) (h : object_store)
    (sketch_group : layer)
    : option (object_store * (raised + list layer)) :=
  match fuel with
  | 0 => None
  | S fuel' =>
      let group_layers := layers_of h sketch_group in
      flatten_loop (flatten_sketch_group fuel') group_layers
        (<[sketch_group := []]> h) [sketch_group]
  end.

End Flatten.

(** [extract_artboards_from_sketch], lines 24-34, [pages] being the
    pages of the document and [is_artboard] the class test of line 33. *)
Definition extract_artboards_from_sketch (is_artboard : layer → bool)
    (h : object_store) (pages : list layer) : list layer :=
  page ← pages; filter (λ l, is_artboard l = true) (layers_of h page).

(** Every entry of every [layers] list of the store. *)
Definition all_layers (h : object_store) : list layer :=
  kv ← map_to_list h; kv.2.

(** No [layers] list of [h'] differs from that of [h] other than by
    being empty. *)
Definition only_emptied (h h' : object_store) : Prop :=
  ∀ r, h' !! r = h !! r ∨ h' !! r = Some [].

(** A class test that raises for every layer. *)
Definition raising_test (l : layer) : option bool := None.

(** A page 0 with the layers 1, 2 and 5, of which 2 is a group with the
    layers 3 and 4. *)
Definition sample_store : object_store :=
  {[ 0 := [1; 2; 5]; 2 := [3; 4] ]}.

(** ** The image cache of line 91 *)

(** The state of [lru_cache] around [get_image]: the cached results by
    path, most recently used first. *)
Abbreviation image_cache := (list (string * ndarray)).

(** The entry of [p], and the cache without it. *)
Fixpoint cache_get (p : string) (cache : image_cache)
    : option (ndarray * image_cache) :=
  match cache with
  | [] => None
  | (q, a) :: rest =>
      if decide (q = p) then Some (a, rest)
      else match cache_get p rest with
           | Some (b, rest') => Some (b, (q, a) :: rest')
           | None => None
           end
  end.

(** One call of the cached [get_image]: the cache after the call,
    whether the file was decoded, and the outcome. A hit makes the entry
    the most recent one; a result is stored in front and the least
    recently used entry dropped when more than [maxsize] are held; an
    exception is not stored. *)
Definition cached_get_image (fs : filesystem) (maxsize : nat)
    (cache : image_cache) (p : string)
    : image_cache * bool * (exn + ndarray) :=
  match cache_get p cache with
  | Some (a, rest) => ((p, a) :: rest, false, inr a)
  | None =>
      match snd (get_image fs p) with
      | inr a => (take maxsize ((p, a) :: cache), true, inr a)
      | inl e => (cache, true, inl e)
      end
  end.

(** Calls in a row. *)
Fixpoint cached_calls (fs : filesystem) (maxsize : nat)
    (cache : image_cache) (paths : list string)
    : image_cache * list (bool * (exn + ndarray)) :=
  match paths with
  | [] => (cache, [])
  | p :: rest =>
      let '(cache1, decoded, r) := cached_get_image fs maxsize cache p in
      let '(cache2, rs) := cached_calls fs maxsize cache1 rest in
      (cache2, (decoded, r) :: rs)
  end.

(** A cache whose entries are what a decode of their file returns. *)
Definition cache_ok (fs : filesystem) (maxsize : nat)
    (cache : image_cache) : Prop :=
  Forall (λ kv, snd (get_image fs kv.1) = inr kv.2) cache
  ∧ NoDup cache.*1 ∧ length cache ≤ maxsize.

(** [p] is cached with [a] among the [n] most recent entries. *)
Definition cached_within (n : nat) (p : string) (a : ndarray)
    (cache : image_cache) : Prop :=
  ∃ pre post, cache = pre ++ (p, a) :: post ∧ (p ∉ pre.*1) ∧ length pre < n.

(** An export of three artboards of one size: [b] is similar to [a],
    [c] is not. *)
Definition one_size_fs : filesystem :=
  FileSystem ["output/doc1/"]
    (λ folder,
       if decide (folder = "output/doc1/") then
         ["output/doc1/a.png"; "output/doc1/b.png"; "output/doc1/c.png"]
       else [])
    (λ p, if decide (p = "output/doc1/a.png") then Some (flat 2 1 3 20)
          else if decide (p = "output/doc1/b.png") then Some (flat 2 1 3 0)
          else if decide (p = "output/doc1/c.png") then Some (flat 2 1 3 200)
          else None).

(** The pattern of line 85 has a place in the line [s] after the prefix
    [pre], with the name [f]: the prefix is not empty and holds no
    newline, and is followed by the phrase, a double quote, the name,
    not empty and free of double quotes and newlines, and a double
    quote. *)
Definition matches_after (s pre f : list ascii) : Prop :=
  pre ≠ [] ∧ (newline ∉ pre) ∧ f ≠ [] ∧ Forall (λ c, ¬ name_stop c) f ∧
  ∃ rest, s = pre ++ phrase ++ [dquote] ++ f ++ [dquote] ++ rest.

(** [pre] and [f] are the last place of the pattern in [s]. *)
Definition last_match (s pre f : list ascii) : Prop :=
  matches_after s pre f ∧
  ∀ pre' f', matches_after s pre' f' → length pre' ≤ length pre.

(** A line that begins with the phrase and names a second font later. *)
Definition two_names_line : string :=
  "Client requested name " +:+ quoted "A" +:+ " Client requested name "
  +:+ quoted "B" +:+ String newline EmptyString.

(** A prefix a line of the log may have before the phrase: not empty
    and without line break. *)
Definition line_prefix (p : string) : Prop :=
  p ≠ EmptyString ∧ (newline ∉ list_ascii_of_string p)
  ∧ (carriage_return ∉ list_ascii_of_string p).

(** The log of the claim with a prefix before the phrase in each of its
    three lines. *)
Definition prefixed_log_of (p1 p2 p3 : string) : string :=
  (p1 +:+ bare_line "Helvetica Neue")
  +:+ (p2 +:+ bare_line "Helvetica Neue")
  +:+ (p3 +:+ bare_line "Arial").

(** * Properties *)

(** ** The comparator *)

Lemma sumZ_app (l1 l2 : list Z) : sumZ (l1 ++ l2) = (sumZ l1 + sumZ l2)%Z.
Proof. induction l1 as [|x l1 IH]; simpl; [done | rewrite IH; lia]. Qed.

Lemma sumZ_bind {A B} (f : B → Z) (g : A → list B) (l : list A) :
  sumZ (f <$> (l ≫= g)) = sumZ ((λ x, sumZ (f <$> g x)) <$> l).
Proof.
  induction l as [|x l IH]; [done|].
  rewrite bind_cons, fmap_app, sumZ_app, fmap_cons. simpl. by rewrite IH.
Qed.

Lemma sumZ_indices_cons (f : list nat → Z) (n : nat) (sh : list nat) :
  sumZ (f <$> indices (n :: sh))
  = sum_upto n (λ i, sumZ ((λ ix, f (i :: ix)) <$> indices sh)).
Proof.
  unfold sum_upto. simpl. rewrite sumZ_bind. f_equal.
  apply list_fmap_ext. intros _ i _. by rewrite <- list_fmap_compose.
Qed.

Lemma sum_upto_ext (n : nat) (f g : nat → Z) :
  (∀ i, f i = g i) → sum_upto n f = sum_upto n g.
Proof.
  intros Hfg. unfold sum_upto. f_equal. apply list_fmap_ext. auto.
Qed.

Lemma sumZ_indices3 (f : list nat → Z) (H W C : nat) :
  sumZ (f <$> indices [H; W; C])
  = sum_upto H (λ i, sum_upto W (λ j, sum_upto C (λ k, f [i; j; k]))).
Proof.
  rewrite sumZ_indices_cons. apply sum_upto_ext. intros i.
  rewrite sumZ_indices_cons. apply sum_upto_ext. intros j.
  rewrite sumZ_indices_cons. apply sum_upto_ext. intros k.
  simpl. lia.
Qed.

Lemma length_indices (sh : list nat) :
  length (indices sh) = foldr Nat.mul 1 sh.
Proof.
  induction sh as [|n sh IH]; [done|]. simpl.
  generalize 0 at 1. induction n as [|n IHn]; intros s; [done|].
  simpl. rewrite length_app, length_fmap, IH, IHn. done.
Qed.

Lemma np_mean_fmap {A} (f : A → Z) (l : list A) :
  np_mean (f <$> l)
  = if decide (length l = 0) then NaN
    else Fin (sumZ (f <$> l) # Pos.of_nat (length l)).
Proof.
  destruct l as [|x l]; [done|]. simpl.
  by rewrite length_fmap.
Qed.

Lemma float_lt_Fin (q : Q) :
  float_lt (Fin q) threshold = true ↔ (q < threshold)%Q.
Proof.
  unfold float_lt. rewrite negb_true_iff, <- not_true_iff_false, Qle_bool_iff.
  split; [apply Qnot_le_lt | apply Qlt_not_le].
Qed.

Lemma region_mse_three a b h1 w1 c1 h2 w2 c2 :
  shape a = [h1; w1; c1] → shape b = [h2; w2; c2] →
  region_mse a b
  = if decide ((h1 `min` h2) * (w1 `min` w2) * (c1 `min` c2) = 0) then None
    else Some (region_sq_error a b (h1 `min` h2) (w1 `min` w2) (c1 `min` c2)
               # Pos.of_nat ((h1 `min` h2) * (w1 `min` w2) * (c1 `min` c2)))%Q.
Proof.
  intros Ha Hb. unfold region_mse, with_channel_axis, ndim.
  rewrite Ha, Hb. cbn [length]. rewrite !decide_False by done.
  by rewrite Ha, Hb.
Qed.

(** On three-axis arrays the comparator is the metric of the common
    region against the threshold. *)
Lemma compare_image_region (a b : ndarray) :
  ndim a = 3 → ndim b = 3 →
  compare_image a b
  = inr (match region_mse a b with
         | Some q => float_lt (Fin q) threshold
         | None => false
         end).
Proof.
  unfold ndim, compare_image, shape_at.
  destruct a as [[|h1 [|w1 [|c1 [|? ?]]]] ia]; try done.
  destruct b as [[|h2 [|w2 [|c2 [|? ?]]]] ib]; try done.
  intros _ _.
  rewrite (region_mse_three (NdArray [h1; w1; c1] ia) (NdArray [h2; w2; c2] ib)
             h1 w1 c1 h2 w2 c2 eq_refl eq_refl).
  cbn [shape item lookup list_lookup ebind slice3].
  unfold mse. cbn [shape item].
  replace ((h1 `min` h2) `min` h1) with (h1 `min` h2) by lia.
  replace ((h1 `min` h2) `min` h2) with (h1 `min` h2) by lia.
  replace ((w1 `min` w2) `min` w1) with (w1 `min` w2) by lia.
  replace ((w1 `min` w2) `min` w2) with (w1 `min` w2) by lia.
  replace ((c1 `min` c2) `min` c1) with (c1 `min` c2) by lia.
  replace ((c1 `min` c2) `min` c2) with (c1 `min` c2) by lia.
  rewrite decide_True by done.
  unfold ndim. cbn [shape length]. rewrite decide_False by done.
  cbn [ebind item shape]. f_equal.
  rewrite np_mean_fmap, length_indices. cbn [foldr].
  rewrite Nat.mul_1_r, Nat.mul_assoc.
  destruct (decide (h1 `min` h2 * (w1 `min` w2) * (c1 `min` c2) = 0)); [done|].
  by rewrite sumZ_indices3.
Qed.

Lemma compare_image_needs_three_axes (a b : ndarray) :
  (2 ≤ ndim a → 2 ≤ ndim b → ndim a = 2 ∨ ndim b = 2 →
     compare_image a b = inl (TupleIndexError 2)) ∧
  (∀ r, compare_image a b = inr r → 3 ≤ ndim a ∧ 3 ≤ ndim b).
Proof.
  unfold ndim, compare_image, shape_at.
  destruct a as [[|h1 [|w1 [|c1 sa]]] ia], b as [[|h2 [|w2 [|c2 sb]]] ib];
    cbn [shape length lookup list_lookup ebind];
    (split; [intros; first [lia | done] | intros r Hr; first [done | lia]]).
Qed.

Lemma ndim_np_array im :
  ndim (np_array im) = if decide (bands im ≤ 1) then 2 else 3.
Proof. unfold np_array. destruct (size im). by case_decide. Qed.

(** C2, as the code has it. For every pair of decoded images that both
    have more than one band, the comparator returns a boolean, and
    returns true exactly when the mean squared error over the largest
    common top-left-aligned region (the first min(heights) rows,
    min(widths) columns and min(channel counts) channels) is strictly
    below 500; the same holds of every two arrays with the three axes,
    and two 100x100 images of error 10 compare true and two of error
    900 compare false. When one of the two images is single-band, the
    comparator raises the index error of line 99 and returns nothing,
    whatever the error over the common region is. *)
Theorem compare_image_iff_region_mse_below_500 :
  (∀ im1 im2 : pil_image,
     1 < bands im1 → 1 < bands im2 →
     (∃ r, compare_image (np_array im1) (np_array im2) = inr r) ∧
     (compare_image (np_array im1) (np_array im2) = inr true
      ↔ ∃ q, region_mse (np_array im1) (np_array im2) = Some q
             ∧ (q < 500 # 1)%Q)) ∧
  (∀ a b : ndarray,
     ndim a = 3 → ndim b = 3 →
     (∃ r, compare_image a b = inr r) ∧
     (compare_image a b = inr true
      ↔ ∃ q, region_mse a b = Some q ∧ (q < 500 # 1)%Q) ∧
     (∀ c1 c2 q, shape a = [100; 100; c1] → shape b = [100; 100; c2] →
        region_mse a b = Some q →
        ((q == 10 # 1)%Q → compare_image a b = inr true) ∧
        ((q == 900 # 1)%Q → compare_image a b = inr false))) ∧
  (∀ im1 im2 : pil_image,
     bands im1 ≤ 1 ∨ bands im2 ≤ 1 →
     compare_image (np_array im1) (np_array im2) = inl (TupleIndexError 2)).
Proof.
  assert (Hiff : ∀ a b, ndim a = 3 → ndim b = 3 →
            compare_image a b = inr true
            ↔ ∃ q, region_mse a b = Some q ∧ (q < 500 # 1)%Q).
  { intros a b Ha Hb. rewrite (compare_image_region a b Ha Hb).
    destruct (region_mse a b) as [q|].
    - split.
      + intros [= Hq]. exists q. split; [done|]. by apply float_lt_Fin.
      + intros (q' & [= <-] & Hq). f_equal. by apply float_lt_Fin.
    - split; [done|]. by intros (q' & ? & _). }
  split; [|split].
  - intros im1 im2 H1 H2.
    assert (ndim (np_array im1) = 3) as Ha
      by (rewrite ndim_np_array; case_decide; [lia|done]).
    assert (ndim (np_array im2) = 3) as Hb
      by (rewrite ndim_np_array; case_decide; [lia|done]).
    split; [|by apply Hiff].
    rewrite (compare_image_region _ _ Ha Hb). eauto.
  - intros a b Ha Hb. split; [|split; [by apply Hiff|]].
    + rewrite (compare_image_region a b Ha Hb). eauto.
    + rewrite (compare_image_region a b Ha Hb).
      intros c1 c2 q _ _ ->. split; intros Hq; f_equal.
      * apply float_lt_Fin. rewrite Hq. done.
      * apply not_true_iff_false. rewrite float_lt_Fin, Hq. done.
  - intros im1 im2 Hgray. apply compare_image_needs_three_axes;
      rewrite !ndim_np_array; repeat case_decide; lia.
Qed.

Lemma compare_image_iff_region_mse_below_500_witness :
  (region_mse img_zero img_err10 = Some (300000 # 30000)%Q
   ∧ compare_image img_zero img_err10 = inr true) ∧
  (region_mse img_zero img_err900 = Some (27000000 # 30000)%Q
   ∧ compare_image img_zero img_err900 = inr false) ∧
  (compare_image (np_array (flat 2 1 3 20)) (np_array (flat 2 1 4 0)) = inr true
   ↔ ∃ q, region_mse (np_array (flat 2 1 3 20)) (np_array (flat 2 1 4 0))
          = Some q ∧ (q < 500 # 1)%Q) ∧
  compare_image (np_array rgb_2x2) (np_array gray_2x2)
  = inl (TupleIndexError 2).
Proof.
  destruct compare_image_iff_region_mse_below_500 as (Hbands & Harrays & Hgray).
  split; [|split; [|split]].
  - assert (Hq : region_mse img_zero img_err10 = Some (300000 # 30000)%Q)
      by (vm_compute; reflexivity).
    split; [exact Hq|].
    destruct (Harrays img_zero img_err10 eq_refl eq_refl) as (_ & _ & Hscen).
    destruct (Hscen 3 3 _ eq_refl eq_refl Hq) as [Hlow _].
    apply Hlow. reflexivity.
  - assert (Hq : region_mse img_zero img_err900 = Some (27000000 # 30000)%Q)
      by (vm_compute; reflexivity).
    split; [exact Hq|].
    destruct (Harrays img_zero img_err900 eq_refl eq_refl) as (_ & _ & Hscen).
    destruct (Hscen 3 3 _ eq_refl eq_refl Hq) as [_ Hhigh].
    apply Hhigh. reflexivity.
  - apply Hbands; vm_compute; lia.
  - apply Hgray. right. vm_compute. lia.
Defined.

(** The claim as it is worded, for every pair of decoded images, fails
    on single-band images: a grayscale image and itself have error 0
    over their common region, which is below 500, and the comparator
    raises instead of returning true. *)
Lemma compare_image_grayscale_counterexample :
  region_mse (np_array gray_2x2) (np_array gray_2x2) = Some (0 # 4)%Q
  ∧ compare_image (np_array gray_2x2) (np_array gray_2x2)
    = inl (TupleIndexError 2)
  ∧ ¬ (∀ im1 im2 : pil_image,
         compare_image (np_array im1) (np_array im2) = inr true
         ↔ ∃ q, region_mse (np_array im1) (np_array im2) = Some q
                ∧ (q < 500 # 1)%Q).
Proof.
  assert (Hq : region_mse (np_array gray_2x2) (np_array gray_2x2)
               = Some (0 # 4)%Q) by (vm_compute; reflexivity).
  assert (Hc : compare_image (np_array gray_2x2) (np_array gray_2x2)
               = inl (TupleIndexError 2)) by (vm_compute; reflexivity).
  split; [done|]. split; [done|]. intros Hclaim.
  destruct (Hclaim gray_2x2 gray_2x2) as [_ Htrue].
  rewrite Hc in Htrue. discriminate Htrue. by exists (0 # 4)%Q.
Qed.

(** C10. The comparator returns a boolean only on arrays with at least
    three axes: when one of two decoded arrays has the two axes of a
    grayscale image, reading the third shape component raises the index
    error and no boolean is returned. *)
Theorem compare_image_two_axes_raises :
  (∀ a b : ndarray,
     2 ≤ ndim a → 2 ≤ ndim b → ndim a = 2 ∨ ndim b = 2 →
     compare_image a b = inl (TupleIndexError 2)) ∧
  (∀ (a b : ndarray) r,
     compare_image a b = inr r → 3 ≤ ndim a ∧ 3 ≤ ndim b) ∧
  (∀ im1 im2 : pil_image,
     bands im1 ≤ 1 ∨ bands im2 ≤ 1 →
     compare_image (np_array im1) (np_array im2) = inl (TupleIndexError 2)).
Proof.
  split; [|split].
  - intros a b. apply compare_image_needs_three_axes.
  - intros a b. apply compare_image_needs_three_axes.
  - intros im1 im2 Hgray. apply compare_image_needs_three_axes;
      rewrite !ndim_np_array; repeat case_decide; lia.
Qed.

Lemma compare_image_two_axes_raises_witness :
  compare_image (np_array gray_2x2) (np_array gray_2x2) = inl (TupleIndexError 2)
  ∧ compare_image (np_array rgb_2x2) (np_array gray_2x2) = inl (TupleIndexError 2)
  ∧ compare_image (np_array gray_2x2) (np_array rgb_2x2) = inl (TupleIndexError 2)
  ∧ (3 ≤ ndim (np_array rgb_2x2) ∧ 3 ≤ ndim (np_array rgb_2x2)).
Proof.
  destruct compare_image_two_axes_raises as (Hraise & Hbool & Hgray).
  split; [|split; [|split]].
  - apply Hraise; vm_compute; lia.
  - apply Hgray. right. vm_compute. lia.
  - apply Hgray. left. vm_compute. lia.
  - apply (Hbool (np_array rgb_2x2) (np_array rgb_2x2) true).
    vm_compute. reflexivity.
Defined.

(** ** The monad *)

Lemma bind_inv {A B} (m : M A) (f : A → M B) t r :
  bind m f = (t, r) →
  (∃ e, m = (t, inl e) ∧ r = inl e) ∨
  (∃ t1 a t2, m = (t1, inr a) ∧ f a = (t2, r) ∧ t = t1 ++ t2).
Proof.
  destruct m as [t1 [e|a]]; simpl.
  - intros [= <- <-]. left. eauto.
  - destruct (f a) as [t2 r2] eqn:Hf. intros [= <- <-]. right. eauto 10.
Qed.

Lemma bind_ok_inv {A B} (m : M A) (f : A → M B) t b :
  bind m f = (t, inr b) →
  ∃ t1 a t2, m = (t1, inr a) ∧ f a = (t2, inr b) ∧ t = t1 ++ t2.
Proof. intros [(e & _ & [=])|H]%bind_inv. done. Qed.

Lemma bind_ret_l {A B} (a : A) (f : A → M B) : bind (ret a) f = f a.
Proof. unfold bind, ret. by destruct (f a). Qed.

Lemma bind_nil_l {A B} (a : A) (f : A → M B) : bind ([], inr a) f = f a.
Proof. apply bind_ret_l. Qed.

Lemma bind_ok {A B} (m : M A) (f : A → M B) t1 a t2 r :
  m = (t1, inr a) → f a = (t2, r) → bind m f = (t1 ++ t2, r).
Proof. intros -> Hf. simpl. by rewrite Hf. Qed.

Lemma bind_assoc {A B C} (m : M A) (f : A → M B) (g : B → M C) :
  bind (bind m f) g = bind m (λ a, bind (f a) g).
Proof.
  destruct m as [t [e|a]]; simpl; [done|].
  destruct (f a) as [t1 [e|b]]; simpl; [done|].
  destruct (g b) as [t2 r]. by rewrite app_assoc.
Qed.

Section Grouping.
Context (fs : filesystem).

Lemma get_image_img p :
  get_image fs p
  = match img fs p with Some a => ret a | None => raise (DecodeError p) end.
Proof.
  unfold get_image, Image_open, img.
  destruct (image_open fs p); reflexivity.
Qed.

Lemma shape_np_array im :
  take 2 (shape (np_array im)) = [snd (size im); fst (size im)].
Proof.
  unfold np_array. destruct (size im) as [w h]. by case_decide.
Qed.

Lemma img_dimensions p a :
  img fs p = Some a →
  ∃ w h, dimensions fs p = Some (w, h) ∧ take 2 (shape a) = [h; w].
Proof.
  unfold img, dimensions. destruct (image_open fs p) as [im|]; [|done].
  intros [= <-]. destruct (size im) as [w h] eqn:Hs. exists w, h.
  split; [by simpl; rewrite Hs|]. by rewrite shape_np_array, Hs.
Qed.

Lemma compare_with_cons a image r g :
  compare_with fs a image (r :: g)
  = match img fs r with
    | Some ir => ([Compared a r], compare_image image ir)
    | None => ([], inl (DecodeError r))
    end.
Proof.
  unfold compare_with. simpl. rewrite get_image_img.
  destruct (img fs r) as [ir|]; [|done]. simpl.
  by destruct (compare_image image ir).
Qed.

(** Forward: what one scan does when the verdicts are known. *)
Lemma scan_groups_miss a image gs :
  img fs a = Some image →
  Forall (λ g, similar_to_group fs a g = Some false) gs →
  scan_groups fs a image gs
  = (Compared a ∘ representative <$> gs, inr (false, gs)).
Proof.
  intros Ha. induction 1 as [|g gs Hg _ IH]; [done|].
  destruct g as [|r g]; [done|].
  cbn [scan_groups]. rewrite compare_with_cons.
  unfold similar_to_group, similar in Hg. simpl in Hg. rewrite Ha in Hg.
  simpl in Hg. destruct (img fs r) as [ir|]; [|done]. simpl in Hg.
  destruct (compare_image image ir) as [|[]] eqn:Hc; simplify_eq.
  unfold bind at 1. rewrite IH. cbn. by rewrite app_nil_r.
Qed.

Lemma scan_groups_hit a image pre g post :
  img fs a = Some image →
  Forall (λ g, similar_to_group fs a g = Some false) pre →
  similar_to_group fs a g = Some true →
  scan_groups fs a image (pre ++ g :: post)
  = (Compared a ∘ representative <$> pre ++ [g],
     inr (true, pre ++ (g ++ [a]) :: post)).
Proof.
  intros Ha Hpre Hg. induction Hpre as [|g' pre Hg' _ IH].
  - destruct g as [|r g]; [done|].
    cbn [app scan_groups]. rewrite compare_with_cons.
    unfold similar_to_group, similar in Hg. simpl in Hg. rewrite Ha in Hg.
    simpl in Hg. destruct (img fs r) as [ir|]; [|done]. simpl in Hg.
    destruct (compare_image image ir) as [|[]] eqn:Hc; simplify_eq.
    done.
  - destruct g' as [|r g']; [done|].
    cbn [app scan_groups]. rewrite compare_with_cons.
    unfold similar_to_group, similar in Hg'. simpl in Hg'. rewrite Ha in Hg'.
    simpl in Hg'. destruct (img fs r) as [ir|]; [|done]. simpl in Hg'.
    destruct (compare_image image ir) as [|[]] eqn:Hc; simplify_eq.
    unfold bind at 1. rewrite IH. cbn. by rewrite app_nil_r.
Qed.

Lemma place_miss a gs :
  is_Some (img fs a) →
  Forall (λ g, similar_to_group fs a g = Some false) gs →
  place fs a gs = (Compared a ∘ representative <$> gs, inr (gs ++ [[a]])).
Proof.
  intros [image Ha] Hgs. unfold place. rewrite get_image_img, Ha, bind_ret_l.
  rewrite (scan_groups_miss a image gs Ha Hgs). simpl.
  by rewrite app_nil_r.
Qed.

Lemma place_hit a pre g post :
  is_Some (img fs a) →
  Forall (λ g, similar_to_group fs a g = Some false) pre →
  similar_to_group fs a g = Some true →
  place fs a (pre ++ g :: post)
  = (Compared a ∘ representative <$> pre ++ [g],
     inr (pre ++ (g ++ [a]) :: post)).
Proof.
  intros [image Ha] Hpre Hg. unfold place.
  rewrite get_image_img, Ha, bind_ret_l.
  rewrite (scan_groups_hit a image pre g post Ha Hpre Hg). simpl.
  by rewrite app_nil_r.
Qed.

Lemma cluster_loop_app l1 l2 gs :
  cluster_loop fs (l1 ++ l2) gs
  = bind (cluster_loop fs l1 gs) (cluster_loop fs l2).
Proof.
  revert gs. induction l1 as [|a l1 IH]; intros gs.
  - simpl app. cbn [cluster_loop]. by rewrite bind_ret_l.
  - cbn [app cluster_loop].
    destruct (place fs a gs) as [t [e|gs']]; simpl; [done|].
    rewrite IH. destruct (cluster_loop fs l1 gs') as [t1 [e|gs1]]; simpl; [done|].
    destruct (cluster_loop fs l2 gs1) as [t2 r2]. by rewrite app_assoc.
Qed.
Lemma bind_ret_r {A} (m : M A) : bind m ret = m.
Proof.
  destruct m as [t [e|a]]; simpl; [done|]. by rewrite app_nil_r.
Qed.

Lemma bind_ext {A B} (m : M A) (f g : A → M B) :
  (∀ a, f a = g a) → bind m f = bind m g.
Proof. intros Hfg. destruct m as [t [e|a]]; simpl; [done|]. by rewrite Hfg. Qed.

Lemma similar_is_Some p q v :
  similar fs p q = Some v → is_Some (img fs p) ∧ is_Some (img fs q).
Proof.
  unfold similar. destruct (img fs p), (img fs q); simpl; naive_solver.
Qed.

(** The loop over the buckets, lines 116-128: the groups of the buckets
    one after the other. *)
Lemma cluster_all_results buckets results :
  Forall2 (λ b r, cluster_bucket fs b.2 = (r.1, inr r.2)) buckets results →
  ∀ acc, cluster_all fs buckets acc
         = (concat results.*1, inr (acc ++ concat results.*2)).
Proof.
  induction 1 as [|[k l] [t g] buckets results Hb _ IH]; intros acc.
  - cbn. by rewrite app_nil_r.
  - cbn [cluster_all]. cbn [fst snd] in Hb.
    rewrite (bind_ok _ _ _ _ _ _ Hb (IH (acc ++ g))).
    rewrite !fmap_cons. cbn [concat fst snd]. by rewrite (assoc_L (++)).
Qed.

(** Lines 107-114 on three artboards of one size: one bucket. *)
Lemma size_groups_one_size A B C d :
  exported_paths fs = [A; B; C] →
  dimensions fs A = Some d → dimensions fs B = Some d →
  dimensions fs C = Some d →
  size_groups fs = ([], inr [((snd d, fst d), [A; B; C])]).
Proof.
  intros Hpaths HA HB HC.
  assert (Hab : ∀ p, dimensions fs p = Some d →
            (let* a := get_image fs p in ret (p, take 2 (shape a)))
            = ([], inr (p, [snd d; fst d]))).
  { intros p Hp. unfold dimensions in Hp. unfold get_image, Image_open.
    destruct (image_open fs p) as [im|]; [|done].
    injection Hp as <-. rewrite !bind_ret_l. by rewrite shape_np_array. }
  unfold size_groups, artboards. rewrite Hpaths. cbn [mapM].
  rewrite (Hab A HA), bind_nil_l, (Hab B HB), bind_nil_l, (Hab C HC).
  rewrite ?bind_nil_l, !bind_ret_l. cbn [size_groups_loop setdefault_append].
  rewrite decide_True by done. cbn [setdefault_append].
  rewrite decide_True by done. reflexivity.
Qed.

(** C1. Greedy sub-clustering of a bucket: an artboard is compared with
    the first member of each open group in group-creation order and is
    appended to the first group it matches, the scan stopping there;
    when no group matches it opens a new singleton group at the end;
    the artboards of the bucket are placed one after the other in input
    order. For A, B, C with B similar to A and C not similar to A the
    bucket yields exactly the groups [A; B] and [C]. The engine returns
    the groups of its buckets, bucket after bucket; on an export of
    three artboards A, B, C of one size, B similar to A and C not, it
    makes the two comparisons (B, A) and (C, A) and returns exactly the
    groups [A; B] and [C]. *)
Theorem greedy_sub_clustering_first_match :
  (∀ a pre g post,
     is_Some (img fs a) →
     Forall (λ g', similar_to_group fs a g' = Some false) pre →
     similar_to_group fs a g = Some true →
     place fs a (pre ++ g :: post)
     = (Compared a ∘ representative <$> pre ++ [g],
        inr (pre ++ (g ++ [a]) :: post))) ∧
  (∀ a gs,
     is_Some (img fs a) →
     Forall (λ g', similar_to_group fs a g' = Some false) gs →
     place fs a gs = (Compared a ∘ representative <$> gs, inr (gs ++ [[a]]))) ∧
  cluster_bucket fs [] = ret [] ∧
  (∀ l a, cluster_bucket fs (l ++ [a]) = bind (cluster_bucket fs l) (place fs a)) ∧
  (∀ A B C,
     similar fs B A = Some true → similar fs C A = Some false →
     cluster_bucket fs [A; B; C]
     = ([Compared B A; Compared C A], inr [[A; B]; [C]])) ∧
  (∀ buckets results,
     size_groups fs = ([], inr buckets) →
     Forall2 (λ b r, cluster_bucket fs b.2 = (r.1, inr r.2)) buckets results →
     merge_artboard_group fs = (concat results.*1, inr (concat results.*2))) ∧
  (∀ A B C d,
     exported_paths fs = [A; B; C] →
     dimensions fs A = Some d → dimensions fs B = Some d →
     dimensions fs C = Some d →
     similar fs B A = Some true → similar fs C A = Some false →
     merge_artboard_group fs
     = ([Compared B A; Compared C A], inr [[A; B]; [C]])).
Proof.
  assert (Hscenario : ∀ A B C,
            similar fs B A = Some true → similar fs C A = Some false →
            cluster_bucket fs [A; B; C]
            = ([Compared B A; Compared C A], inr [[A; B]; [C]])).
  2: { split; [exact place_hit|]. split; [exact place_miss|].
       split; [done|]. split; [|split; [exact Hscenario|split]].
       - intros l a. unfold cluster_bucket. rewrite cluster_loop_app.
         apply bind_ext. intros gs. cbn [cluster_loop]. apply bind_ret_r.
       - intros buckets results Hsize Hres. unfold merge_artboard_group.
         rewrite Hsize, bind_nil_l. by rewrite (cluster_all_results _ _ Hres).
       - intros A B C d Hpaths HA HB HC HBA HCA.
         unfold merge_artboard_group.
         rewrite (size_groups_one_size A B C d Hpaths HA HB HC), bind_nil_l.
         rewrite (cluster_all_results [((snd d, fst d), [A; B; C])]
                    [([Compared B A; Compared C A], [[A; B]; [C]])]).
         + done.
         + constructor; [|constructor]. by apply Hscenario. }
  - intros A B C HBA HCA.
    destruct (similar_is_Some _ _ _ HBA) as [HB HA].
    destruct (similar_is_Some _ _ _ HCA) as [HC _].
    assert (H1 : place fs A [] = ([], inr [[A]]))
      by (by apply (place_miss A [])).
    assert (H2 : place fs B [[A]] = ([Compared B A], inr [[A; B]]))
      by (by apply (place_hit B [] [A] [])).
    assert (H3 : place fs C [[A; B]] = ([Compared C A], inr [[A; B]; [C]]))
      by (apply (place_miss C [[A; B]]); [done|by repeat constructor]).
    unfold cluster_bucket. cbn [cluster_loop].
    eapply (bind_ok _ _ [] _ [_; _]); [exact H1|].
    eapply (bind_ok _ _ [_] _ [_]); [exact H2|].
    eapply (bind_ok _ _ [_] _ []); [exact H3|]. reflexivity.
Qed.

(** *** Backward: what a finished scan says about its input *)

Lemma scan_groups_inv a image gs t r :
  img fs a = Some image →
  Forall (group_ok fs) gs →
  scan_groups fs a image gs = (t, r) →
  (∀ p q, Compared p q ∈ t → p = a ∧ q ∈ heads gs) ∧
  (∀ m gs', r = inr (m, gs') →
     if m : bool then
       ∃ pre g post, gs = pre ++ g :: post ∧ gs' = pre ++ (g ++ [a]) :: post
                     ∧ similar_to_group fs a g = Some true
     else gs' = gs).
Proof.
  intros Ha Hgs. revert t r.
  induction Hgs as [|g gs Hg _ IH]; intros t r.
  - intros [= <- <-]. split; [by intros ?? ?%elem_of_nil|].
    by intros m gs' [= <- <-].
  - destruct g as [|r0 g]; [done|].
    cbn [scan_groups]. rewrite compare_with_cons.
    destruct (img fs r0) as [ir|] eqn:Hr0.
    2:{ intros [= <- <-]. split; [by intros ?? ?%elem_of_nil|done]. }
    destruct (compare_image image ir) as [e|[]] eqn:Hc; cbn [bind ret].
    + intros [= <- <-]. split; [|done].
      intros p q [= -> ->]%list_elem_of_singleton.
      split; [done|]. simpl. left.
    + intros [= <- <-]. split.
      * intros p q [= -> ->]%list_elem_of_singleton. split; [done|]. simpl. left.
      * intros m gs' [= <- <-]. exists [], (r0 :: g), gs. split; [done|].
        split; [done|]. unfold similar_to_group, similar. simpl.
        by rewrite Ha, Hr0; simpl; rewrite Hc.
    + destruct (scan_groups fs a image gs) as [t' r'] eqn:Hscan.
      destruct (IH _ _ eq_refl) as [IHt IHr].
      assert (Hev : ∀ p q, Compared p q ∈ Compared a r0 :: t' →
                p = a ∧ q ∈ heads ((r0 :: g) :: gs)).
      { intros p q [[= -> ->]|Hin]%elem_of_cons; [split; [done|left]|].
        destruct (IHt _ _ Hin) as [-> Hq]. split; [done|by right]. }
      destruct r' as [e|[m rest']]; cbn [bind ret].
      * intros [= <- <-]. split; [exact Hev|done].
      * intros [= <- <-]. rewrite app_nil_r. split; [exact Hev|].
        intros m' gs' [= <- <-]. specialize (IHr _ _ eq_refl).
        destruct m.
        -- destruct IHr as (pre & g' & post & -> & -> & Hs).
           by exists ((r0 :: g) :: pre), g', post.
        -- by rewrite IHr.
Qed.

Lemma place_inv a gs t r :
  Forall (group_ok fs) gs →
  place fs a gs = (t, r) →
  (∀ p q, Compared p q ∈ t → p = a ∧ q ∈ heads gs) ∧
  (∀ gs', r = inr gs' →
     (∃ pre g post, gs = pre ++ g :: post ∧ gs' = pre ++ (g ++ [a]) :: post
                    ∧ similar_to_group fs a g = Some true)
     ∨ gs' = gs ++ [[a]]).
Proof.
  intros Hgs. unfold place. rewrite get_image_img.
  destruct (img fs a) as [image|] eqn:Ha.
  2:{ intros [= <- <-]. split; [by intros ?? ?%elem_of_nil|done]. }
  rewrite bind_ret_l.
  destruct (scan_groups fs a image gs) as [t' r'] eqn:Hscan.
  destruct (scan_groups_inv a image gs t' r' Ha Hgs Hscan) as [Ht Hr].
  destruct r' as [e|[m gs1]]; cbn [bind ret].
  - intros [= <- <-]. split; [exact Ht|done].
  - specialize (Hr _ _ eq_refl). destruct m; intros [= <- <-];
      rewrite app_nil_r; (split; [exact Ht|]); intros gs' [= <-].
    + by left.
    + right. by rewrite Hr.
Qed.

Lemma representative_snoc g a :
  g ≠ [] → representative (g ++ [a]) = representative g.
Proof. by destruct g. Qed.

Lemma group_ok_nonempty g : group_ok fs g → g ≠ [].
Proof. by destruct g. Qed.

Lemma heads_in_concat gs q :
  Forall (group_ok fs) gs → q ∈ heads gs → q ∈ concat gs.
Proof.
  induction 1 as [|g gs Hg _ IH]; [done|].
  unfold heads. rewrite fmap_cons, elem_of_cons. simpl. rewrite elem_of_app.
  intros [->|Hin]; [|right; by apply IH].
  left. destruct g; [done|]. simpl. left.
Qed.

(** One placement keeps the invariant, and the first members of the open
    groups only grow at the end. *)
Lemma place_groups_inv a gs t gs' seen :
  groups_inv fs seen gs →
  place fs a gs = (t, inr gs') →
  groups_inv fs (seen ++ [a]) gs' ∧
  (heads gs' = heads gs ∨ heads gs' = heads gs ++ [a]).
Proof.
  intros [Hgs Hperm] Hplace.
  destruct (place_inv a gs t _ Hgs Hplace) as [_ Hr].
  destruct (Hr _ eq_refl) as [(pre & g & post & -> & -> & Hsim)| ->].
  - apply Forall_app in Hgs as [Hpre [Hg Hpost]%Forall_cons].
    split; [split|].
    + apply Forall_app. split; [done|]. apply Forall_cons. split; [|done].
      destruct g as [|r ms]; [done|]. simpl in *.
      apply Forall_app. split; [done|]. by apply Forall_singleton.
    + rewrite <- Hperm, !concat_app, !concat_cons, <- !(assoc_L (++)).
      do 2 f_equiv. apply Permutation_app_comm.
    + left. unfold heads. rewrite !fmap_app, !fmap_cons.
      by rewrite representative_snoc by by eapply group_ok_nonempty.
  - split; [split|].
    + apply Forall_app. split; [done|]. apply Forall_singleton. simpl. done.
    + rewrite concat_app. simpl. by rewrite Hperm.
    + right. unfold heads. by rewrite fmap_app.
Qed.

Lemma cluster_loop_inv l gs t r seen :
  groups_inv fs seen gs →
  cluster_loop fs l gs = (t, r) →
  (∀ p q, Compared p q ∈ t → p ∈ l ∧ q ∈ seen ++ l) ∧
  (∀ gs', r = inr gs' →
     groups_inv fs (seen ++ l) gs' ∧ heads gs `prefix_of` heads gs' ∧
     (∀ p q, Compared p q ∈ t → q ∈ heads gs')).
Proof.
  revert gs t r seen. induction l as [|a l IH]; intros gs t r seen Hinv.
  - intros [= <- <-]. split; [by intros ?? ?%elem_of_nil|].
    intros gs' [= <-]. rewrite app_nil_r. split; [done|]. split; [done|].
    by intros ?? ?%elem_of_nil.
  - cbn [cluster_loop]. intros Hb.
    assert (Hheads : ∀ q, q ∈ heads gs → q ∈ seen).
    { intros q Hq. destruct Hinv as [Hgs <-]. by apply heads_in_concat. }
    apply bind_inv in Hb as [(e & Hp & ->)|(t1 & gs1 & t2 & Hp & Hl & ->)].
    + destruct (place_inv a gs t _ (proj1 Hinv) Hp) as [Ht _].
      split; [|done]. intros p q [-> Hq]%Ht. split; [left|].
      apply elem_of_app. left. auto.
    + destruct (place_inv a gs t1 _ (proj1 Hinv) Hp) as [Ht1 _].
      destruct (place_groups_inv a gs t1 gs1 seen Hinv Hp) as [Hinv1 Hh].
      destruct (IH _ _ _ _ Hinv1 Hl) as [Ht2 Hr2].
      assert (Hpre : heads gs `prefix_of` heads gs1).
      { destruct Hh as [->| ->]; [done|]. by apply prefix_app_r. }
      split.
      * intros p q [Hin|Hin]%elem_of_app.
        -- destruct (Ht1 _ _ Hin) as [-> Hq]. split; [left|].
           apply elem_of_app. left. auto.
        -- destruct (Ht2 _ _ Hin) as [Hp' Hq]. split; [by right|].
           by rewrite <- (assoc_L (++)) in Hq.
      * intros gs' ->. destruct (Hr2 _ eq_refl) as (Hinv' & Hpre' & Hq').
        rewrite <- (assoc_L (++)) in Hinv'. split; [done|].
        split; [by etrans|].
        intros p q [Hin|Hin]%elem_of_app; [|by eapply Hq'].
        destruct (Ht1 _ _ Hin) as [_ Hq].
        destruct Hpre' as [k ->]. destruct Hpre as [k' ->].
        rewrite !elem_of_app. auto.
Qed.

(** *** Bucketing *)

Lemma setdefault_append_keys key p d :
  (setdefault_append key p d).*1
  = if decide (key ∈ d.*1) then d.*1 else d.*1 ++ [key].
Proof.
  induction d as [|[k l] d IH]; [done|]. cbn [setdefault_append].
  destruct (decide (k = key)) as [->|Hne]; rewrite !fmap_cons; cbn [fst].
  - rewrite decide_True; [done|left].
  - rewrite IH. destruct (decide (key ∈ d.*1)) as [Hin|Hnin].
    + rewrite decide_True; [done|by right].
    + rewrite decide_False; [done|]. by intros [?|?]%elem_of_cons.
Qed.

Lemma setdefault_append_concat key p d :
  concat (setdefault_append key p d).*2 ≡ₚ concat d.*2 ++ [p].
Proof.
  induction d as [|[k l] d IH]; [done|]. cbn [setdefault_append].
  destruct (decide (k = key)) as [->|Hne];
    rewrite !fmap_cons, !concat_cons; cbn [snd].
  - rewrite <- !(assoc_L (++)). f_equiv. apply Permutation_app_comm.
  - by rewrite IH, (assoc_L (++)).
Qed.

Lemma setdefault_append_Forall (P : (nat * nat) * list string → Prop) key p d :
  Forall P d → P (key, [p]) → (∀ l, P (key, l) → P (key, l ++ [p])) →
  Forall P (setdefault_append key p d).
Proof.
  intros Hd Hnew Hadd. induction Hd as [|[k l] d Hkl Hd IH]; simpl.
  - by apply Forall_singleton.
  - destruct (decide (k = key)) as [->|Hne]; apply Forall_cons; auto.
Qed.

Lemma setdefault_append_inv key p d seen :
  bucket_key fs p = Some key →
  buckets_inv fs seen d →
  buckets_inv fs (seen ++ [p]) (setdefault_append key p d).
Proof.
  intros Hkey (Hnd & Hperm & Hall). split; [|split].
  - rewrite setdefault_append_keys. case_decide; [done|].
    apply NoDup_app. split; [done|]. split; [|apply NoDup_singleton].
    by intros k Hk ->%list_elem_of_singleton.
  - by rewrite setdefault_append_concat, Hperm.
  - apply setdefault_append_Forall; simpl; [done|by apply Forall_singleton|].
    intros l Hl. apply Forall_app. split; [done|]. by apply Forall_singleton.
Qed.

Lemma mapM_artboard_inv l t r :
  mapM (λ p, let* a := get_image fs p in ret (p, take 2 (shape a))) l = (t, r) →
  t = [] ∧ ∀ abs, r = inr abs → Forall2 (artboard_of fs) l abs.
Proof.
  revert t r. induction l as [|p l IH]; intros t r.
  - intros [= <- <-]. split; [done|]. intros abs [= <-]. constructor.
  - cbn [mapM]. rewrite get_image_img.
    destruct (img fs p) as [a|] eqn:Ha; [|by intros [= <- <-]].
    rewrite !bind_ret_l.
    destruct (mapM _ l) as [t' r'] eqn:Hl.
    destruct (IH _ _ eq_refl) as [-> Hr'].
    destruct r' as [e|abs']; cbn [bind ret]; intros [= <- <-]; [done|].
    split; [done|]. intros abs [= <-]. constructor; [|by apply Hr'].
    destruct (img_dimensions p a Ha) as (w & h & Hd & Hs).
    split; [done|]. exists (h, w). unfold bucket_key. by rewrite Hd.
Qed.

Lemma size_groups_loop_inv paths abs d seen :
  Forall2 (artboard_of fs) paths abs →
  buckets_inv fs seen d →
  ∃ d', size_groups_loop abs d = ([], inr d')
        ∧ buckets_inv fs (seen ++ paths) d'.
Proof.
  intros Habs. revert d seen.
  induction Habs as [|p [p' key] paths abs [Hp (k & Hk & Hkey)] _ IH];
    intros d seen Hinv.
  - exists d. by rewrite app_nil_r.
  - simpl in Hp, Hkey. subst p' key. cbn [size_groups_loop].
    destruct k as [h w]. simpl.
    destruct (IH _ _ (setdefault_append_inv (h, w) p d seen Hk Hinv))
      as (d' & Hd' & Hinv').
    exists d'. split; [done|]. by rewrite <- (assoc_L (++)) in Hinv'.
Qed.

Lemma size_groups_inv t r :
  size_groups fs = (t, r) →
  t = [] ∧ ∀ buckets, r = inr buckets → buckets_inv fs (exported_paths fs) buckets.
Proof.
  unfold size_groups, artboards.
  destruct (mapM _ (exported_paths fs)) as [t' r'] eqn:Hm.
  destruct (mapM_artboard_inv _ _ _ Hm) as [-> Hr'].
  destruct r' as [e|abs]; cbn [bind].
  - by intros [= <- <-].
  - destruct (size_groups_loop_inv (exported_paths fs) abs [] []
                (Hr' _ eq_refl)) as (d' & -> & Hinv).
    { split; [constructor|]. split; [done|constructor]. }
    intros [= <- <-]. split; [done|]. by intros ? [= <-].
Qed.

(** *** The whole engine *)

Lemma elem_of_concat {A} (x : A) (ls : list (list A)) :
  x ∈ concat ls ↔ ∃ l, l ∈ ls ∧ x ∈ l.
Proof.
  induction ls as [|l ls IH]; simpl.
  - split; [by intros ?%elem_of_nil|by intros (? & ?%elem_of_nil & _)].
  - rewrite elem_of_app, IH. split.
    + intros [?|(l' & ? & ?)]; [exists l; split; [left|done]|].
      exists l'. split; [by right|done].
    + intros (l' & [->|?]%elem_of_cons & ?); [by left|]. right. eauto.
Qed.

Lemma cluster_all_inv buckets acc t r :
  cluster_all fs buckets acc = (t, r) →
  (∀ p q, Compared p q ∈ t → ∃ b, b ∈ buckets ∧ p ∈ snd b ∧ q ∈ snd b) ∧
  (∀ out, r = inr out →
     ∃ new, out = acc ++ new ∧ concat new ≡ₚ concat buckets.*2 ∧
            Forall (group_ok fs) new ∧
            Forall (λ g, ∃ b, b ∈ buckets ∧ g ⊆ snd b) new ∧
            (∀ p q, Compared p q ∈ t → q ∈ heads new)).
Proof.
  revert acc t r. induction buckets as [|[k l] buckets IH]; intros acc t r.
  - intros [= <- <-]. split; [by intros ?? ?%elem_of_nil|].
    intros out [= <-]. exists []. rewrite app_nil_r.
    repeat split; try done. by intros ?? ?%elem_of_nil.
  - cbn [cluster_all]. unfold cluster_bucket.
    assert (Hnil : groups_inv fs [] []) by (split; [constructor|done]).
    intros [(e & Hc & ->)|(t1 & sub & t2 & Hc & Hrest & ->)]%bind_inv.
    + destruct (cluster_loop_inv l [] t _ [] Hnil Hc) as [Ht _].
      split; [|done]. intros p q [Hp Hq]%Ht. exists (k, l). split; [left|done].
    + destruct (cluster_loop_inv l [] t1 _ [] Hnil Hc) as [Ht1 Hr1].
      destruct (Hr1 _ eq_refl) as ([Hok Hperm] & _ & Hq1).
      destruct (IH _ _ _ Hrest) as [Ht2 Hr2]. split.
      * intros p q [Hin|Hin]%elem_of_app.
        -- destruct (Ht1 _ _ Hin). exists (k, l). split; [left|done].
        -- destruct (Ht2 _ _ Hin) as (b & ? & ?). exists b. split; [by right|done].
      * intros out ->.
        destruct (Hr2 _ eq_refl) as (new & -> & Hperm' & Hok' & Hsub' & Hq2).
        exists (sub ++ new). split; [by rewrite (assoc_L (++))|].
        split; [|split; [|split]].
        -- rewrite concat_app, fmap_cons, concat_cons. simpl.
           by rewrite Hperm, Hperm'.
        -- by apply Forall_app.
        -- apply Forall_app. split.
           ++ apply Forall_forall. intros g Hg. exists (k, l). split; [left|].
              intros x Hx. simpl. rewrite <- Hperm. apply elem_of_concat. eauto.
           ++ eapply Forall_impl; [exact Hsub'|]. intros g (b & ? & ?).
              exists b. split; [by right|done].
        -- unfold heads. rewrite fmap_app.
           intros p q [Hin|Hin]%elem_of_app; apply elem_of_app; [left|right].
           ++ by eapply Hq1.
           ++ by eapply Hq2.
Qed.

(** The groups the engine returns, the buckets they come from and the
    comparisons made on the way. *)
Lemma merge_artboard_group_inv t r :
  merge_artboard_group fs = (t, r) →
  (t = [] ∧ ∃ e, size_groups fs = ([], inl e) ∧ r = inl e) ∨
  ∃ buckets,
    size_groups fs = ([], inr buckets) ∧
    buckets_inv fs (exported_paths fs) buckets ∧
    (∀ p q, Compared p q ∈ t → ∃ b, b ∈ buckets ∧ p ∈ snd b ∧ q ∈ snd b) ∧
    (∀ groups, r = inr groups →
       concat groups ≡ₚ exported_paths fs ∧
       Forall (group_ok fs) groups ∧
       Forall (λ g, ∃ b, b ∈ buckets ∧ g ⊆ snd b) groups ∧
       (∀ p q, Compared p q ∈ t → q ∈ heads groups)).
Proof.
  unfold merge_artboard_group.
  destruct (size_groups fs) as [t0 r0] eqn:Hsz.
  destruct (size_groups_inv _ _ Hsz) as [-> Hb].
  destruct r0 as [e|buckets]; cbn [bind].
  - intros [= <- <-]. left. eauto.
  - destruct (cluster_all fs buckets []) as [t' r'] eqn:Hc.
    intros [= <- <-]. right. exists buckets.
    specialize (Hb _ eq_refl).
    destruct (cluster_all_inv _ _ _ _ Hc) as [Ht Hr].
    split; [done|]. split; [done|]. split; [done|].
    intros groups ->.
    destruct (Hr _ eq_refl) as (new & [= <-] & Hperm & Hok & Hsub & Hq).
    split; [|done]. rewrite Hperm. by destruct Hb as (_ & -> & _).
Qed.


Lemma bucket_key_dimensions p q k :
  bucket_key fs p = Some k → bucket_key fs q = Some k →
  dimensions fs p = dimensions fs q.
Proof.
  unfold bucket_key.
  destruct (dimensions fs p) as [[w h]|], (dimensions fs q) as [[w' h']|];
    simpl; congruence.
Qed.

Lemma buckets_same_dimensions seen d b p q :
  buckets_inv fs seen d → b ∈ d → p ∈ snd b → q ∈ snd b →
  dimensions fs p = dimensions fs q.
Proof.
  intros (_ & _ & Hall) Hb Hp Hq.
  rewrite Forall_forall in Hall. specialize (Hall _ Hb).
  rewrite Forall_forall in Hall.
  eapply bucket_key_dimensions; eauto.
Qed.


Lemma NoDup_concat_lookup {A} (ls : list (list A)) i j l1 l2 x :
  NoDup (concat ls) → ls !! i = Some l1 → ls !! j = Some l2 →
  x ∈ l1 → x ∈ l2 → i = j.
Proof.
  revert i j. induction ls as [|l ls IH]; intros i j; [done|].
  simpl. intros (Hl & Hdisj & Hls)%NoDup_app Hi Hj H1 H2.
  destruct i as [|i], j as [|j]; simplify_eq/=; [done| | |f_equal; eauto].
  - destruct (Hdisj x H1). apply elem_of_concat.
    eauto using list_elem_of_lookup_2.
  - destruct (Hdisj x H2). apply elem_of_concat.
    eauto using list_elem_of_lookup_2.
Qed.

(** C4. When the exported paths are distinct, no path occurs twice in the
    groups the engine returns: not twice in one group and not in two
    groups. *)
Theorem groups_pairwise_disjoint t groups :
  NoDup (exported_paths fs) →
  merge_artboard_group fs = (t, inr groups) →
  NoDup (concat groups) ∧
  (∀ i j g1 g2 p,
     groups !! i = Some g1 → groups !! j = Some g2 →
     p ∈ g1 → p ∈ g2 → i = j) ∧
  (∀ g, g ∈ groups → NoDup g).
Proof.
  intros Hnd Hm.
  destruct (merge_artboard_group_inv _ _ Hm)
    as [(_ & e & _ & [=])|(buckets & _ & _ & _ & Hr)].
  destruct (Hr _ eq_refl) as (Hperm & _).
  assert (Hc : NoDup (concat groups)) by by rewrite Hperm.
  split; [done|]. split.
  - intros i j g1 g2 p. by apply NoDup_concat_lookup.
  - clear -Hc. induction groups as [|g' gs IH]; [by intros ? ?%elem_of_nil|].
    simpl in Hc. apply NoDup_app in Hc as (Hg' & _ & Hgs).
    intros g [->|Hg]%elem_of_cons; auto.
Qed.

Lemma group_ok_head g : group_ok fs g → head g = Some (representative g).
Proof. by destruct g. Qed.

Lemma merge_groups_NoDup t groups :
  NoDup (exported_paths fs) →
  merge_artboard_group fs = (t, inr groups) →
  NoDup (concat groups).
Proof.
  intros Hnd Hm.
  destruct (merge_artboard_group_inv _ _ Hm)
    as [(_ & e & _ & [=])|(buckets & _ & _ & _ & Hr)].
  destruct (Hr _ eq_refl) as (Hperm & _). by rewrite Hperm.
Qed.

(** Every later member of a returned group compared true against the
    first member; the second argument of every comparison is the first
    member of a returned group, so with distinct paths a later member is
    never the second argument of a comparison. *)
Lemma members_compared_with_first_only t groups :
  merge_artboard_group fs = (t, inr groups) →
  (∀ g, g ∈ groups →
     ∃ r ms, g = r :: ms ∧ ∀ m, m ∈ ms → similar fs m r = Some true) ∧
  (∀ p q, Compared p q ∈ t → ∃ g, g ∈ groups ∧ head g = Some q) ∧
  (NoDup (exported_paths fs) →
   ∀ g j p q, g ∈ groups → g !! S j = Some q → Compared p q ∉ t).
Proof.
  intros Hm.
  destruct (merge_artboard_group_inv _ _ Hm)
    as [(_ & e & _ & [=])|(buckets & _ & _ & _ & Hr)].
  destruct (Hr _ eq_refl) as (Hperm & Hok & _ & Hq).
  rewrite Forall_forall in Hok.
  assert (Hhead : ∀ p q, Compared p q ∈ t →
            ∃ g, g ∈ groups ∧ head g = Some q).
  { intros p q Hin. apply Hq in Hin.
    apply list_elem_of_fmap in Hin as (g & -> & Hg).
    exists g. split; [done|]. by apply group_ok_head, Hok. }
  split; [|split; [done|]].
  - intros g Hg. specialize (Hok _ Hg). destruct g as [|r ms]; [done|].
    exists r, ms. split; [done|]. by apply Forall_forall.
  - intros Hnd g j p q Hg Hj Hin.
    destruct (Hhead _ _ Hin) as (g' & Hg' & Hh).
    pose proof (merge_groups_NoDup _ _ Hnd Hm) as Hc.
    apply list_elem_of_lookup in Hg as [i Hi], Hg' as [i' Hi'].
    assert (i' = i).
    { eapply (NoDup_concat_lookup groups i' i g' g q); eauto.
      - destruct g'; simplify_eq/=. left.
      - by eapply list_elem_of_lookup_2. }
    simplify_eq.
    assert (NoDup g) as Hndg.
    { clear -Hc Hi. revert i Hi. induction groups as [|g0 gs IH]; [done|].
      simpl in Hc. apply NoDup_app in Hc as (? & _ & ?).
      intros [|i] ?; simplify_eq/=; eauto. }
    destruct g as [|r ms]; simplify_eq/=.
    apply NoDup_cons in Hndg as [Hr' _]. destruct Hr'.
    by eapply list_elem_of_lookup_2.
Qed.

(** *** The manifest and the strips *)

Lemma mapM_Image_open l :
  Forall (λ p, is_Some (image_open fs p)) l →
  ∃ ims, mapM (Image_open fs) l = ([], inr ims)
         ∧ Forall2 (λ p im, image_open fs p = Some im) l ims.
Proof.
  induction 1 as [|p l [im Him] _ (ims & IH & Hall)].
  - exists []. split; [done|constructor].
  - exists (im :: ims). split; [|by constructor].
    cbn [mapM]. unfold Image_open at 1. rewrite Him, bind_ret_l, IH. done.
Qed.

Lemma imap_zip_same_width (g : list string) (ims : list pil_image) w n :
  Forall2 (λ _ im, fst (size im) = w) g ims →
  imap (λ i '(p, image), (p, ((n + i) * fst (size image), 0))) (zip g ims)
  = imap (λ i p, (p, ((n + i) * w, 0))) g.
Proof.
  intros Hall. revert n. induction Hall as [|p im g ims Hw _ IH]; intros n.
  - done.
  - cbn [zip zip_with imap]. rewrite Hw. f_equal.
    unfold compose. specialize (IH (S n)).
    erewrite imap_ext; [erewrite (imap_ext _ _ g)|]; [exact IH|..].
    + intros i x _. simpl. do 3 f_equal. lia.
    + intros i [x y] _. simpl. do 3 f_equal. lia.
Qed.

Lemma sum_list_take_same (ws : list nat) w i :
  Forall (λ x, x = w) ws → i ≤ length ws → sum_list (take i ws) = i * w.
Proof.
  intros Hall. revert i. induction Hall as [|x ws -> _ IH]; intros i Hi.
  - simpl in Hi. assert (i = 0) as -> by lia. done.
  - destruct i as [|i]; [done|]. simpl in *. rewrite IH; lia.
Qed.

Lemma materialize_same_size g w0 h0 :
  g ≠ [] →
  Forall (λ p, dimensions fs p = Some (w0, h0)) g →
  materialize fs g
  = ([], inr (Composite (w0 * length g, h0) (imap (λ i p, (p, (i * w0, 0))) g))).
Proof.
  intros Hne Hall. unfold materialize.
  destruct (mapM_Image_open g) as (ims & -> & Hims).
  { eapply Forall_impl; [exact Hall|]. intros p. unfold dimensions.
    by destruct (image_open fs p). }
  assert (Hsz : Forall2 (λ _ im, size im = (w0, h0)) g ims).
  { clear Hne. induction Hims as [|p im g ims Hp _ IH]; [constructor|].
    apply Forall_cons in Hall as [Hd Hall]. constructor; [|by apply IH].
    unfold dimensions in Hd. rewrite Hp in Hd. by simplify_eq/=. }
  rewrite bind_nil_l.
  destruct Hsz as [|p im g ims Hp Hsz]; [done|].
  rewrite bind_ret_l, Hp. cbn [fst snd length]. unfold ret.
  rewrite (Forall2_length _ _ _ Hsz).
  pose proof (imap_zip_same_width (p :: g) (im :: ims) w0 0) as Heq.
  cbn [Nat.add] in Heq. rewrite Heq; [done|].
  constructor; [by rewrite Hp|].
  eapply Forall2_impl; [exact Hsz|]. by intros _ im' ->.
Qed.

Lemma mapM_pure {A B} (f : A → M B) (R : A → B → Prop) l :
  Forall (λ x, ∃ y, f x = ([], inr y) ∧ R x y) l →
  ∃ ys, mapM f l = ([], inr ys) ∧ Forall2 R l ys.
Proof.
  induction 1 as [|x l (y & Hy & HR) _ (ys & IH & Hall)].
  - exists []. split; [done|constructor].
  - exists (y :: ys). split; [|by constructor].
    cbn [mapM]. by rewrite Hy, bind_nil_l, IH.
Qed.

Lemma main_inv t image_groups :
  merge_artboard_group fs = (t, inr image_groups) →
  ∃ strips,
    main fs = (t, inr (manifest_of image_groups, strips)) ∧
    Forall2 (strip_of fs) (manifest_of image_groups) strips.
Proof.
  intros Hm. unfold main. rewrite Hm.
  destruct (merge_artboard_group_inv _ _ Hm)
    as [(_ & e & _ & [=])|(buckets & _ & Hinv & _ & Hr)].
  destruct (Hr _ eq_refl) as (_ & Hok & Hsub & _).
  destruct (mapM_pure (materialize fs) (strip_of fs) (manifest_of image_groups))
    as (strips & Hs & Hall).
  2:{ exists strips. split; [|done]. cbn [bind]. rewrite Hs. cbn [bind ret].
      by rewrite !app_nil_r. }
  apply Forall_forall. intros g [Hlen Hg]%list_elem_of_filter.
  rewrite Forall_forall in Hsub. destruct (Hsub _ Hg) as (b & Hb & Hgb).
  destruct Hinv as (_ & _ & Hall). rewrite Forall_forall in Hall.
  specialize (Hall _ Hb). rewrite Forall_forall in Hall.
  destruct b as [[h0 w0] l]. simpl in *.
  assert (Hdim : Forall (λ p, dimensions fs p = Some (w0, h0)) g).
  { apply Forall_forall. intros p Hp. specialize (Hall _ (Hgb _ Hp)).
    unfold bucket_key in Hall.
    destruct (dimensions fs p) as [[w h]|]; by simplify_eq/=. }
  eexists. split; [apply (materialize_same_size g w0 h0); [|done]|].
  { intros ->. simpl in Hlen. lia. }
  split; [lia|]. exists w0, h0, (replicate (length g) w0).
  split; [|split; [|split]].
  - destruct g as [|p g]; [simpl in Hlen; lia|].
    apply Forall_cons in Hdim as [Hp _]. done.
  - clear -Hdim. induction Hdim as [|p g Hp _ IH]; [constructor|].
    constructor; [by rewrite Hp|done].
  - done.
  - simpl. apply imap_ext. intros i p Hi. do 2 f_equal.
    rewrite sum_list_take_same with (w := w0); [done| |].
    + apply Forall_forall. by intros x ->%elem_of_replicate_inv.
    + rewrite length_replicate. apply lookup_lt_Some in Hi. lia.
Qed.

End Grouping.

(** C5. Every group of the persisted manifest has at least two members:
    the manifest is the list of the groups the engine returned without
    the groups of one member. *)
Theorem manifest_groups_have_two_members fs t groups strips :
  main fs = (t, inr (groups, strips)) →
  Forall (λ g, 2 ≤ length g) groups ∧
  ∃ t' image_groups,
    merge_artboard_group fs = (t', inr image_groups) ∧
    groups = manifest_of image_groups ∧
    ∀ g, g ∈ image_groups → (g ∈ groups ↔ length g ≠ 1).
Proof.
  unfold main.
  intros (t1 & image_groups & t2 & Hm & Hrest & ->)%bind_ok_inv.
  apply bind_ok_inv in Hrest as (t3 & strips' & t4 & _ & [= _ <- <-] & _).
  split.
  - apply Forall_forall. intros g [Hlen _]%list_elem_of_filter. lia.
  - exists t1, image_groups. split; [done|]. split; [done|].
    intros g Hg. unfold manifest_of. rewrite list_elem_of_filter.
    destruct (merge_artboard_group_inv _ _ _ Hm)
      as [(_ & e & _ & [=])|(buckets & _ & _ & _ & Hr)].
    destruct (Hr _ eq_refl) as (_ & Hok & _).
    rewrite Forall_forall in Hok. specialize (Hok _ Hg).
    destruct g as [|r [|m ms]]; [done|..]; simpl; split; intros; try lia.
    split; [lia|done].
Qed.

(** C8. For every group of the manifest the materializer produces a
    strip: its height is the height of the first member, its width the
    width of the first member times the number of members, and each
    member is pasted at the x-offset equal to the summed widths of the
    members before it, at y-offset 0. *)
Theorem review_strip_layout fs t image_groups :
  merge_artboard_group fs = (t, inr image_groups) →
  ∃ strips,
    main fs = (t, inr (manifest_of image_groups, strips)) ∧
    Forall2 (strip_of fs) (manifest_of image_groups) strips.
Proof. apply main_inv. Qed.

(** C9. In every group the engine returns, each member after the first
    compared true against the first member, and the comparator was only
    ever called against first members: with distinct paths no later
    member of a group is the second argument of a call, so later members
    are never compared with each other. Their mutual similarity is not
    guaranteed: in the sample export the engine returns a group whose
    second and third member compare false. *)
Theorem later_members_compared_with_first_only :
  (∀ fs t groups,
     merge_artboard_group fs = (t, inr groups) →
     (∀ g, g ∈ groups →
        ∃ r ms, g = r :: ms ∧ ∀ m, m ∈ ms → similar fs m r = Some true) ∧
     (∀ p q, Compared p q ∈ t → ∃ g, g ∈ groups ∧ head g = Some q) ∧
     (NoDup (exported_paths fs) →
      ∀ g j p q, g ∈ groups → g !! S j = Some q → Compared p q ∉ t)) ∧
  (∃ fs t groups g r p q,
     merge_artboard_group fs = (t, inr groups) ∧ g ∈ groups ∧
     g = [r; p; q] ∧
     similar fs p r = Some true ∧ similar fs q r = Some true ∧
     similar fs p q = Some false ∧ similar fs q p = Some false).
Proof.
  split; [exact members_compared_with_first_only|].
  exists sample_fs. eexists _, _, _, _, _, _.
  split; [vm_compute; reflexivity|].
  split; [left|]. split; [reflexivity|].
  repeat split; vm_compute; reflexivity.
Qed.

(** *** The sample export *)

Lemma greedy_sub_clustering_first_match_witness :
  cluster_bucket sample_fs
    ["output/doc1/a.png"; "output/doc1/b.png"; "output/doc2/e.png"]
  = ([Compared "output/doc1/b.png" "output/doc1/a.png";
      Compared "output/doc2/e.png" "output/doc1/a.png"],
     inr [["output/doc1/a.png"; "output/doc1/b.png"]; ["output/doc2/e.png"]])
  ∧ place sample_fs "output/doc1/c.png"
      [["output/doc2/e.png"]; ["output/doc1/a.png"; "output/doc1/b.png"];
       ["output/doc1/b.png"]]
    = ([Compared "output/doc1/c.png" "output/doc2/e.png";
        Compared "output/doc1/c.png" "output/doc1/a.png"],
       inr [["output/doc2/e.png"];
            ["output/doc1/a.png"; "output/doc1/b.png"; "output/doc1/c.png"];
            ["output/doc1/b.png"]])
  ∧ place sample_fs "output/doc1/c.png" [["output/doc2/e.png"]]
    = ([Compared "output/doc1/c.png" "output/doc2/e.png"],
       inr [["output/doc2/e.png"]; ["output/doc1/c.png"]])
  ∧ merge_artboard_group one_size_fs
    = ([Compared "output/doc1/b.png" "output/doc1/a.png";
        Compared "output/doc1/c.png" "output/doc1/a.png"],
       inr [["output/doc1/a.png"; "output/doc1/b.png"];
            ["output/doc1/c.png"]])
  ∧ merge_artboard_group sample_fs
    = ([Compared "output/doc1/b.png" "output/doc1/a.png";
        Compared "output/doc1/c.png" "output/doc1/a.png";
        Compared "output/doc2/e.png" "output/doc1/a.png"],
       inr [["output/doc1/a.png"; "output/doc1/b.png"; "output/doc1/c.png"];
            ["output/doc2/e.png"]; ["output/doc1/d.png"];
            ["output/doc2/f.png"]]).
Proof.
  destruct (greedy_sub_clustering_first_match sample_fs)
    as (Hhit & Hmiss & _ & _ & Hscenario & Hall & _).
  destruct (greedy_sub_clustering_first_match one_size_fs)
    as (_ & _ & _ & _ & _ & _ & Hengine).
  split; [|split; [|split; [|split]]].
  4: { apply (Hengine _ _ _ (2, 1)); vm_compute; reflexivity. }
  4: { apply (Hall
                [((1, 2), ["output/doc1/a.png"; "output/doc1/b.png";
                           "output/doc1/c.png"; "output/doc2/e.png"]);
                 ((1, 1), ["output/doc1/d.png"]);
                 ((2, 2), ["output/doc2/f.png"])]
                [([Compared "output/doc1/b.png" "output/doc1/a.png";
                   Compared "output/doc1/c.png" "output/doc1/a.png";
                   Compared "output/doc2/e.png" "output/doc1/a.png"],
                  [["output/doc1/a.png"; "output/doc1/b.png";
                    "output/doc1/c.png"]; ["output/doc2/e.png"]]);
                 ([], [["output/doc1/d.png"]]);
                 ([], [["output/doc2/f.png"]])]).
       - vm_compute. reflexivity.
       - repeat constructor. }
  - apply Hscenario; vm_compute; reflexivity.
  - apply (Hhit "output/doc1/c.png" [["output/doc2/e.png"]]
             ["output/doc1/a.png"; "output/doc1/b.png"]
             [["output/doc1/b.png"]]).
    + eexists. vm_compute. reflexivity.
    + repeat constructor.
    + vm_compute. reflexivity.
  - apply (Hmiss "output/doc1/c.png" [["output/doc2/e.png"]]).
    + eexists. vm_compute. reflexivity.
    + repeat constructor.
Defined.


Lemma sample_paths_NoDup : NoDup (exported_paths sample_fs).
Proof. apply (bool_decide_unpack _). vm_compute. exact I. Qed.

Lemma groups_pairwise_disjoint_witness : NoDup (concat sample_groups).
Proof.
  refine (proj1 (groups_pairwise_disjoint sample_fs
                   (trace (merge_artboard_group sample_fs)) sample_groups _ _)).
  - apply (bool_decide_unpack _). vm_compute. exact I.
  - vm_compute. reflexivity.
Defined.

Lemma manifest_groups_have_two_members_witness :
  Forall (λ g, 2 ≤ length g) (manifest_of sample_groups).
Proof.
  refine (proj1 (manifest_groups_have_two_members sample_fs
                   (trace (main sample_fs)) (manifest_of sample_groups)
                   [Composite (6, 1)
                      [("output/doc1/a.png", (0, 0));
                       ("output/doc1/b.png", (2, 0));
                       ("output/doc1/c.png", (4, 0))]] _)).
  vm_compute. reflexivity.
Defined.

Lemma review_strip_layout_witness :
  ∃ strips,
    main sample_fs
    = (trace (merge_artboard_group sample_fs),
       inr (manifest_of sample_groups, strips))
    ∧ Forall2 (strip_of sample_fs) (manifest_of sample_groups) strips.
Proof.
  apply (review_strip_layout sample_fs _ sample_groups).
  vm_compute. reflexivity.
Defined.

Lemma later_members_compared_with_first_only_witness :
  similar sample_fs "output/doc1/c.png" "output/doc1/a.png" = Some true
  ∧ (Compared "output/doc2/e.png" "output/doc1/c.png"
       ∉ trace (merge_artboard_group sample_fs)).
Proof.
  destruct later_members_compared_with_first_only as [Hall _].
  destruct (Hall sample_fs (trace (merge_artboard_group sample_fs))
              sample_groups) as (Hsim & _ & Hnever).
  { vm_compute. reflexivity. }
  split.
  - destruct (Hsim ["output/doc1/a.png"; "output/doc1/b.png"; "output/doc1/c.png"])
      as (r & ms & [= <- <-] & Hms); [left|].
    apply Hms. right. left.
  - apply (Hnever sample_paths_NoDup
             ["output/doc1/a.png"; "output/doc1/b.png"; "output/doc1/c.png"] 1).
    + left.
    + reflexivity.
Defined.

(** ** The font scraper *)

Section Matcher.
Context (fuel : nat).

Lemma rmatch_lit w r s caps k :
  rmatch (lit w r) fuel s caps k
  = match drop_literal w s with
    | Some s' => rmatch r fuel s' caps k
    | None => None
    end.
Proof.
  revert s. induction w as [|c w IH]; intros s; [done|].
  destruct s as [|c' s]; [done|]. cbn [lit rmatch drop_literal].
  by case_decide.
Qed.

Lemma rmatch_name_char s caps k :
  rmatch name_char_re fuel s caps k
  = match s with
    | c :: s' =>
        if decide (name_stop c) then None else k s' (<[2 := [c]]> caps)
    | [] => None
    end.
Proof.
  destruct s as [|c s']; [done|]. cbn [name_char_re rmatch].
  unfold name_stop.
  destruct (decide (c = dquote)) as [->|Hq].
  { rewrite decide_True; [done|by left]. }
  destruct (decide (c = newline)) as [->|Hn].
  { rewrite decide_True; [done|by right]. }
  rewrite decide_False by (by intros [?|?]).
  unfold consumed. cbn [length].
  replace (S (length s') - length s') with 1 by lia. done.
Qed.

Lemma plus_loop_dot k n s caps :
  length s ≤ n → plus_loop (rmatch Dot fuel) k n s caps = dots_k s caps k.
Proof.
  revert s caps. induction n as [|n IH]; intros s caps Hlen.
  - destruct s; [done|simpl in Hlen; lia].
  - destruct s as [|c s]; [done|]. cbn [plus_loop rmatch dots_k].
    case_decide; [done|]. fold (plus_loop (rmatch Dot fuel) k).
    rewrite IH; [done|]. simpl in Hlen. lia.
Qed.

Lemma plus_loop_name_char k n s caps :
  length s ≤ n →
  plus_loop (rmatch name_char_re fuel) k n s caps = names_k s caps k.
Proof.
  revert s caps. induction n as [|n IH]; intros s caps Hlen.
  - destruct s; [done|simpl in Hlen; lia].
  - cbn [plus_loop]. rewrite rmatch_name_char.
    destruct s as [|c s]; [done|]. cbn [names_k].
    case_decide; [done|]. fold (plus_loop (rmatch name_char_re fuel) k).
    rewrite IH; [done|]. simpl in Hlen. lia.
Qed.

End Matcher.

Lemma name_run_app s f r :
  name_run s = (f, r) →
  s = f ++ r ∧ Forall (λ c, ¬ name_stop c) f
  ∧ match r with c :: _ => name_stop c | [] => True end.
Proof.
  revert f r. induction s as [|c s IH]; intros f r.
  - intros [= <- <-]. by repeat split.
  - cbn [name_run]. case_decide as Hc.
    + intros [= <- <-]. by repeat split.
    + destruct (name_run s) as [f' r'] eqn:Hrun. intros [= <- <-].
      destruct (IH _ _ eq_refl) as (-> & Hf & Hr).
      split; [done|]. split; [by constructor|done].
Qed.

Lemma names_k_run s caps k :
  (∀ c s' caps', ¬ name_stop c → k (c :: s') caps' = None) →
  match name_run s with
  | ([], _) => names_k s caps k = None
  | (_ :: _, r) => ∃ caps', names_k s caps k = k r caps'
  end.
Proof.
  intros Hk. revert caps. induction s as [|c s IH]; intros caps; [done|].
  cbn [name_run names_k]. case_decide as Hc; [done|].
  specialize (IH (<[2 := [c]]> caps)).
  destruct (name_run s) as [[|c' f] r] eqn:Hrun.
  - rewrite IH. destruct (name_run_app _ _ _ Hrun) as (-> & _ & _). eauto.
  - destruct IH as [caps' ->].
    destruct (k r caps') as [x|] eqn:Hx; [by exists caps'|].
    exists caps'. rewrite Hx.
    destruct (name_run_app _ _ _ Hrun) as (-> & Hf & _).
    apply Forall_cons in Hf as [Hc' _]. by apply Hk.
Qed.

Lemma consumed_app f r : consumed (f ++ r) r = f.
Proof.
  unfold consumed. rewrite length_app.
  replace (length f + length r - length r) with (length f) by lia.
  apply take_app_length.
Qed.

Lemma names_k_close_quote s1 caps :
  agrees (names_k s1 caps (close_quote s1))
    (match name_run s1 with
     | ((_ :: _) as f, c :: _) => if decide (c = dquote) then Some f else None
     | _ => None
     end).
Proof.
  pose proof (names_k_run s1 caps (close_quote s1)) as Hrun.
  destruct (name_run s1) as [[|c0 f] r] eqn:Hs1.
  - rewrite Hrun; [done|]. intros c s' caps' Hc. unfold close_quote.
    rewrite decide_False; [done|]. intros ->. apply Hc. by left.
  - destruct Hrun as [caps' ->].
    { intros c s' caps' Hc. unfold close_quote.
      rewrite decide_False; [done|]. intros ->. apply Hc. by left. }
    destruct (name_run_app _ _ _ Hs1) as (-> & _ & _).
    destruct r as [|c r]; [done|]. unfold close_quote.
    case_decide; [|done]. unfold agrees.
    rewrite lookup_insert_eq.
    f_equal. apply (consumed_app (c0 :: f)).
Qed.

Lemma drop_literal_app w s s' : drop_literal w s = Some s' → s = w ++ s'.
Proof.
  revert s. induction w as [|c w IH]; intros s; [by intros [= ->]|].
  destruct s as [|c' s]; [done|]. cbn [drop_literal].
  case_decide; [|done]. subst. intros ->%IH. done.
Qed.

Lemma drop_literal_app_eq w s : drop_literal w (w ++ s) = Some s.
Proof.
  induction w as [|c w IH]; [done|]. cbn [app drop_literal].
  by rewrite decide_True.
Qed.

Section Pattern.
Context (fuel : nat).

Lemma rmatch_after_dots s caps :
  length s ≤ fuel →
  agrees (rmatch after_dots fuel s caps (λ _ c, Some c)) (quoted_name_at s).
Proof.
  intros Hlen. unfold after_dots, quoted_name_at. rewrite rmatch_lit.
  destruct (drop_literal (phrase ++ [dquote]) s) as [s1|] eqn:Hs1; [|done].
  cbn [mbind option_bind rmatch].
  rewrite plus_loop_name_char.
  - apply names_k_close_quote.
  - apply drop_literal_app in Hs1 as ->. rewrite length_app in Hlen. lia.
Qed.

Lemma dots_k_agrees s caps (k : matcher) :
  (∀ s', length s' < length s → agrees (k s' caps) (quoted_name_at s')) →
  agrees (dots_k s caps k) (last_quoted_name s).
Proof.
  induction s as [|c s IH]; intros Hk; [done|].
  cbn [dots_k last_quoted_name]. case_decide; [done|].
  assert (Hs : agrees (dots_k s caps k) (last_quoted_name s)).
  { apply IH. intros s' Hlen. apply Hk. simpl. lia. }
  destruct (dots_k s caps k), (last_quoted_name s); try done.
  apply Hk. simpl. lia.
Qed.

End Pattern.

(** The scraper on one line, read without the matcher. *)
Lemma font_of_line_last_quoted_name line :
  font_of_line line
  = string_of_list_ascii <$> last_quoted_name (list_ascii_of_string line).
Proof.
  unfold font_of_line, re_match.
  set (l := list_ascii_of_string line).
  change font_re with (Cat (Plus Dot) after_dots).
  change (rmatch (Cat (Plus Dot) after_dots) (S (length l)) l ∅ (λ _ c, Some c))
    with (plus_loop (rmatch Dot (S (length l)))
            (λ s' caps', rmatch after_dots (S (length l)) s' caps' (λ _ c, Some c))
            (S (length l)) l ∅).
  rewrite plus_loop_dot by lia.
  pose proof (dots_k_agrees l ∅
                (λ s' caps', rmatch after_dots (S (length l)) s' caps'
                               (λ _ c, Some c))) as Hag.
  cbn beta in Hag.
  destruct (dots_k l ∅ _) as [caps|], (last_quoted_name l) as [f|];
    cbn [mbind option_bind fmap option_fmap option_map].
  - unfold group. rewrite Hag; [done|].
    intros s' Hlen. apply rmatch_after_dots. lia.
  - destruct Hag. intros s' Hlen. apply rmatch_after_dots. lia.
  - destruct Hag. intros s' Hlen. apply rmatch_after_dots. lia.
  - done.
Qed.

Lemma name_run_clean f c rest :
  Forall (λ c, ¬ name_stop c) f → name_stop c →
  name_run (f ++ c :: rest) = (f, c :: rest).
Proof.
  intros Hf Hc. induction Hf as [|c' f Hc' _ IH]; cbn [app name_run].
  - by rewrite decide_True.
  - by rewrite decide_False, IH.
Qed.

Lemma quoted_name_at_inv s f :
  quoted_name_at s = Some f →
  ∃ rest, s = phrase ++ [dquote] ++ f ++ [dquote] ++ rest
          ∧ f ≠ [] ∧ Forall (λ c, ¬ name_stop c) f.
Proof.
  unfold quoted_name_at.
  destruct (drop_literal (phrase ++ [dquote]) s) as [s1|] eqn:Hs1; [|done].
  cbn [mbind option_bind].
  destruct (name_run s1) as [[|c0 f0] [|c r]] eqn:Hrun; try done.
  case_decide; [|done]. subst c. intros [= <-].
  destruct (name_run_app _ _ _ Hrun) as (-> & Hf & _).
  apply drop_literal_app in Hs1 as ->. exists r.
  split; [by rewrite <- !(assoc_L (++))|done].
Qed.

Lemma quoted_name_at_intro f rest :
  f ≠ [] → Forall (λ c, ¬ name_stop c) f →
  quoted_name_at (phrase ++ [dquote] ++ f ++ [dquote] ++ rest) = Some f.
Proof.
  intros Hne Hf. unfold quoted_name_at.
  rewrite (assoc_L (++) phrase), drop_literal_app_eq. cbn [mbind option_bind].
  cbn [app]. rewrite name_run_clean; [|done|by left].
  destruct f; [done|]. by rewrite decide_True.
Qed.

Lemma last_quoted_name_inv s f :
  last_quoted_name s = Some f →
  ∃ pre rest, pre ≠ [] ∧ (newline ∉ pre)
              ∧ s = pre ++ phrase ++ [dquote] ++ f ++ [dquote] ++ rest
              ∧ f ≠ [] ∧ Forall (λ c, ¬ name_stop c) f.
Proof.
  induction s as [|c s IH]; [done|]. cbn [last_quoted_name].
  case_decide as Hc; [done|].
  destruct (last_quoted_name s) as [f'|].
  - intros [= ->]. destruct (IH eq_refl) as (pre & rest & _ & Hnl & -> & Hf).
    exists (c :: pre), rest. split; [done|]. split; [|done].
    by intros [?|?]%elem_of_cons.
  - intros (rest & -> & Hf)%quoted_name_at_inv.
    exists [c], rest. split; [done|]. split; [|done].
    by intros ?%list_elem_of_singleton.
Qed.

Lemma quotes_app s1 s2 : quotes (s1 ++ s2) = quotes s1 + quotes s2.
Proof. unfold quotes. by rewrite filter_app, length_app. Qed.

Lemma quotes_0 s : quotes s = 0 ↔ dquote ∉ s.
Proof.
  unfold quotes. induction s as [|c s IH].
  { split; [by intros _ ?%elem_of_nil|done]. }
  rewrite filter_cons, not_elem_of_cons. case_decide; simpl.
  - subst. split; [done|]. by intros [? _].
  - rewrite IH. split; [intros ?; split; [congruence|done]|by intros [_ ?]].
Qed.

Lemma quotes_clean f : Forall (λ c, ¬ name_stop c) f → quotes f = 0.
Proof.
  intros Hf. apply quotes_0. intros Hin.
  rewrite Forall_forall in Hf. apply (Hf _ Hin). by left.
Qed.

Lemma first_quote_unique a b x y :
  dquote ∉ a → dquote ∉ b → a ++ dquote :: x = b ++ dquote :: y → a = b.
Proof.
  revert b. induction a as [|c a IH]; intros [|c' b] Ha Hb Heq;
    simplify_eq/=; [done| | |].
  - destruct Hb. left.
  - destruct Ha. left.
  - f_equal. apply not_elem_of_cons in Ha as [_ Ha], Hb as [_ Hb]. eauto.
Qed.

Lemma phrase_no_quote : dquote ∉ phrase.
Proof. apply (bool_decide_unpack _). vm_compute. exact I. Qed.

(** A line that begins with the phrase and holds only the two double
    quotes around the name has no match: the leading [.+] needs a
    character of its own. *)
Lemma last_quoted_name_bare f rest :
  dquote ∉ f → dquote ∉ rest →
  last_quoted_name (phrase ++ [dquote] ++ f ++ [dquote] ++ rest) = None.
Proof.
  intros Hf Hrest.
  destruct (last_quoted_name _) as [g|] eqn:Hg; [|done]. exfalso.
  apply last_quoted_name_inv in Hg as (pre & rest' & Hne & _ & Heq & _ & Hclean).
  assert (Hq : quotes pre = 0 ∧ quotes rest' = 0).
  { apply (f_equal quotes) in Heq. rewrite !quotes_app in Heq.
    rewrite (proj2 (quotes_0 f) Hf), (proj2 (quotes_0 rest) Hrest),
      (proj2 (quotes_0 phrase) phrase_no_quote), (quotes_clean g Hclean) in Heq.
    change (quotes [dquote]) with 1 in Heq. lia. }
  destruct Hq as [Hpre%quotes_0 _].
  rewrite (assoc_L (++) pre) in Heq. cbn [app] in Heq.
  apply first_quote_unique in Heq; [|apply phrase_no_quote|].
  - apply (f_equal length) in Heq. rewrite length_app in Heq.
    destruct pre; [done|]. simpl in Heq. lia.
  - rewrite elem_of_app. intros [?|?]; [done|]. by apply phrase_no_quote.
Qed.

Lemma last_quoted_name_prefixed pre f rest :
  pre ≠ [] → newline ∉ pre →
  f ≠ [] → Forall (λ c, ¬ name_stop c) f → dquote ∉ rest →
  last_quoted_name (pre ++ phrase ++ [dquote] ++ f ++ [dquote] ++ rest) = Some f.
Proof.
  intros Hne Hnl Hf Hclean Hrest.
  induction pre as [|c pre IH]; [done|].
  apply not_elem_of_cons in Hnl as [Hc Hnl].
  rewrite <- app_comm_cons. cbn [last_quoted_name].
  rewrite decide_False by done.
  destruct pre as [|c' pre].
  - rewrite app_nil_l, last_quoted_name_bare; [|apply quotes_0|done].
    + by apply quoted_name_at_intro.
    + by apply quotes_clean.
  - by rewrite IH.
Qed.

Lemma elem_of_collected {A} (F : A → option string) (l : list A)
    (acc : gset string) x :
  x ∈ foldl (λ acc a, match F a with
                      | Some y => acc ∪ {[ y ]}
                      | None => acc
                      end) acc l
  ↔ x ∈ acc ∨ ∃ a, a ∈ l ∧ F a = Some x.
Proof.
  revert acc. induction l as [|a l IH]; intros acc; cbn [foldl].
  - split; [by left|]. intros [?|(a & ?%elem_of_nil & _)]; done.
  - rewrite IH. destruct (F a) as [y|] eqn:Ha.
    + rewrite elem_of_union, elem_of_singleton. split.
      * intros [[?| ->]|(a' & ? & ?)]; [by left| |].
        -- right. exists a. split; [left|done].
        -- right. exists a'. split; [by right|done].
      * intros [?|(a' & [->|?]%elem_of_cons & Ha')]; [by left; left| |].
        -- left. right. congruence.
        -- right. eauto.
    + split.
      * intros [?|(a' & ? & ?)]; [by left|]. right. exists a'.
        split; [by right|done].
      * intros [?|(a' & [->|?]%elem_of_cons & Ha')]; [by left|congruence|].
        right. eauto.
Qed.

Lemma get_missing_font_sorted error_file :
  StronglySorted String.le (get_missing_font error_file)
  ∧ NoDup (get_missing_font error_file)
  ∧ ∀ font, font ∈ get_missing_font error_file
            ↔ ∃ line, line ∈ readlines error_file ∧ font_of_line line = Some font.
Proof.
  unfold get_missing_font. split; [|split].
  - apply (StronglySorted_merge_sort _).
  - rewrite merge_sort_Permutation. apply NoDup_elements.
  - intros font. rewrite merge_sort_Permutation, elem_of_elements.
    rewrite elem_of_collected. rewrite elem_of_empty. tauto.
Qed.

Lemma list_ascii_of_string_app s1 s2 :
  list_ascii_of_string (s1 +:+ s2)
  = list_ascii_of_string s1 ++ list_ascii_of_string s2.
Proof. induction s1 as [|c s1 IH]; [done|]. simpl. by f_equal. Qed.

Lemma string_app_assoc (a b c : string) : (a +:+ b) +:+ c = a +:+ (b +:+ c).
Proof.
  induction a as [|x a IH]; [done|].
  change (String x ((a +:+ b) +:+ c) = String x (a +:+ (b +:+ c))).
  by rewrite IH.
Qed.

Lemma readlines_line body rest :
  newline ∉ list_ascii_of_string body →
  carriage_return ∉ list_ascii_of_string body →
  readlines (body +:+ String newline rest)
  = (body +:+ String newline EmptyString) :: readlines rest.
Proof.
  induction body as [|c body IH]; intros Hnl Hcr.
  - by cbn.
  - cbn in Hnl, Hcr.
    apply not_elem_of_cons in Hnl as [Hc1 Hnl].
    apply not_elem_of_cons in Hcr as [Hc2 Hcr].
    change (String c body +:+ String newline rest)
      with (String c (body +:+ String newline rest)).
    cbn [readlines]. rewrite IH by done.
    rewrite decide_False by (by intros ->).
    by rewrite decide_False by (by intros ->).
Qed.

Lemma readlines_prefix p s :
  newline ∉ list_ascii_of_string p →
  carriage_return ∉ list_ascii_of_string p →
  readlines (p +:+ s)
  = match readlines s with
    | l :: ls => (p +:+ l) :: ls
    | [] => match p with EmptyString => [] | _ => [p] end
    end.
Proof.
  induction p as [|c p IH]; intros Hnl Hcr.
  - change (EmptyString +:+ s) with s. by destruct (readlines s).
  - cbn in Hnl, Hcr.
    apply not_elem_of_cons in Hnl as [Hc1 Hnl].
    apply not_elem_of_cons in Hcr as [Hc2 Hcr].
    change (String c p +:+ s) with (String c (p +:+ s)).
    cbn [readlines]. rewrite IH by done.
    rewrite decide_False by (by intros ->).
    rewrite decide_False by (by intros ->).
    destruct (readlines s) as [|l ls]; [by destruct p|done].
Qed.

(** A line of the log with a prefix before the phrase, and the font it
    names. *)
Lemma font_of_prefixed_line p f :
  line_prefix p → f ≠ [] → Forall (λ c, ¬ name_stop c) f →
  font_of_line (p +:+ bare_line (string_of_list_ascii f))
  = Some (string_of_list_ascii f).
Proof.
  intros (Hne & Hnl & _) Hf Hclean. rewrite font_of_line_last_quoted_name.
  rewrite list_ascii_of_string_app. unfold bare_line, quoted.
  rewrite !list_ascii_of_string_app. cbn [list_ascii_of_string].
  rewrite list_ascii_of_string_of_list_ascii.
  rewrite <- (assoc_L (++) (dquote :: f) [dquote] [newline]).
  change (string_of_list_ascii
            <$> last_quoted_name
                  (list_ascii_of_string p ++ phrase ++ [dquote] ++ f
                   ++ [dquote] ++ [newline])
          = Some (string_of_list_ascii f)).
  rewrite (last_quoted_name_prefixed (list_ascii_of_string p) f [newline]);
    [done| |done..|].
  - by destruct p.
  - by intros [?|?%elem_of_nil]%elem_of_cons.
Qed.

Lemma bare_body_no_line_break c f :
  c = newline ∨ c = carriage_return →
  Forall (λ c, ¬ name_stop c ∧ c ≠ carriage_return) f →
  c ∉ list_ascii_of_string
        ("Client requested name " +:+ quoted (string_of_list_ascii f)).
Proof.
  intros Hc Hf. unfold quoted.
  rewrite !list_ascii_of_string_app. cbn [list_ascii_of_string].
  rewrite list_ascii_of_string_of_list_ascii.
  intros [Hin|[[?|Hin]%elem_of_cons|Hin]%elem_of_app]%elem_of_app.
  - revert Hin. destruct Hc as [-> | ->];
      apply (bool_decide_unpack _); vm_compute; exact I.
  - by destruct Hc as [-> | ->].
  - apply (proj1 (Forall_forall _ _) Hf) in Hin as [Hstop Hcr].
    destruct Hc as [-> | ->]; [apply Hstop; by right|done].
  - apply list_elem_of_singleton in Hin. by destruct Hc as [-> | ->].
Qed.

Lemma readlines_prefixed_line p f rest :
  line_prefix p → Forall (λ c, ¬ name_stop c ∧ c ≠ carriage_return) f →
  readlines ((p +:+ bare_line (string_of_list_ascii f)) +:+ rest)
  = (p +:+ bare_line (string_of_list_ascii f)) :: readlines rest.
Proof.
  intros (_ & Hnl & Hcr) Hf.
  rewrite string_app_assoc, readlines_prefix by done.
  unfold bare_line at 1.
  rewrite <- (string_app_assoc "Client requested name "),
    (string_app_assoc _ (String newline EmptyString) rest).
  change (String newline EmptyString +:+ rest) with (String newline rest).
  rewrite readlines_line.
  - unfold bare_line. by rewrite <- (string_app_assoc "Client requested name ").
  - apply bare_body_no_line_break; [by left|done].
  - apply bare_body_no_line_break; [by right|done].
Qed.

Lemma get_missing_font_prefixed_log p1 p2 p3 :
  line_prefix p1 → line_prefix p2 → line_prefix p3 →
  get_missing_font (prefixed_log_of p1 p2 p3) = ["Arial"; "Helvetica Neue"].
Proof.
  intros H1 H2 H3.
  assert (Hhn : Forall (λ c, ¬ name_stop c ∧ c ≠ carriage_return)
                  (list_ascii_of_string "Helvetica Neue")).
  { apply Forall_forall. intros c Hc. revert c Hc.
    apply Forall_forall. repeat constructor;
      by (intros [?|?]) || by intros ?. }
  assert (Har : Forall (λ c, ¬ name_stop c ∧ c ≠ carriage_return)
                  (list_ascii_of_string "Arial")).
  { repeat constructor; by (intros [?|?]) || by intros ?. }
  pose proof (readlines_prefixed_line p1 _
                ((p2 +:+ bare_line "Helvetica Neue")
                 +:+ (p3 +:+ bare_line "Arial")) H1 Hhn) as R1.
  pose proof (readlines_prefixed_line p2 _ (p3 +:+ bare_line "Arial") H2 Hhn)
    as R2.
  pose proof (readlines_prefixed_line p3 _ EmptyString H3 Har) as R3.
  assert (∀ x, x +:+ EmptyString = x) as Hnil.
  { intros x. induction x as [|c x IH]; [done|].
    change (String c (x +:+ EmptyString) = String c x). by rewrite IH. }
  rewrite Hnil in R3.
  change (string_of_list_ascii (list_ascii_of_string "Helvetica Neue"))
    with "Helvetica Neue" in *.
  change (string_of_list_ascii (list_ascii_of_string "Arial"))
    with "Arial" in *.
  unfold get_missing_font, prefixed_log_of. rewrite R1, R2, R3.
  cbn [readlines foldl].
  assert (∀ p, line_prefix p →
            font_of_line (p +:+ bare_line "Helvetica Neue")
            = Some "Helvetica Neue") as Fhn.
  { intros p Hp.
    apply (font_of_prefixed_line p (list_ascii_of_string "Helvetica Neue"));
      [done|done|by eapply Forall_impl; [exact Hhn|intros ? []]]. }
  assert (∀ p, line_prefix p →
            font_of_line (p +:+ bare_line "Arial") = Some "Arial") as Far.
  { intros p Hp.
    apply (font_of_prefixed_line p (list_ascii_of_string "Arial"));
      [done|done|by eapply Forall_impl; [exact Har|intros ? []]]. }
  rewrite (Fhn p1 H1), (Fhn p2 H2), (Far p3 H3).
  vm_compute. reflexivity.
Qed.

(** *** The last place of the pattern *)

Lemma matches_after_cons c s pre f :
  matches_after (c :: s) pre f →
  ∃ pre0, pre = c :: pre0 ∧ c ≠ newline
          ∧ ((pre0 = [] ∧ quoted_name_at s = Some f) ∨ matches_after s pre0 f).
Proof.
  intros (Hne & Hnl & Hf & Hclean & rest & Heq).
  destruct pre as [|c' pre0]; [done|]. injection Heq as <- ->.
  apply not_elem_of_cons in Hnl as [Hc Hnl].
  exists pre0. split; [done|]. split; [done|].
  destruct pre0 as [|c0 pre0].
  - left. split; [done|]. by apply quoted_name_at_intro.
  - right. repeat split; try done. by exists rest.
Qed.

Lemma matches_after_here c s f :
  c ≠ newline → quoted_name_at s = Some f → matches_after (c :: s) [c] f.
Proof.
  intros Hc (rest & -> & Hf & Hclean)%quoted_name_at_inv.
  repeat split; try done.
  - by intros [?|?%elem_of_nil]%elem_of_cons.
  - by exists rest.
Qed.

Lemma matches_after_later c s pre f :
  c ≠ newline → matches_after s pre f → matches_after (c :: s) (c :: pre) f.
Proof.
  intros Hc (Hne & Hnl & Hf & Hclean & rest & ->).
  repeat split; try done.
  - by intros [?|?]%elem_of_cons.
  - by exists rest.
Qed.

(** What [last_quoted_name] finds. *)
Lemma last_quoted_name_spec s :
  match last_quoted_name s with
  | Some f => ∃ pre, last_match s pre f
  | None => ∀ pre f, ¬ matches_after s pre f
  end.
Proof.
  induction s as [|c s IH]; cbn [last_quoted_name].
  - intros pre f (Hne & _ & _ & _ & rest & Heq). by destruct pre.
  - case_decide as Hc.
    + intros pre f (pre0 & -> & Hc' & _)%matches_after_cons. done.
    + destruct (last_quoted_name s) as [f|].
      * destruct IH as (pre & Hm & Hmax). exists (c :: pre). split.
        -- by apply matches_after_later.
        -- intros pre' f' (pre0 & -> & _ & [[-> _]|Hm'])%matches_after_cons.
           ++ cbn. lia.
           ++ cbn. apply Hmax in Hm'. lia.
      * destruct (quoted_name_at s) as [f|] eqn:Hq.
        -- exists [c]. split; [by apply matches_after_here|].
           intros pre' f' (pre0 & -> & _ & [[-> _]|Hm'])%matches_after_cons.
           ++ done.
           ++ by apply IH in Hm'.
        -- intros pre f (pre0 & -> & _ & [[_ Hq']|Hm'])%matches_after_cons.
           ++ congruence.
           ++ by apply IH in Hm'.
Qed.

(** At one place the pattern captures one name. *)
Lemma matches_after_unique s pre f pre' f' :
  matches_after s pre f → matches_after s pre' f' →
  length pre = length pre' → f = f'.
Proof.
  intros (_ & _ & _ & Hclean & rest & Heq) (_ & _ & _ & Hclean' & rest' & Heq')
    Hlen.
  rewrite Heq in Heq'. apply app_inj_1 in Heq' as [_ Heq']; [|done].
  apply app_inv_head in Heq'. cbn [app] in Heq'. injection Heq' as Heq'.
  eapply first_quote_unique; [| |exact Heq'];
    by apply quotes_0, quotes_clean.
Qed.

Lemma last_quoted_name_Some s f :
  last_quoted_name s = Some f ↔ ∃ pre, last_match s pre f.
Proof.
  pose proof (last_quoted_name_spec s) as Hspec. split.
  - intros Hf. by rewrite Hf in Hspec.
  - intros (pre & Hm & Hmax).
    destruct (last_quoted_name s) as [g|].
    + destruct Hspec as (pre' & Hm' & Hmax'). f_equal.
      eapply matches_after_unique; [exact Hm'|exact Hm|].
      apply Hmax in Hm' as ?. apply Hmax' in Hm as ?. lia.
    + by apply Hspec in Hm.
Qed.

Lemma last_quoted_name_None s :
  last_quoted_name s = None ↔ ∀ pre f, ¬ matches_after s pre f.
Proof.
  pose proof (last_quoted_name_spec s) as Hspec. split.
  - intros Hf. by rewrite Hf in Hspec.
  - intros Hno. destruct (last_quoted_name s) as [g|]; [|done].
    destruct Hspec as (pre & Hm & _). by apply Hno in Hm.
Qed.

(** C6, as the code has it. The scraper returns the captured font names
    sorted and without duplicates, one for every line of the log that
    matches. A line matches exactly when the pattern has a place in it:
    the phrase, a double quote, a non-empty name free of double quotes
    and a double quote, after at least one character of the line; the
    name captured is the one at the last such place. A line in which
    the pattern has no place after a first character does not match,
    as a line that begins with the phrase and holds no further double
    quote; a line that begins with the phrase and names a second font
    later yields the second font. The log of three lines with a prefix
    before the phrase, whatever the prefixes, yields the list
    [Arial; Helvetica Neue]. *)
Theorem missing_fonts_need_a_prefix_before_the_phrase :
  (∀ error_file,
     StronglySorted String.le (get_missing_font error_file)
     ∧ NoDup (get_missing_font error_file)
     ∧ ∀ font, font ∈ get_missing_font error_file
               ↔ ∃ line, line ∈ readlines error_file
                         ∧ font_of_line line = Some font) ∧
  (∀ line font,
     font_of_line line = Some font
     ↔ ∃ pre, last_match (list_ascii_of_string line) pre
                (list_ascii_of_string font)) ∧
  (∀ line,
     font_of_line line = None
     ↔ ∀ pre f, ¬ matches_after (list_ascii_of_string line) pre f) ∧
  (∀ pre f rest,
     pre ≠ [] → newline ∉ pre →
     f ≠ [] → Forall (λ c, ¬ name_stop c) f → dquote ∉ rest →
     font_of_line (string_of_list_ascii
                     (pre ++ phrase ++ [dquote] ++ f ++ [dquote] ++ rest))
     = Some (string_of_list_ascii f)) ∧
  (∀ f rest,
     dquote ∉ f → dquote ∉ rest →
     font_of_line (string_of_list_ascii
                     (phrase ++ [dquote] ++ f ++ [dquote] ++ rest))
     = None) ∧
  font_of_line two_names_line = Some "B" ∧
  (∀ p1 p2 p3,
     line_prefix p1 → line_prefix p2 → line_prefix p3 →
     get_missing_font (prefixed_log_of p1 p2 p3)
     = ["Arial"; "Helvetica Neue"]).
Proof.
  split; [exact get_missing_font_sorted|].
  split; [|split; [|split; [|split; [|split]]]].
  - intros line font. rewrite font_of_line_last_quoted_name.
    rewrite <- last_quoted_name_Some. split.
    + destruct (last_quoted_name _) as [f|]; [|done]. intros [= <-].
      by rewrite list_ascii_of_string_of_list_ascii.
    + intros ->. cbn. by rewrite string_of_list_ascii_of_string.
  - intros line. rewrite font_of_line_last_quoted_name.
    rewrite <- last_quoted_name_None.
    by destruct (last_quoted_name _).
  - intros pre f rest ? ? ? ? ?. rewrite font_of_line_last_quoted_name.
    rewrite list_ascii_of_string_of_list_ascii.
    by rewrite last_quoted_name_prefixed.
  - intros f rest ? ?. rewrite font_of_line_last_quoted_name.
    rewrite list_ascii_of_string_of_list_ascii.
    by rewrite last_quoted_name_bare.
  - vm_compute. reflexivity.
  - exact get_missing_font_prefixed_log.
Qed.

Lemma missing_fonts_need_a_prefix_before_the_phrase_witness :
  font_of_line (prefixed_line "Arial") = Some "Arial"
  ∧ font_of_line (bare_line "Arial") = None
  ∧ (∃ pre, last_match (list_ascii_of_string (prefixed_line "Arial")) pre
              (list_ascii_of_string "Arial"))
  ∧ (∀ pre f, ¬ matches_after (list_ascii_of_string (bare_line "Arial")) pre f)
  ∧ get_missing_font prefixed_log = ["Arial"; "Helvetica Neue"].
Proof.
  destruct missing_fonts_need_a_prefix_before_the_phrase
    as (_ & Hlast & Hnone & Hprefixed & Hbare & _ & Hlog).
  assert (Hp : font_of_line (prefixed_line "Arial") = Some "Arial").
  { apply (Hprefixed (list_ascii_of_string "sketchtool[4242] CoreText note: ")
             (list_ascii_of_string "Arial") [newline]).
    - vm_compute. discriminate.
    - apply (bool_decide_unpack _). vm_compute. exact I.
    - vm_compute. discriminate.
    - apply (bool_decide_unpack _). vm_compute. exact I.
    - apply (bool_decide_unpack _). vm_compute. exact I. }
  assert (Hb : font_of_line (bare_line "Arial") = None).
  { apply (Hbare (list_ascii_of_string "Arial") [newline]).
    - apply (bool_decide_unpack _). vm_compute. exact I.
    - apply (bool_decide_unpack _). vm_compute. exact I. }
  split; [exact Hp|]. split; [exact Hb|]. split; [|split].
  - by apply Hlast.
  - by apply Hnone.
  - apply (Hlog "sketchtool[4242] CoreText note: "
             "sketchtool[4242] CoreText note: "
             "sketchtool[4242] CoreText note: ");
      (split; [done|split; apply (bool_decide_unpack _); vm_compute; exact I]).
Defined.

(** The log of the claim: three lines that begin with the phrase. The
    scraper finds no font in it. *)
Lemma missing_fonts_bare_log_counterexample :
  get_missing_font bare_log = []
  ∧ get_missing_font bare_log ≠ ["Arial"; "Helvetica Neue"].
Proof. split; [vm_compute; reflexivity|vm_compute; discriminate]. Qed.

(** ** The error log *)

Lemma elem_of_add_lines (ls : list string) (acc : gset string) x :
  x ∈ foldl (λ acc line, acc ∪ {[ line +:+ String newline EmptyString ]}) acc ls
  ↔ x ∈ acc ∨ ∃ line, line ∈ ls ∧ x = line +:+ String newline EmptyString.
Proof.
  revert acc. induction ls as [|l ls IH]; intros acc; cbn [foldl].
  - split; [by left|]. intros [?|(l & ?%elem_of_nil & _)]; done.
  - rewrite IH, elem_of_union, elem_of_singleton. split.
    + intros [[?| ->]|(l' & ? & ?)]; [by left| |].
      * right. exists l. split; [left|done].
      * right. exists l'. split; [by right|done].
    + intros [?|(l' & [->|?]%elem_of_cons & ->)]; [by left; left| |].
      * left. by right.
      * right. eauto.
Qed.

Lemma elem_of_add_stderrs (queue : list string) (acc : gset string) x :
  x ∈ foldl (λ acc stderr,
               foldl (λ acc line, acc ∪ {[ line +:+ String newline EmptyString ]})
                     acc (split_on newline (strip stderr)))
            acc queue
  ↔ x ∈ acc ∨ ∃ s line, s ∈ queue ∧ line ∈ split_on newline (strip s)
                         ∧ x = line +:+ String newline EmptyString.
Proof.
  revert acc. induction queue as [|s queue IH]; intros acc; cbn [foldl].
  - split; [by left|]. intros [?|(s & l & ?%elem_of_nil & _)]; done.
  - rewrite IH, elem_of_add_lines. split.
    + intros [[?|(l & ? & ?)]|(s' & l & ? & ? & ?)]; [by left| |].
      * right. exists s, l. split; [left|done].
      * right. exists s', l. split; [by right|done].
    + intros [?|(s' & l & [->|?]%elem_of_cons & ? & ?)]; [by left; left| |].
      * left. right. eauto.
      * right. eauto 6.
Qed.

Lemma elem_of_process stderrs x :
  x ∈ process stderrs
  ↔ ∃ s line, s ∈ stderrs ∧ s ≠ EmptyString
              ∧ line ∈ split_on newline (strip s)
              ∧ x = line +:+ String newline EmptyString.
Proof.
  unfold process, error_message_set, error_queue.
  rewrite elem_of_elements, elem_of_add_stderrs, elem_of_empty.
  setoid_rewrite list_elem_of_filter. split.
  - intros [[]|(s & line & [? ?] & ? & ?)]. eauto 8.
  - intros (s & line & ? & ? & ? & ?). right. eauto 8.
Qed.

Lemma split_on_no_sep sep s piece :
  piece ∈ split_on sep s → sep ∉ list_ascii_of_string piece.
Proof.
  revert piece. induction s as [|c s IH]; intros piece; cbn [split_on].
  - intros ->%list_elem_of_singleton. by intros ?%elem_of_nil.
  - case_decide as Hc.
    + intros [->|?]%elem_of_cons; [by intros ?%elem_of_nil|by apply IH].
    + destruct (split_on sep s) as [|l ls] eqn:Hs.
      * intros ->%list_elem_of_singleton. simpl.
        intros [?|?%elem_of_nil]%elem_of_cons; done.
      * intros [->|?]%elem_of_cons; [|apply IH; by right].
        simpl. intros [?|?]%elem_of_cons; [done|].
        by apply (IH l); [left|].
Qed.

(** C7, as the code has it. After all jobs finished the error file holds
    exactly the lines of the non-empty diagnostic strings, each string
    stripped of leading and trailing whitespace before it is split at
    newlines; every line is written once, on a line of its own, and
    which lines the file holds does not depend on the order in which
    the jobs finished (the order of the lines in the file may). *)
Theorem error_log_holds_lines_of_stripped_stderrs stderrs :
  log_holds_lines_of_stripped_stderrs stderrs ∧
  (∀ written, written ∈ process stderrs →
     ∃ line, written = line +:+ String newline EmptyString
             ∧ newline ∉ list_ascii_of_string line) ∧
  (∀ stderrs', stderrs' ≡ₚ stderrs → process stderrs' ≡ₚ process stderrs).
Proof.
  split; [|split].
  - split; [unfold process; apply NoDup_elements|].
    intros written. apply elem_of_process.
  - intros written (s & line & _ & _ & Hline & ->)%elem_of_process.
    exists line. split; [done|]. by eapply split_on_no_sep.
  - intros stderrs' Hperm.
    apply NoDup_Permutation; [unfold process; apply NoDup_elements..|].
    intros x. rewrite !elem_of_process. by setoid_rewrite Hperm.
Qed.

Lemma error_log_holds_lines_of_stripped_stderrs_witness :
  process [" b" +:+ String newline "a"; EmptyString; "a"]
  ≡ₚ process ["a"; " b" +:+ String newline "a"; EmptyString]
  ∧ "b" +:+ String newline EmptyString
    ∈ process ["a"; " b" +:+ String newline "a"; EmptyString]
  ∧ (∀ written,
       written ∈ process ["a"; " b" +:+ String newline "a"; EmptyString] →
       ∃ line, written = line +:+ String newline EmptyString
               ∧ newline ∉ list_ascii_of_string line).
Proof.
  destruct (error_log_holds_lines_of_stripped_stderrs
              ["a"; " b" +:+ String newline "a"; EmptyString])
    as ([_ Hlines] & Hone & Horder).
  split; [|split; [|exact Hone]].
  - apply Horder. apply (bool_decide_unpack _). vm_compute. exact I.
  - apply Hlines. exists (" b" +:+ String newline "a"), "b".
    split; [right; left|]. split; [done|]. split; [vm_compute; left|done].
Defined.

(** A diagnostic string with a space in front of its only line: the file
    holds the line without the space, not the line of the string. *)
Lemma error_log_leading_space_counterexample :
  ¬ log_holds_lines_of_stderrs [" a"].
Proof.
  intros [_ Hlines].
  assert (Hin : " a" +:+ String newline EmptyString ∈ process [" a"]).
  { apply Hlines. exists " a", " a". split; [left|]. split; [done|].
    split; [vm_compute; left|done]. }
  revert Hin. apply (bool_decide_unpack _). vm_compute. exact I.
Qed.

(** * Further properties of the code *)

(** ** The comparator, lines 96-102 *)

Lemma compare_image_three_axes h1 w1 c1 sa ia h2 w2 c2 sb ib :
  compare_image (NdArray (h1 :: w1 :: c1 :: sa) ia)
                (NdArray (h2 :: w2 :: c2 :: sb) ib)
  = if decide (sa = sb) then
      inr (float_lt
             (np_mean ((λ ix, (ia ix - ib ix) ^ 2)%Z
                       <$> indices (h1 `min` h2 :: w1 `min` w2
                                    :: c1 `min` c2 :: sa)))
             threshold)
    else inl AssertionError.
Proof.
  unfold compare_image, shape_at.
  cbn [shape item lookup list_lookup ebind slice3].
  replace ((h1 `min` h2) `min` h1) with (h1 `min` h2) by lia.
  replace ((h1 `min` h2) `min` h2) with (h1 `min` h2) by lia.
  replace ((w1 `min` w2) `min` w1) with (w1 `min` w2) by lia.
  replace ((w1 `min` w2) `min` w2) with (w1 `min` w2) by lia.
  replace ((c1 `min` c2) `min` c1) with (c1 `min` c2) by lia.
  replace ((c1 `min` c2) `min` c2) with (c1 `min` c2) by lia.
  unfold mse. cbn [shape item]. destruct (decide (sa = sb)) as [->|Hne].
  - rewrite decide_True by done. unfold ndim. cbn [shape length].
    rewrite decide_False by done. done.
  - rewrite decide_False; [done|]. by intros [= ?].
Qed.

(** X1. The comparator does not depend on the order of its arguments:
    both orders return the same boolean or raise the same error. *)
Theorem compare_image_symmetric (a b : ndarray) :
  compare_image a b = compare_image b a.
Proof.
  destruct a as [[|h1 [|w1 [|c1 sa]]] ia], b as [[|h2 [|w2 [|c2 sb]]] ib];
    try reflexivity.
  rewrite !compare_image_three_axes.
  destruct (decide (sa = sb)) as [->|Hne].
  - rewrite decide_True by done.
    rewrite (Nat.min_comm h2 h1), (Nat.min_comm w2 w1), (Nat.min_comm c2 c1).
    do 3 f_equal. apply list_fmap_ext. intros _ ix _. simpl. lia.
  - rewrite decide_False by done. done.
Qed.

Lemma sumZ_zero {A} (l : list A) : sumZ ((λ _, 0%Z) <$> l) = 0%Z.
Proof.
  induction l as [|x l IH]; [done|].
  change (sumZ ((λ _ : A, 0%Z) <$> x :: l))
    with (0 + sumZ ((λ _ : A, 0%Z) <$> l))%Z.
  by rewrite IH.
Qed.

Lemma Pos_of_nat_Z (n : nat) : n ≠ 0 → Z.pos (Pos.of_nat n) = Z.of_nat n.
Proof. intros Hn. destruct n as [|n]; [done|]. lia. Qed.

Lemma float_lt_mean (s : Z) (n : nat) :
  n ≠ 0 →
  float_lt (Fin (s # Pos.of_nat n)) threshold
  = bool_decide (s < 500 * Z.of_nat n)%Z.
Proof.
  intros Hn. unfold float_lt, threshold, Qle_bool. cbn [Qnum Qden].
  rewrite (Pos_of_nat_Z n Hn).
  destruct (Z.leb_spec (500 * Z.of_nat n) (s * 1)); simpl; symmetry.
  - apply bool_decide_eq_false. lia.
  - apply bool_decide_eq_true. lia.
Qed.

(** X2. An array with at least three axes compares true with itself
    exactly when it holds at least one element; an empty array compares
    false with itself, the mean over nothing being nan. *)
Theorem compare_image_self (a : ndarray) :
  3 ≤ ndim a →
  compare_image a a = inr (bool_decide (foldr Nat.mul 1 (shape a) ≠ 0)).
Proof.
  destruct a as [[|h [|w [|c sa]]] ia]; unfold ndim; cbn [shape length];
    try lia.
  intros _. rewrite compare_image_three_axes, decide_True by done.
  rewrite !Nat.min_id. f_equal.
  erewrite list_fmap_ext; [|intros _ ix _; by rewrite Z.sub_diag].
  change (0 ^ 2)%Z with 0%Z.
  rewrite np_mean_fmap, length_indices, sumZ_zero.
  case_decide as Hn.
  - rewrite Hn. done.
  - rewrite float_lt_mean by done.
    rewrite bool_decide_eq_true_2 by lia. by rewrite bool_decide_eq_true_2.
Qed.

Lemma compare_image_self_witness :
  compare_image (NdArray [2; 2; 3] (λ _, 9%Z)) (NdArray [2; 2; 3] (λ _, 9%Z))
  = inr true
  ∧ compare_image (NdArray [0; 2; 3] (λ _, 9%Z)) (NdArray [0; 2; 3] (λ _, 9%Z))
    = inr false.
Proof.
  split.
  - apply (compare_image_self (NdArray [2; 2; 3] (λ _, 9%Z))). vm_compute. lia.
  - apply (compare_image_self (NdArray [0; 2; 3] (λ _, 9%Z))). vm_compute. lia.
Defined.

Lemma sum_upto_S n f : sum_upto (S n) f = (sum_upto n f + f n)%Z.
Proof.
  unfold sum_upto. rewrite seq_S, fmap_app, sumZ_app. simpl. lia.
Qed.

Lemma sum_upto_ext_lt n f g :
  (∀ i, i < n → f i = g i) → sum_upto n f = sum_upto n g.
Proof.
  induction n as [|n IH]; intros Hfg; [done|].
  rewrite !sum_upto_S, IH, Hfg; auto.
Qed.

Lemma sum_upto_upper n f hi :
  (∀ i, i < n → (f i ≤ hi)%Z) → (sum_upto n f ≤ Z.of_nat n * hi)%Z.
Proof.
  induction n as [|n IH]; intros Hf; [unfold sum_upto; simpl; lia|].
  rewrite sum_upto_S. specialize (Hf n (Nat.lt_succ_diag_r n)) as Hn.
  assert (sum_upto n f ≤ Z.of_nat n * hi)%Z
    by (apply IH; intros i Hi; apply Hf; lia).
  lia.
Qed.

Lemma sum_upto_lower n f lo :
  (∀ i, i < n → (lo ≤ f i)%Z) → (Z.of_nat n * lo ≤ sum_upto n f)%Z.
Proof.
  induction n as [|n IH]; intros Hf; [unfold sum_upto; simpl; lia|].
  rewrite sum_upto_S. specialize (Hf n (Nat.lt_succ_diag_r n)) as Hn.
  assert (Z.of_nat n * lo ≤ sum_upto n f)%Z
    by (apply IH; intros i Hi; apply Hf; lia).
  lia.
Qed.

Lemma region_sq_error_upper a b H W C hi :
  (∀ i j k, i < H → j < W → k < C →
     ((item a [i; j; k] - item b [i; j; k]) ^ 2 ≤ hi)%Z) →
  (region_sq_error a b H W C ≤ Z.of_nat (H * W * C) * hi)%Z.
Proof.
  intros Hb. unfold region_sq_error. rewrite !Nat2Z.inj_mul.
  rewrite <- !Z.mul_assoc. apply sum_upto_upper. intros i Hi.
  apply sum_upto_upper. intros j Hj.
  apply sum_upto_upper. intros k Hk. by apply Hb.
Qed.

Lemma region_sq_error_lower a b H W C lo :
  (∀ i j k, i < H → j < W → k < C →
     (lo ≤ (item a [i; j; k] - item b [i; j; k]) ^ 2)%Z) →
  (Z.of_nat (H * W * C) * lo ≤ region_sq_error a b H W C)%Z.
Proof.
  intros Hb. unfold region_sq_error. rewrite !Nat2Z.inj_mul.
  rewrite <- !Z.mul_assoc. apply sum_upto_lower. intros i Hi.
  apply sum_upto_lower. intros j Hj.
  apply sum_upto_lower. intros k Hk. by apply Hb.
Qed.

(** X3. A uniform tolerance: two arrays with the axes height, width and
    channels and a common region that is not empty compare true when
    every element of the region differs by at most 22, and false when
    every element differs by at least 23. *)
Theorem compare_image_tolerance (a b : ndarray) h1 w1 c1 h2 w2 c2 :
  shape a = [h1; w1; c1] → shape b = [h2; w2; c2] →
  (h1 `min` h2) * (w1 `min` w2) * (c1 `min` c2) ≠ 0 →
  ((∀ i j k, i < h1 `min` h2 → j < w1 `min` w2 → k < c1 `min` c2 →
      (Z.abs (item a [i; j; k] - item b [i; j; k]) ≤ 22)%Z) →
   compare_image a b = inr true) ∧
  ((∀ i j k, i < h1 `min` h2 → j < w1 `min` w2 → k < c1 `min` c2 →
      (23 ≤ Z.abs (item a [i; j; k] - item b [i; j; k]))%Z) →
   compare_image a b = inr false).
Proof.
  intros Ha Hb Hne.
  assert (Hc : compare_image a b
               = inr (bool_decide
                   (region_sq_error a b (h1 `min` h2) (w1 `min` w2) (c1 `min` c2)
                    < 500 * Z.of_nat ((h1 `min` h2) * (w1 `min` w2)
                                      * (c1 `min` c2)))%Z)).
  { rewrite compare_image_region by (unfold ndim; by rewrite ?Ha, ?Hb).
    rewrite (region_mse_three a b _ _ _ _ _ _ Ha Hb), decide_False by done.
    by rewrite float_lt_mean. }
  rewrite Hc. split; intros Hd; f_equal.
  - apply bool_decide_eq_true.
    pose proof (region_sq_error_upper a b (h1 `min` h2) (w1 `min` w2)
                  (c1 `min` c2) 484) as Hhi.
    assert (0 < Z.of_nat ((h1 `min` h2) * (w1 `min` w2) * (c1 `min` c2)))%Z
      by lia.
    assert (region_sq_error a b (h1 `min` h2) (w1 `min` w2) (c1 `min` c2)
            ≤ Z.of_nat ((h1 `min` h2) * (w1 `min` w2) * (c1 `min` c2)) * 484)%Z;
      [|lia].
    apply Hhi. intros i j k Hi Hj Hk. specialize (Hd i j k Hi Hj Hk). nia.
  - apply bool_decide_eq_false.
    assert (Z.of_nat ((h1 `min` h2) * (w1 `min` w2) * (c1 `min` c2)) * 529
            ≤ region_sq_error a b (h1 `min` h2) (w1 `min` w2) (c1 `min` c2))%Z;
      [|lia].
    apply region_sq_error_lower.
    intros i j k Hi Hj Hk. specialize (Hd i j k Hi Hj Hk). nia.
Qed.

Lemma compare_image_tolerance_witness :
  compare_image (NdArray [1; 2; 3] (λ _, 20%Z)) (NdArray [1; 2; 4] (λ _, 0%Z))
  = inr true
  ∧ compare_image (NdArray [1; 2; 3] (λ _, 20%Z)) (NdArray [1; 2; 4] (λ _, 200%Z))
    = inr false.
Proof.
  split.
  - apply (compare_image_tolerance (NdArray [1; 2; 3] (λ _, 20%Z))
             (NdArray [1; 2; 4] (λ _, 0%Z)) 1 2 3 1 2 4);
      [reflexivity|reflexivity|vm_compute; lia|].
    intros i j k _ _ _. simpl. lia.
  - apply (compare_image_tolerance (NdArray [1; 2; 3] (λ _, 20%Z))
             (NdArray [1; 2; 4] (λ _, 200%Z)) 1 2 3 1 2 4);
      [reflexivity|reflexivity|vm_compute; lia|].
    intros i j k _ _ _. simpl. lia.
Defined.

Lemma region_sq_error_ext a a' b H W C :
  (∀ i j k, i < H → j < W → k < C → item a [i; j; k] = item a' [i; j; k]) →
  region_sq_error a b H W C = region_sq_error a' b H W C.
Proof.
  intros Heq. unfold region_sq_error.
  apply sum_upto_ext_lt. intros i Hi.
  apply sum_upto_ext_lt. intros j Hj.
  apply sum_upto_ext_lt. intros k Hk. by rewrite Heq.
Qed.

(** X4. Only the common top-left region is looked at: an image may be
    replaced by any other image, also of another size, that has the
    same common region with the second image and the same elements in
    it, and the verdict stays the same. *)
Theorem compare_image_reads_common_region_only
    (a a' b : ndarray) h1 w1 c1 h1' w1' c1' h2 w2 c2 :
  shape a = [h1; w1; c1] → shape a' = [h1'; w1'; c1'] →
  shape b = [h2; w2; c2] →
  h1' `min` h2 = h1 `min` h2 → w1' `min` w2 = w1 `min` w2 →
  c1' `min` c2 = c1 `min` c2 →
  (∀ i j k, i < h1 `min` h2 → j < w1 `min` w2 → k < c1 `min` c2 →
     item a [i; j; k] = item a' [i; j; k]) →
  compare_image a b = compare_image a' b.
Proof.
  intros Ha Ha' Hb Hh Hw Hc Heq.
  rewrite !compare_image_region by (unfold ndim; by rewrite ?Ha, ?Ha', ?Hb).
  rewrite (region_mse_three a b _ _ _ _ _ _ Ha Hb),
    (region_mse_three a' b _ _ _ _ _ _ Ha' Hb), Hh, Hw, Hc.
  case_decide; [done|]. by rewrite (region_sq_error_ext a a' b).
Qed.

Lemma compare_image_reads_common_region_only_witness :
  compare_image (NdArray [1; 1; 3] (λ _, 20%Z)) (NdArray [1; 1; 3] (λ _, 0%Z))
  = compare_image
      (NdArray [2; 5; 4]
         (λ ix, match ix with [0; 0; _] => 20%Z | _ => 255%Z end))
      (NdArray [1; 1; 3] (λ _, 0%Z)).
Proof.
  apply (compare_image_reads_common_region_only _ _ _ 1 1 3 2 5 4 1 1 3);
    try reflexivity.
  intros i j k Hi Hj _. simpl in Hi, Hj.
  assert (i = 0) as -> by lia. assert (j = 0) as -> by lia. reflexivity.
Defined.

(** ** The grouping engine, lines 105-129 *)

(** X5. The groups the engine returns are a partition of the exported
    paths: every artboard is in a group, as often as it was exported,
    and no group is empty. *)
Theorem groups_partition_exported_paths fs t groups :
  merge_artboard_group fs = (t, inr groups) →
  concat groups ≡ₚ exported_paths fs ∧ Forall (λ g, g ≠ []) groups.
Proof.
  intros Hm.
  destruct (merge_artboard_group_inv _ _ _ Hm)
    as [(_ & e & _ & [=])|(buckets & _ & _ & _ & Hr)].
  destruct (Hr _ eq_refl) as (Hperm & Hok & _). split; [done|].
  eapply Forall_impl; [exact Hok|]. intros g. apply group_ok_nonempty.
Qed.

Lemma groups_partition_exported_paths_witness :
  concat sample_groups ≡ₚ exported_paths sample_fs
  ∧ Forall (λ g, g ≠ []) sample_groups.
Proof.
  apply (groups_partition_exported_paths sample_fs
           (trace (merge_artboard_group sample_fs)) sample_groups).
  vm_compute. reflexivity.
Defined.

(** X6. All members of a returned group decode and have the same pixel
    dimensions. *)
Theorem group_members_share_dimensions fs t groups :
  merge_artboard_group fs = (t, inr groups) →
  ∀ g p q, g ∈ groups → p ∈ g → q ∈ g →
    is_Some (dimensions fs p) ∧ dimensions fs p = dimensions fs q.
Proof.
  intros Hm g p q Hg Hp Hq.
  destruct (merge_artboard_group_inv _ _ _ Hm)
    as [(_ & e & _ & [=])|(buckets & _ & Hinv & _ & Hr)].
  destruct (Hr _ eq_refl) as (_ & _ & Hsub & _).
  rewrite Forall_forall in Hsub. destruct (Hsub _ Hg) as (b & Hb & Hgb).
  split; [|by eapply buckets_same_dimensions; eauto].
  destruct Hinv as (_ & _ & Hall). rewrite Forall_forall in Hall.
  specialize (Hall _ Hb). rewrite Forall_forall in Hall.
  specialize (Hall _ (Hgb _ Hp)). unfold bucket_key in Hall.
  by destruct (dimensions fs p).
Qed.

Lemma group_members_share_dimensions_witness :
  is_Some (dimensions sample_fs "output/doc1/b.png")
  ∧ dimensions sample_fs "output/doc1/b.png"
    = dimensions sample_fs "output/doc1/c.png".
Proof.
  apply (group_members_share_dimensions sample_fs
           (trace (merge_artboard_group sample_fs)) sample_groups eq_refl
           ["output/doc1/a.png"; "output/doc1/b.png"; "output/doc1/c.png"]).
  - left.
  - right. left.
  - right. right. left.
Defined.

Lemma mapM_artboard_fail fs l1 p l2 :
  Forall (λ q, is_Some (image_open fs q)) l1 →
  image_open fs p = None →
  mapM (λ p, let* a := get_image fs p in ret (p, take 2 (shape a)))
       (l1 ++ p :: l2)
  = ([], inl (DecodeError p)).
Proof.
  intros Hl1 Hp. induction Hl1 as [|q l1 [im Hq] _ IH]; cbn [app mapM].
  - rewrite get_image_img. unfold img. by rewrite Hp.
  - rewrite get_image_img. unfold img at 1. rewrite Hq. cbn [fmap option_fmap option_map].
    rewrite !bind_ret_l, IH. done.
Qed.

(** X7. A file that does not decode is fatal: the run raises the decode
    error of the first such path in glob order, before any image has
    been compared, and nothing is written. *)
Theorem undecodable_file_aborts_run fs l1 p l2 :
  exported_paths fs = l1 ++ p :: l2 →
  Forall (λ q, is_Some (image_open fs q)) l1 →
  image_open fs p = None →
  merge_artboard_group fs = ([], inl (DecodeError p))
  ∧ main fs = ([], inl (DecodeError p)).
Proof.
  intros Hpaths Hl1 Hp.
  assert (Hm : merge_artboard_group fs = ([], inl (DecodeError p))).
  { unfold merge_artboard_group, size_groups, artboards.
    by rewrite Hpaths, (mapM_artboard_fail fs l1 p l2 Hl1 Hp). }
  split; [done|]. unfold main. by rewrite Hm.
Qed.

Lemma undecodable_file_aborts_run_witness :
  merge_artboard_group broken_fs = ([], inl (DecodeError "output/doc1/notes.txt"))
  ∧ main broken_fs = ([], inl (DecodeError "output/doc1/notes.txt")).
Proof.
  apply (undecodable_file_aborts_run broken_fs ["output/doc1/a.png"]
           "output/doc1/notes.txt" ["output/doc1/b.png"]).
  - reflexivity.
  - repeat constructor. by eexists.
  - reflexivity.
Defined.

Lemma compare_np_array_outcome im1 im2 :
  (2 ≤ bands im1 → 2 ≤ bands im2 →
   ∃ v, compare_image (np_array im1) (np_array im2) = inr v) ∧
  (bands im1 ≤ 1 ∨ bands im2 ≤ 1 →
   compare_image (np_array im1) (np_array im2) = inl (TupleIndexError 2)).
Proof.
  split.
  - intros H1 H2. rewrite compare_image_region; [eauto|..];
      rewrite ndim_np_array; by rewrite decide_False by lia.
  - intros Hgray. apply compare_image_needs_three_axes;
      rewrite !ndim_np_array; repeat case_decide; lia.
Qed.

Lemma similar_Some_bands fs p q v :
  similar fs p q = Some v →
  ∃ im1 im2, image_open fs p = Some im1 ∧ image_open fs q = Some im2
             ∧ 2 ≤ bands im1 ∧ 2 ≤ bands im2.
Proof.
  unfold similar, img.
  destruct (image_open fs p) as [im1|]; [|done].
  destruct (image_open fs q) as [im2|]; [|done]. simpl.
  destruct (compare_image _ _) as [e|v'] eqn:Hc; [done|]. intros _.
  exists im1, im2. split; [done|]. split; [done|].
  destruct (decide (bands im1 ≤ 1 ∨ bands im2 ≤ 1)) as [Hg|Hg].
  - apply (proj2 (compare_np_array_outcome im1 im2)) in Hg. congruence.
  - lia.
Qed.

(** What a scan did, whatever its outcome: the groups [pre] compared
    false, then the scan stopped at the end, at a match or at an error. *)
Lemma scan_groups_outcome fs a image gs t r :
  img fs a = Some image →
  Forall (λ g, ∃ q, head g = Some q ∧ decodes fs q) gs →
  scan_groups fs a image gs = (t, r) →
  ∃ pre rest,
    gs = pre ++ rest ∧
    t = (Compared a ∘ representative) <$> (pre ++ take 1 rest) ∧
    Forall (λ g, similar_to_group fs a g = Some false) pre ∧
    match r with
    | inr (m, gs') =>
        (m = false ∧ rest = [] ∧ gs' = gs) ∨
        (m = true ∧ ∃ g post, rest = g :: post
                              ∧ similar_to_group fs a g = Some true
                              ∧ gs' = pre ++ (g ++ [a]) :: post)
    | inl e =>
        ∃ g post q, rest = g :: post ∧ head g = Some q
                    ∧ e = TupleIndexError 2
                    ∧ (single_band fs a ∨ single_band fs q)
    end.
Proof.
  intros Ha Hgs. revert t r.
  induction Hgs as [|g gs (q & Hq & [imq Himq]) _ IH]; intros t r.
  - intros [= <- <-]. exists [], []. repeat split; [constructor|by left].
  - destruct g as [|q' g]; simplify_eq/=.
    rewrite compare_with_cons. unfold img at 1. rewrite Himq.
    cbn [fmap option_fmap option_map].
    unfold img in Ha. destruct (image_open fs a) as [ima|] eqn:Hima; [|done].
    simplify_eq/=.
    assert (Hsim : similar_to_group fs a (q :: g)
                   = match compare_image (np_array ima) (np_array imq) with
                     | inr v => Some v | inl _ => None end).
    { unfold similar_to_group, similar, img. simpl. by rewrite Hima, Himq. }
    destruct (compare_image (np_array ima) (np_array imq)) as [e|[]] eqn:Hc;
      cbn [bind ret].
    + intros [= <- <-]. exists [], ((q :: g) :: gs).
      split; [done|]. split; [done|]. split; [constructor|].
      exists (q :: g), gs, q. split; [done|]. split; [done|].
      destruct (decide (bands ima ≤ 1 ∨ bands imq ≤ 1)) as [Hg|Hg].
      * rewrite (proj2 (compare_np_array_outcome ima imq) Hg) in Hc.
        simplify_eq. split; [done|].
        destruct Hg; [left; by exists ima|right; by exists imq].
      * destruct (proj1 (compare_np_array_outcome ima imq)) as [v Hv];
          [lia..|congruence].
    + intros [= <- <-]. exists [], ((q :: g) :: gs).
      split; [done|]. split; [done|]. split; [constructor|].
      right. split; [done|]. by exists (q :: g), gs.
    + destruct (scan_groups fs a (np_array ima) gs) as [t' r'] eqn:Hscan.
      destruct (IH _ _ eq_refl) as (pre & rest & -> & -> & Hpre & Hr).
      assert (Hpre' : Forall (λ g0, similar_to_group fs a g0 = Some false)
                        ((q :: g) :: pre)) by (by constructor).
      destruct r' as [e|[m rest']]; cbn [bind ret].
      * intros [= <- <-]. exists ((q :: g) :: pre), rest.
        split; [done|]. split; [done|]. split; [done|]. done.
      * intros [= <- <-]. rewrite app_nil_r.
        exists ((q :: g) :: pre), rest.
        split; [done|]. split; [done|]. split; [done|].
        destruct Hr as [(-> & -> & ->)|(-> & g' & post & -> & Hg' & ->)].
        -- by left.
        -- right. split; [done|]. by exists g', post.
Qed.

Lemma place_outcome fs a gs t r :
  Forall (λ g, ∃ q, head g = Some q ∧ decodes fs q) gs →
  place fs a gs = (t, r) →
  length t ≤ length gs ∧
  match r with
  | inr gs' =>
      decodes fs a ∧
      ((∃ pre g post, gs = pre ++ g :: post ∧ gs' = pre ++ (g ++ [a]) :: post
                      ∧ similar_to_group fs a g = Some true)
       ∨ (gs' = gs ++ [[a]]
          ∧ Forall (λ g, similar_to_group fs a g = Some false) gs))
  | inl e =>
      (e = DecodeError a ∧ ¬ decodes fs a ∧ t = []) ∨
      (e = TupleIndexError 2 ∧
       ∃ g q, g ∈ gs ∧ head g = Some q ∧ last t = Some (Compared a q)
              ∧ (single_band fs a ∨ single_band fs q))
  end.
Proof.
  intros Hgs. unfold place. rewrite get_image_img.
  destruct (img fs a) as [image|] eqn:Ha.
  2:{ intros [= <- <-]. split; [simpl; lia|]. left. split; [done|].
      split; [|done]. unfold img in Ha. intros [im Him].
      by rewrite Him in Ha. }
  assert (Hdec : decodes fs a).
  { unfold img in Ha. unfold decodes. by destruct (image_open fs a). }
  rewrite bind_ret_l.
  destruct (scan_groups fs a image gs) as [t' r'] eqn:Hscan.
  destruct (scan_groups_outcome fs a image gs t' r' Ha Hgs Hscan)
    as (pre & rest & -> & -> & Hpre & Hr).
  assert (Hlen : length ((Compared a ∘ representative) <$> pre ++ take 1 rest)
                 ≤ length (pre ++ rest)).
  { rewrite length_fmap, !length_app, length_take. lia. }
  destruct r' as [e|[m gs1]]; cbn [bind ret].
  - intros [= <- <-]. split; [done|]. right.
    destruct Hr as (g & post & q & -> & Hq & -> & Hband). split; [done|].
    exists g, q. split; [apply elem_of_app; right; left|]. split; [done|].
    split; [|done]. cbn [take]. rewrite fmap_app, last_app. simpl.
    unfold representative. by rewrite Hq.
  - destruct m; intros [= <- <-]; rewrite app_nil_r; (split; [done|]);
      (split; [done|]).
    + destruct Hr as [(? & _)|(_ & g & post & -> & Hg & ->)]; [done|].
      left. by exists pre, g, post.
    + destruct Hr as [(_ & -> & ->)|(? & _)]; [|done].
      right. by rewrite app_nil_r in *.
Qed.

Lemma pairwise_app {A} (R : A → A → Prop) l1 l2 :
  pairwise R (l1 ++ l2)
  ↔ pairwise R l1 ∧ pairwise R l2 ∧ ∀ x y, x ∈ l1 → y ∈ l2 → R x y.
Proof.
  induction l1 as [|x l1 IH]; cbn [app pairwise].
  - split; [intros ?; repeat split; [done|]|tauto].
    by intros ?? ?%elem_of_nil.
  - rewrite IH, Forall_app, !Forall_forall. split.
    + intros ([H1 H2] & H3 & H4 & H5). repeat split; try done.
      intros x' y [->|?]%elem_of_cons ?; auto.
    + intros ([H1 H2] & H3 & H4). repeat split; try done.
      * intros y Hy. apply H4; [left|done].
      * intros x' y ? ?. apply H4; [by right|done].
Qed.

Lemma pairwise_reps_snoc fs pre g post a :
  g ≠ [] →
  pairwise (reps_dissimilar fs) (pre ++ g :: post) →
  pairwise (reps_dissimilar fs) (pre ++ (g ++ [a]) :: post).
Proof.
  intros Hg. rewrite !pairwise_app. cbn [pairwise].
  unfold reps_dissimilar. rewrite !Forall_forall.
  setoid_rewrite elem_of_cons. rewrite (representative_snoc g a Hg).
  intros (H1 & [H2 H3] & H4). repeat split; try done.
  intros x y Hx [->|Hy].
  - rewrite (representative_snoc g a Hg). apply (H4 x g); auto.
  - apply H4; auto.
Qed.

Lemma cluster_inv_heads fs seen gs :
  cluster_inv fs seen gs →
  Forall (λ g, ∃ q, head g = Some q ∧ decodes fs q) gs.
Proof.
  intros ([Hok _] & Hdec & _ & Hsub).
  apply Forall_forall. intros g Hg.
  pose proof (proj1 (Forall_forall _ _) Hok _ Hg) as Hokg.
  pose proof (proj1 (Forall_forall _ _) Hsub _ Hg) as Hsubg.
  destruct g as [|q g]; [done|].
  exists q. split; [done|]. apply (proj1 (Forall_forall _ _) Hdec).
  apply (sublist_subseteq _ _ Hsubg). left.
Qed.

Lemma length_groups_le fs seen gs :
  groups_inv fs seen gs → length gs ≤ length seen.
Proof.
  intros [Hok <-]. induction Hok as [|g gs Hg _ IH]; [done|].
  simpl. rewrite length_app. destruct g; [done|]. simpl. lia.
Qed.

(** One placement keeps the invariant of the loop over a bucket. *)
Lemma place_cluster_inv fs a gs t gs' seen :
  cluster_inv fs seen gs →
  place fs a gs = (t, inr gs') →
  cluster_inv fs (seen ++ [a]) gs'.
Proof.
  intros Hinv Hplace.
  pose proof (cluster_inv_heads _ _ _ Hinv) as Hheads.
  destruct Hinv as (Hg & Hdec & Hpw & Hsub).
  destruct (place_groups_inv fs a gs t gs' seen Hg Hplace) as [Hg' _].
  destruct (place_outcome fs a gs t _ Hheads Hplace) as [_ [Ha Hcase]].
  split; [done|]. split; [apply Forall_app; split; [done|by constructor]|].
  destruct Hcase as [(pre & g & post & -> & -> & Hsim)|[-> Hmiss]].
  - split.
    + apply pairwise_reps_snoc; [|done]. destruct Hg as [Hok _].
      apply Forall_app in Hok as [_ [Hok _]%Forall_cons].
      by eapply group_ok_nonempty.
    + apply Forall_app in Hsub as [Hpre [Hgs Hpost]%Forall_cons].
      apply Forall_app. split.
      { eapply Forall_impl; [exact Hpre|]. intros. by apply sublist_inserts_r. }
      apply Forall_cons. split; [by apply sublist_app|].
      eapply Forall_impl; [exact Hpost|]. intros. by apply sublist_inserts_r.
  - split.
    + apply pairwise_app. split; [done|]. split; [by repeat constructor|].
      intros g y Hgin ->%list_elem_of_singleton.
      rewrite Forall_forall in Hmiss. specialize (Hmiss _ Hgin).
      unfold reps_dissimilar, similar_to_group in *. simpl.
      destruct (proj1 Hg) as [|]; [by apply elem_of_nil in Hgin|].
      clear -Hmiss Hgin Hg. destruct Hg as [Hok _].
      rewrite Forall_forall in Hok. specialize (Hok _ Hgin).
      destruct g; [done|]. done.
    + apply Forall_app. split.
      { eapply Forall_impl; [exact Hsub|]. intros. by apply sublist_inserts_r. }
      apply Forall_singleton. apply sublist_inserts_l. reflexivity.
Qed.

(** The loop over one bucket, lines 117-127: what it keeps, how many
    comparisons it makes, and how it can fail. *)
Lemma cluster_loop_outcome fs l gs seen t r :
  cluster_inv fs seen gs → Forall (decodes fs) l →
  cluster_loop fs l gs = (t, r) →
  2 * length t + length l ≤ 2 * length seen * length l + length l * length l ∧
  match r with
  | inr gs' => cluster_inv fs (seen ++ l) gs'
  | inl e =>
      e = TupleIndexError 2 ∧
      ∃ p q, last t = Some (Compared p q) ∧ p ∈ l ∧ q ∈ seen ++ l
             ∧ (single_band fs p ∨ single_band fs q)
  end.
Proof.
  revert gs seen t r. induction l as [|a l IH]; intros gs seen t r Hinv Hl.
  - intros [= <- <-]. split; [simpl; lia|]. by rewrite app_nil_r.
  - apply Forall_cons in Hl as [Ha Hl]. cbn [cluster_loop]. intros Hb.
    pose proof (cluster_inv_heads _ _ _ Hinv) as Hheads.
    pose proof (length_groups_le _ _ _ (proj1 Hinv)) as Hlen.
    apply bind_inv in Hb as [(e & Hp & ->)|(t1 & gs1 & t2 & Hp & Hrest & ->)].
    + destruct (place_outcome fs a gs t _ Hheads Hp) as [Ht Hr].
      split; [simpl; nia|].
      destruct Hr as [(_ & Hna & _)|(-> & g & q & Hg & Hq & Hlast & Hband)];
        [done|].
      split; [done|]. exists a, q. split; [done|]. split; [left|].
      split; [|done]. apply elem_of_app. left.
      destruct Hinv as (_ & _ & _ & Hsub).
      apply (sublist_subseteq _ _ (proj1 (Forall_forall _ _) Hsub _ Hg)).
      destruct g; simplify_eq/=. left.
    + destruct (place_outcome fs a gs t1 _ Hheads Hp) as [Ht1 _].
      pose proof (place_cluster_inv fs a gs t1 gs1 seen Hinv Hp) as Hinv1.
      destruct (IH _ _ _ _ Hinv1 Hl Hrest) as [Ht2 Hr2].
      rewrite length_app in *. cbn [length] in *. split; [nia|].
      destruct r as [e|gs'].
      * destruct Hr2 as (-> & p & q & Hlast & Hpl & Hq & Hband).
        split; [done|]. exists p, q. rewrite last_app, Hlast.
        split; [done|]. split; [by right|].
        split; [by rewrite <- (assoc_L (++)) in Hq|done].
      * by rewrite <- (assoc_L (++)) in Hr2.
Qed.

Lemma pairwise_impl {A} (R R' : A → A → Prop) l :
  (∀ x y, R x y → R' x y) → pairwise R l → pairwise R' l.
Proof.
  intros HR. induction l as [|x l IH]; [done|]. cbn [pairwise].
  intros [Hx Hl]. split; [|by apply IH].
  eapply Forall_impl; [exact Hx|]. auto.
Qed.

Lemma bucket_key_decodes fs p k : bucket_key fs p = Some k → decodes fs p.
Proof.
  unfold bucket_key, dimensions, decodes.
  by destruct (image_open fs p).
Qed.

Lemma bucket_key_of_dimensions fs p q k :
  dimensions fs p = dimensions fs q →
  bucket_key fs p = Some k → bucket_key fs q = Some k.
Proof. unfold bucket_key. by intros ->. Qed.

Lemma representative_elem g : g ≠ [] → representative g ∈ g.
Proof. destruct g; [done|]. intros _. left. Qed.

(** The loop over the buckets, lines 116-128. *)
Lemma cluster_all_outcome fs buckets acc t r done_keys :
  NoDup (done_keys ++ buckets.*1) →
  Forall (λ b, Forall (λ p, bucket_key fs p = Some (fst b)) (snd b)) buckets →
  pairwise (same_size_reps_dissimilar fs) acc →
  Forall (group_of_keys fs done_keys) acc →
  cluster_all fs buckets acc = (t, r) →
  2 * length t + length (concat buckets.*2) ≤ sum_squares buckets ∧
  match r with
  | inr out =>
      pairwise (same_size_reps_dissimilar fs) out ∧
      ∃ new, out = acc ++ new
             ∧ Forall (λ g, ∃ b, b ∈ buckets ∧ g `sublist_of` snd b) new
  | inl e =>
      e = TupleIndexError 2 ∧
      ∃ p q, last t = Some (Compared p q)
             ∧ (∃ b, b ∈ buckets ∧ p ∈ snd b ∧ q ∈ snd b)
             ∧ (single_band fs p ∨ single_band fs q)
  end.
Proof.
  revert acc t r done_keys.
  induction buckets as [|[k l] buckets IH]; intros acc t r done_keys Hnd Hkeys Hpw Hacc.
  - intros [= <- <-]. split; [done|]. split; [done|].
    exists []. by rewrite app_nil_r.
  - apply Forall_cons in Hkeys as [Hl Hkeys]. cbn [fst snd] in Hl.
    cbn [cluster_all]. unfold cluster_bucket.
    assert (Hnil : cluster_inv fs [] []).
    { split; [split; [constructor|done]|]. by repeat split; try constructor. }
    assert (Hdec : Forall (decodes fs) l).
    { eapply Forall_impl; [exact Hl|]. intros p. apply bucket_key_decodes. }
    unfold sum_squares. rewrite !fmap_cons, concat_cons, length_app.
    cbn [sum_list_with snd]. fold (sum_squares buckets).
    intros [(e & Hc & ->)|(t1 & sub & t2 & Hc & Hrest & ->)]%bind_inv.
    + destruct (cluster_loop_outcome fs l [] [] t _ Hnil Hdec Hc) as [Ht Hr].
      assert (length (concat buckets.*2) ≤ sum_squares buckets).
      { clear. induction buckets as [|[k' l'] bs IHb]; [done|].
        unfold sum_squares in *. rewrite fmap_cons, concat_cons, length_app.
        cbn [sum_list_with snd]. nia. }
      split; [simpl in Ht; nia|].
      destruct Hr as (-> & p & q & Hlast & Hp & Hq & Hband).
      split; [done|]. exists p, q. split; [done|]. split; [|done].
      exists (k, l). split; [left|done].
    + destruct (cluster_loop_outcome fs l [] [] t1 _ Hnil Hdec Hc) as [Ht1 Hr1].
      cbn [app] in Hr1. destruct Hr1 as ([Hok Hperm] & _ & Hpw1 & Hsub1).
      assert (Hsubkeys : Forall (group_of_keys fs (done_keys ++ [k])) sub).
      { apply Forall_forall. intros g Hg. split.
        - eapply group_ok_nonempty. by apply (proj1 (Forall_forall _ _) Hok).
        - exists k. split; [apply elem_of_app; right; left|].
          apply Forall_forall. intros p Hp.
          apply (proj1 (Forall_forall _ _) Hl).
          apply (sublist_subseteq _ _ (proj1 (Forall_forall _ _) Hsub1 _ Hg)).
          done. }
      destruct (IH (acc ++ sub) t2 r (done_keys ++ [k])) as [Ht2 Hr2]; try done.
      * by rewrite <- (assoc_L (++)).
      * apply pairwise_app. split; [done|]. split.
        { eapply pairwise_impl; [|exact Hpw1]. by intros x y ? _. }
        intros g1 g2 Hg1 Hg2 Hdim. exfalso.
        destruct (proj1 (Forall_forall _ _) Hacc _ Hg1) as (Hne1 & k1 & Hk1 & Hall1).
        destruct (proj1 (Forall_forall _ _) Hsubkeys _ Hg2) as (Hne2 & k2 & _ & _).
        assert (Hkey1 : bucket_key fs (representative g1) = Some k1).
        { apply (proj1 (Forall_forall _ _) Hall1). by apply representative_elem. }
        assert (Hkey2 : bucket_key fs (representative g2) = Some k).
        { apply (proj1 (Forall_forall _ _) Hl).
          apply (sublist_subseteq _ _ (proj1 (Forall_forall _ _) Hsub1 _ Hg2)).
          by apply representative_elem. }
        apply (bucket_key_of_dimensions _ _ _ _ Hdim) in Hkey1.
        assert (k1 = k) as -> by congruence.
        apply NoDup_app in Hnd as (_ & Hdisj & _).
        apply (Hdisj k Hk1). left.
      * apply Forall_app. split; [|done].
        eapply Forall_impl; [exact Hacc|]. intros g (? & k' & ? & ?).
        split; [done|]. exists k'. split; [|done]. apply elem_of_app. by left.
      * rewrite length_app. split; [simpl in Ht1; nia|].
        destruct r as [e|out].
        -- destruct Hr2 as (-> & p & q & Hlast & (b & Hb & Hpq) & Hband).
           split; [done|]. exists p, q. rewrite last_app, Hlast.
           split; [done|]. split; [|done]. exists b. split; [by right|done].
        -- destruct Hr2 as (Hpw' & new & -> & Hnew). split; [done|].
           exists (sub ++ new). split; [by rewrite (assoc_L (++))|].
           apply Forall_app. split.
           ++ eapply Forall_impl; [exact Hsub1|]. intros g Hg.
              exists (k, l). split; [left|done].
           ++ eapply Forall_impl; [exact Hnew|]. intros g (b & ? & ?).
              exists b. split; [by right|done].
Qed.

Lemma mapM_artboard_err fs l t e :
  mapM (λ p, let* a := get_image fs p in ret (p, take 2 (shape a))) l
  = (t, inl e) →
  ∃ p, e = DecodeError p ∧ p ∈ l ∧ image_open fs p = None.
Proof.
  revert t. induction l as [|p l IH]; intros t; [done|].
  cbn [mapM]. rewrite get_image_img. unfold img at 1.
  destruct (image_open fs p) as [im|] eqn:Hp; cbn [fmap option_fmap option_map].
  - rewrite !bind_ret_l. destruct (mapM _ l) as [t' [e'|abs]] eqn:Hl;
      cbn [bind ret]; intros [= <- <-].
    destruct (IH _ eq_refl) as (q & -> & Hq & Hnone).
    exists q. split; [done|]. split; [by right|done].
  - intros [= <- <-]. exists p. split; [done|]. split; [left|done].
Qed.

Lemma size_groups_err fs t e :
  size_groups fs = (t, inl e) →
  ∃ p, e = DecodeError p ∧ p ∈ exported_paths fs ∧ image_open fs p = None.
Proof.
  unfold size_groups, artboards.
  destruct (mapM _ (exported_paths fs)) as [t' [e'|abs]] eqn:Hm; cbn [bind].
  - intros [= <- <-]. by eapply mapM_artboard_err.
  - destruct (mapM_artboard_inv _ _ _ _ Hm) as [-> Hr].
    destruct (size_groups_loop_inv fs (exported_paths fs) abs [] []
                (Hr _ eq_refl)) as (d' & -> & _); [|done].
    split; [constructor|]. split; [done|constructor].
Qed.

Lemma sum_squares_le buckets :
  sum_squares buckets
  ≤ length (concat buckets.*2) * length (concat buckets.*2).
Proof.
  induction buckets as [|[k l] bs IH]; [done|].
  unfold sum_squares in *. rewrite fmap_cons, concat_cons, length_app.
  cbn [sum_list_with snd]. nia.
Qed.

(** The run of the engine as a whole: comparisons made, errors, and what
    holds of the groups it returns. *)
Lemma merge_artboard_group_outcome fs t r :
  merge_artboard_group fs = (t, r) →
  2 * length t + length (exported_paths fs)
  ≤ length (exported_paths fs) * length (exported_paths fs) ∧
  match r with
  | inr groups =>
      pairwise (same_size_reps_dissimilar fs) groups ∧
      ∃ buckets, size_groups fs = ([], inr buckets)
                 ∧ Forall (λ g, ∃ b, b ∈ buckets ∧ g `sublist_of` snd b) groups
  | inl e =>
      (t = [] ∧ ∃ p, e = DecodeError p ∧ p ∈ exported_paths fs
                     ∧ image_open fs p = None) ∨
      (e = TupleIndexError 2 ∧
       ∃ p q, last t = Some (Compared p q)
              ∧ dimensions fs p = dimensions fs q
              ∧ (single_band fs p ∨ single_band fs q))
  end.
Proof.
  unfold merge_artboard_group.
  destruct (size_groups fs) as [t0 r0] eqn:Hsz.
  destruct (size_groups_inv _ _ _ Hsz) as [-> Hb].
  destruct r0 as [e|buckets]; cbn [bind].
  - intros [= <- <-]. split; [simpl; nia|]. left. split; [done|].
    by eapply size_groups_err.
  - destruct (cluster_all fs buckets []) as [t' r'] eqn:Hc.
    intros [= <- <-]. pose proof (Hb _ eq_refl) as Hinv.
    destruct Hinv as (Hnd & Hperm & Hall).
    destruct (cluster_all_outcome fs buckets [] t' r' [] Hnd Hall)
      as [Ht Hr]; [done|constructor|done|].
    pose proof (sum_squares_le buckets) as Hsq.
    rewrite Hperm in Ht, Hsq. split; [lia|].
    destruct r' as [e|out].
    + right. destruct Hr as (-> & p & q & Hlast & (b & Hin & Hp & Hq) & Hband).
      split; [done|]. exists p, q. split; [done|]. split; [|done].
      by eapply (buckets_same_dimensions fs _ buckets b); eauto.
    + destruct Hr as (Hpw & new & [= ->] & Hnew). split; [done|].
      by exists buckets.
Qed.

(** X8. How a run of the engine can fail. Either a file does not
    decode, and the decode error is raised before any comparison; or the
    last comparison made was between two artboards of one size of which
    one is a single-band (grayscale) image, and the index error of the
    comparator is raised. No other error leaves the engine. *)
Theorem engine_errors fs t e :
  merge_artboard_group fs = (t, inl e) →
  (t = [] ∧ ∃ p, e = DecodeError p ∧ p ∈ exported_paths fs
                 ∧ image_open fs p = None) ∨
  (e = TupleIndexError 2 ∧
   ∃ p q, last t = Some (Compared p q)
          ∧ dimensions fs p = dimensions fs q
          ∧ (single_band fs p ∨ single_band fs q)).
Proof. intros Hm. apply (merge_artboard_group_outcome fs t _ Hm). Qed.

Lemma engine_errors_witness :
  (∃ p, p ∈ exported_paths broken_fs ∧ image_open broken_fs p = None) ∧
  (∃ p q, last (trace (merge_artboard_group gray_fs)) = Some (Compared p q)
          ∧ dimensions gray_fs p = dimensions gray_fs q
          ∧ (single_band gray_fs p ∨ single_band gray_fs q)).
Proof.
  split.
  - destruct (engine_errors broken_fs [] (DecodeError "output/doc1/notes.txt"))
      as [(_ & p & _ & Hp)|[H _]]; [reflexivity|by exists p|discriminate H].
  - destruct (engine_errors gray_fs
                [Compared "output/doc1/g2.png" "output/doc1/g1.png"]
                (TupleIndexError 2))
      as [(H & _)|(_ & H)]; [reflexivity|discriminate H|exact H].
Defined.

(** X9. The engine makes at most n(n-1)/2 comparisons on n exported
    artboards, whether it returns or raises. *)
Theorem comparisons_at_most_quadratic fs :
  2 * length (trace (merge_artboard_group fs))
  ≤ length (exported_paths fs) * (length (exported_paths fs) - 1).
Proof.
  destruct (merge_artboard_group fs) as [t r] eqn:Hm.
  destruct (merge_artboard_group_outcome fs t r Hm) as [Ht _]. simpl. nia.
Qed.

Lemma pairwise_lookup {A} (R : A → A → Prop) l i j x y :
  pairwise R l → i < j → l !! i = Some x → l !! j = Some y → R x y.
Proof.
  revert i j. induction l as [|z l IH]; intros i j; [done|].
  cbn [pairwise]. intros [Hz Hl] Hij Hi Hj.
  destruct j as [|j]; [lia|]. destruct i as [|i]; simplify_eq/=.
  - apply (proj1 (Forall_forall _ _) Hz). by eapply list_elem_of_lookup_2.
  - apply (IH i j); [done|lia|done..].
Qed.

(** X10. In the list the engine returns, the first members of two groups
    of artboards of one size compared false, the first member of the
    later group against the first member of the earlier one: every group
    was opened only after its first artboard had failed to match all
    groups open before. *)
Theorem first_members_of_same_size_groups_dissimilar fs t groups :
  merge_artboard_group fs = (t, inr groups) →
  ∀ i j g1 g2,
    i < j → groups !! i = Some g1 → groups !! j = Some g2 →
    dimensions fs (representative g1) = dimensions fs (representative g2) →
    similar fs (representative g2) (representative g1) = Some false.
Proof.
  intros Hm i j g1 g2 Hij Hi Hj Hdim.
  destruct (merge_artboard_group_outcome fs t _ Hm) as [_ [Hpw _]].
  by apply (pairwise_lookup _ groups i j g1 g2 Hpw Hij Hi Hj).
Qed.

Lemma first_members_of_same_size_groups_dissimilar_witness :
  similar sample_fs "output/doc2/e.png" "output/doc1/a.png" = Some false.
Proof.
  apply (first_members_of_same_size_groups_dissimilar sample_fs
           (trace (merge_artboard_group sample_fs)) sample_groups eq_refl 0 1
           ["output/doc1/a.png"; "output/doc1/b.png"; "output/doc1/c.png"]
           ["output/doc2/e.png"]); [lia|reflexivity..].
Defined.

Lemma not_single_band fs p im :
  image_open fs p = Some im → 2 ≤ bands im → ¬ single_band fs p.
Proof. intros Hp Hb (im' & Hp' & Hb'). simplify_eq. lia. Qed.

(** X11. The engine cannot return when two different exported artboards
    of one size include a single-band (grayscale) image: if it returns
    groups, every artboard that shares its size with another one has at
    least two bands. *)
Theorem returned_groups_exclude_same_size_grayscale fs t groups :
  NoDup (exported_paths fs) →
  merge_artboard_group fs = (t, inr groups) →
  ∀ p q, p ∈ exported_paths fs → q ∈ exported_paths fs → p ≠ q →
    dimensions fs p = dimensions fs q →
    ¬ single_band fs p.
Proof.
  intros Hnd Hm p q Hp Hq Hpq Hdim.
  destruct (merge_artboard_group_outcome fs t _ Hm) as [_ [Hpw _]].
  destruct (merge_artboard_group_inv _ _ _ Hm)
    as [(_ & e & _ & [=])|(buckets & _ & Hinv & _ & Hr)].
  destruct (Hr _ eq_refl) as (Hperm & Hok & Hsub & _).
  assert (Hdims : ∀ g x y, g ∈ groups → x ∈ g → y ∈ g →
            dimensions fs x = dimensions fs y).
  { intros g x y Hg Hx Hy.
    destruct (proj1 (Forall_forall _ _) Hsub _ Hg) as (b & Hb & Hgb).
    eapply buckets_same_dimensions; eauto. }
  rewrite <- Hperm in Hp, Hq.
  apply elem_of_concat in Hp as (g & Hg & Hpg).
  apply elem_of_concat in Hq as (g' & Hg' & Hqg').
  pose proof (proj1 (Forall_forall _ _) Hok _ Hg) as Hgok.
  destruct g as [|r ms]; [done|]. simpl in Hgok.
  apply elem_of_cons in Hpg as [->|Hpms].
  2:{ destruct (similar_Some_bands fs p r true) as (im & _ & Him & _ & Hb & _).
      { by apply (proj1 (Forall_forall _ _) Hgok). }
      by eapply not_single_band. }
  destruct ms as [|m ms].
  2:{ destruct (similar_Some_bands fs m r true) as (_ & im & _ & Him & _ & Hb).
      { apply (proj1 (Forall_forall _ _) Hgok). left. }
      by eapply not_single_band. }
  assert (Hne : g' ≠ [r]).
  { intros ->. apply list_elem_of_singleton in Hqg'. done. }
  pose proof (proj1 (Forall_forall _ _) Hok _ Hg') as Hg'ok.
  assert (Hrep' : representative g' ∈ g').
  { apply representative_elem. by eapply group_ok_nonempty. }
  assert (Hd : dimensions fs (representative [r])
               = dimensions fs (representative g')).
  { change (representative [r]) with r. rewrite Hdim. by apply (Hdims g'). }
  apply list_elem_of_lookup in Hg as [i Hi], Hg' as [j Hj].
  destruct (Nat.lt_total i j) as [Hij|[->|Hji]].
  - pose proof (pairwise_lookup _ groups i j _ _ Hpw Hij Hi Hj Hd) as Hs.
    destruct (similar_Some_bands _ _ _ _ Hs) as (_ & im & _ & Him & _ & Hb).
    by eapply not_single_band.
  - congruence.
  - pose proof (pairwise_lookup _ groups j i _ _ Hpw Hji Hj Hi (eq_sym Hd)) as Hs.
    destruct (similar_Some_bands _ _ _ _ Hs) as (im & _ & Him & _ & Hb & _).
    by eapply not_single_band.
Qed.

Lemma returned_groups_exclude_same_size_grayscale_witness :
  ¬ single_band sample_fs "output/doc2/e.png".
Proof.
  apply (returned_groups_exclude_same_size_grayscale sample_fs
           (trace (merge_artboard_group sample_fs)) sample_groups
           sample_paths_NoDup eq_refl
           "output/doc2/e.png" "output/doc1/a.png").
  - apply (bool_decide_unpack _). vm_compute. exact I.
  - apply (bool_decide_unpack _). vm_compute. exact I.
  - discriminate.
  - reflexivity.
Defined.

Lemma setdefault_append_sublist key p d seen :
  Forall (λ b, snd b `sublist_of` seen) d →
  Forall (λ b : (nat * nat) * list string, snd b `sublist_of` seen ++ [p])
    (setdefault_append key p d).
Proof.
  induction 1 as [|[k l] d Hl Hd IH]; cbn [setdefault_append].
  - apply Forall_singleton. simpl. apply sublist_inserts_l. reflexivity.
  - case_decide; apply Forall_cons; simpl in *.
    + split; [by apply sublist_app|].
      eapply Forall_impl; [exact Hd|]. intros. by apply sublist_inserts_r.
    + split; [by apply sublist_inserts_r|done].
Qed.

Lemma size_groups_loop_sublist fs paths abs d seen :
  Forall2 (artboard_of fs) paths abs →
  Forall (λ b, snd b `sublist_of` seen) d →
  ∃ d', size_groups_loop abs d = ([], inr d')
        ∧ Forall (λ b, snd b `sublist_of` seen ++ paths) d'.
Proof.
  intros Habs. revert d seen.
  induction Habs as [|p [p' key] paths abs [Hp (k & Hk & Hkey)] _ IH];
    intros d seen Hd.
  - exists d. by rewrite app_nil_r.
  - simpl in Hp, Hkey. subst p' key. cbn [size_groups_loop].
    destruct k as [h w]. simpl.
    destruct (IH _ _ (setdefault_append_sublist (h, w) p d seen Hd))
      as (d' & Hd' & Hsub).
    exists d'. split; [done|]. by rewrite <- (assoc_L (++)) in Hsub.
Qed.

Lemma size_groups_sublist fs t buckets :
  size_groups fs = (t, inr buckets) →
  Forall (λ b, snd b `sublist_of` exported_paths fs) buckets.
Proof.
  unfold size_groups, artboards.
  destruct (mapM _ (exported_paths fs)) as [t' [e|abs]] eqn:Hm; cbn [bind];
    [done|].
  destruct (mapM_artboard_inv _ _ _ _ Hm) as [-> Hr].
  destruct (size_groups_loop_sublist fs (exported_paths fs) abs [] []
              (Hr _ eq_refl)) as (d' & -> & Hsub); [constructor|].
  by intros [= <- <-].
Qed.

(** X12. Every returned group lists its members in the order in which
    the globs listed them: a group is a subsequence of the exported
    paths, and so is every size bucket. *)
Theorem groups_keep_glob_order fs t groups :
  merge_artboard_group fs = (t, inr groups) →
  Forall (λ g, g `sublist_of` exported_paths fs) groups ∧
  ∃ buckets, size_groups fs = ([], inr buckets)
             ∧ Forall (λ b, snd b `sublist_of` exported_paths fs) buckets.
Proof.
  intros Hm.
  destruct (merge_artboard_group_outcome fs t _ Hm)
    as [_ (_ & buckets & Hsz & Hsub)].
  pose proof (size_groups_sublist fs _ _ Hsz) as Hb.
  split; [|by exists buckets].
  eapply Forall_impl; [exact Hsub|]. intros g (b & Hin & Hg).
  etrans; [exact Hg|]. by apply (proj1 (Forall_forall _ _) Hb).
Qed.

Lemma groups_keep_glob_order_witness :
  Forall (λ g, g `sublist_of` exported_paths sample_fs) sample_groups.
Proof.
  apply (groups_keep_glob_order sample_fs
           (trace (merge_artboard_group sample_fs)) sample_groups).
  vm_compute. reflexivity.
Defined.

(** ** The export worker pool, lines 40-77 *)

Lemma omap_insert_Permutation {A B} (f : A → option B) l i w w' :
  l !! i = Some w →
  option_list (f w) ++ omap f (<[i := w']> l)
  ≡ₚ option_list (f w') ++ omap f l.
Proof.
  intros Hi. pose proof (lookup_lt_Some _ _ _ Hi) as Hlt.
  rewrite insert_take_drop by done.
  rewrite <- (take_drop_middle l i w Hi) at 3.
  rewrite !omap_app. cbn [omap list_omap].
  set (l1 := omap f (take i l)). set (l2 := omap f (drop (S i) l)).
  change (omap f (drop (S i) l)) with l2.
  destruct (f w) as [x|], (f w') as [y|]; cbn [option_list app];
    rewrite <- ?Permutation_middle; [apply perm_swap|done..].
Qed.

Lemma omap_insert_same {A B} (f : A → option B) l i w w' :
  l !! i = Some w → f w' = f w → omap f (<[i := w']> l) ≡ₚ omap f l.
Proof.
  intros Hi Hf. pose proof (omap_insert_Permutation f l i w w' Hi) as Hp.
  rewrite Hf in Hp. by apply (inj (app _)) in Hp.
Qed.

Lemma omap_insert_gain {A B} (f : A → option B) l i w w' y :
  l !! i = Some w → f w = None → f w' = Some y →
  omap f (<[i := w']> l) ≡ₚ y :: omap f l.
Proof.
  intros Hi Hw Hw'. pose proof (omap_insert_Permutation f l i w w' Hi) as Hp.
  by rewrite Hw, Hw' in Hp.
Qed.

Lemma omap_insert_lose {A B} (f : A → option B) l i w w' x :
  l !! i = Some w → f w = Some x → f w' = None →
  omap f l ≡ₚ x :: omap f (<[i := w']> l).
Proof.
  intros Hi Hw Hw'. pose proof (omap_insert_Permutation f l i w w' Hi) as Hp.
  by rewrite Hw, Hw' in Hp.
Qed.

Lemma elem_of_insert_inv {A} (l : list A) i x y :
  y ∈ <[i := x]> l → y = x ∨ y ∈ l.
Proof.
  revert i. induction l as [|z l IH]; intros [|i]; simpl; try by right.
  - intros [->|?]%elem_of_cons; [by left|right; by right].
  - intros [->|[->|?]%IH]%elem_of_cons; [right; left|by left|right; by right].
Qed.

Lemma error_queue_Permutation l1 l2 :
  l1 ≡ₚ l2 → error_queue l1 ≡ₚ error_queue l2.
Proof. intros Hp. unfold error_queue. by rewrite Hp. Qed.

Lemma error_queue_cons e l :
  error_queue (e :: l)
  = if decide (e = EmptyString) then error_queue l else e :: error_queue l.
Proof.
  unfold error_queue. rewrite filter_cons.
  destruct (decide (e = EmptyString)) as [->|Hne].
  - by rewrite decide_False by (by intros ?).
  - by rewrite decide_True.
Qed.

Lemma pool_inv_start export sketch_list :
  pool_inv export sketch_list (process_start sketch_list).
Proof.
  unfold pool_inv, process_start. cbn.
  split; [by rewrite app_nil_r|]. split; [lia|]. split; [done|].
  split; [done|]. split; [by repeat constructor|]. split; [constructor|].
  split; [|done]. intros Hin.
  repeat (apply elem_of_cons in Hin as [Hin|Hin]; [done|]).
  by apply elem_of_nil in Hin.
Qed.

Lemma held_job_length ws i p :
  ws !! i = Some (AtTaskDone p) → 0 < length (omap held_job ws).
Proof.
  intros Hi.
  pose proof (omap_insert_lose held_job ws i _ AtCheck p Hi eq_refl eq_refl) as Hp.
  apply Permutation_length in Hp. simpl in Hp. lia.
Qed.

Lemma error_queue_reported export l1 l2 F :
  l1 ≡ₚ l2 →
  error_queue (stderr_of export <$> l1 ++ F)
  ≡ₚ error_queue (stderr_of export <$> l2 ++ F).
Proof. intros Hp. apply error_queue_Permutation. by rewrite Hp. Qed.

(** Every step of a worker keeps the invariant of the pool. *)
Lemma worker_step_inv export sketch_list s i s' :
  pool_inv export sketch_list s →
  worker_step export s i = Some s' →
  pool_inv export sketch_list s'.
Proof.
  intros (Hjobs & Hun & Hexp & Herr & Hws & Hfin & Hret & Hlen).
  unfold worker_step. destruct (workers s !! i) as [w|] eqn:Hi; [|done].
  cbn [mbind option_bind].
  assert (Hw := proj1 (Forall_forall _ _) Hws _ (list_elem_of_lookup_2 _ _ _ Hi)).
  assert (Hret' : ∀ w', w' ≠ Returned →
            Returned ∈ <[i := w']> (workers s) → sketch_queue s = []).
  { intros w' Hne [?|?]%elem_of_insert_inv; [done|auto]. }
  destruct w as [| |p|p e|p| |p]; try done.
  - (* line 50 *)
    intros [= <-]. unfold pool_inv, set_worker.
    cbn [sketch_queue unfinished_tasks error_q workers exported finished].
    set (w' := if decide (sketch_queue s = []) then Returned else AtGet).
    assert (Hh : omap held_job (<[i := w']> (workers s))
                 ≡ₚ omap held_job (workers s))
      by (apply (omap_insert_same _ _ _ AtCheck); [done|by unfold w'; case_decide]).
    assert (He : omap exported_job (<[i := w']> (workers s))
                 ≡ₚ omap exported_job (workers s))
      by (apply (omap_insert_same _ _ _ AtCheck); [done|by unfold w'; case_decide]).
    assert (Hr : omap reported_job (<[i := w']> (workers s))
                 ≡ₚ omap reported_job (workers s))
      by (apply (omap_insert_same _ _ _ AtCheck); [done|by unfold w'; case_decide]).
    rewrite length_insert.
    split; [by rewrite Hh|]. split; [by rewrite Hh|]. split; [by rewrite He|].
    split; [rewrite Herr; by apply error_queue_reported|].
    split; [apply Forall_insert; [done|by unfold w'; case_decide]|].
    split; [done|]. split; [|done].
    unfold w'. case_decide; [done|]. by apply Hret'.
  - (* line 52 *)
    destruct (sketch_queue s) as [|p q] eqn:Hq; [done|].
    intros [= <-]. unfold pool_inv.
    cbn [sketch_queue unfinished_tasks error_q workers exported finished].
    pose proof (omap_insert_gain held_job _ _ AtGet (AtExport p) p Hi
                  eq_refl eq_refl) as Hh.
    pose proof (omap_insert_same exported_job _ _ AtGet (AtExport p) Hi
                  eq_refl) as He.
    pose proof (omap_insert_same reported_job _ _ AtGet (AtExport p) Hi
                  eq_refl) as Hr.
    rewrite length_insert.
    split; [rewrite Hjobs, Hh; cbn [app]; apply Permutation_middle|].
    split; [rewrite Hh; simpl in *; lia|]. split; [by rewrite He|].
    split; [rewrite Herr; by apply error_queue_reported|].
    split; [by apply Forall_insert|]. split; [done|]. split; [|done].
    intros Hin. by apply Hret' in Hin.
  - (* line 53 *)
    intros [= <-]. unfold pool_inv.
    cbn [sketch_queue unfinished_tasks error_q workers exported finished].
    set (w' := match export p with
               | Some stderr => AtReport p stderr
               | None => Died p
               end).
    assert (Hh : omap held_job (<[i := w']> (workers s))
                 ≡ₚ omap held_job (workers s))
      by (apply (omap_insert_same _ _ _ (AtExport p));
          [done|by unfold w'; destruct (export p)]).
    assert (He : omap exported_job (<[i := w']> (workers s))
                 ≡ₚ p :: omap exported_job (workers s))
      by (apply (omap_insert_gain _ _ _ (AtExport p));
          [done|done|by unfold w'; destruct (export p)]).
    assert (Hr : omap reported_job (<[i := w']> (workers s))
                 ≡ₚ omap reported_job (workers s))
      by (apply (omap_insert_same _ _ _ (AtExport p));
          [done|by unfold w'; destruct (export p)]).
    rewrite length_insert.
    split; [by rewrite Hh|]. split; [by rewrite Hh|].
    split; [by rewrite Hexp, He, <- Permutation_cons_append|].
    split; [rewrite Herr; by apply error_queue_reported|].
    split; [apply Forall_insert; [done|unfold w'; by destruct (export p) eqn:?]|].
    split; [done|]. split; [|done].
    apply Hret'. unfold w'. by destruct (export p).
  - (* lines 54-55 *)
    intros [= <-]. unfold pool_inv.
    cbn [sketch_queue unfinished_tasks error_q workers exported finished].
    pose proof (omap_insert_same held_job _ _ (AtReport p e) (AtTaskDone p) Hi
                  eq_refl) as Hh.
    pose proof (omap_insert_same exported_job _ _ (AtReport p e) (AtTaskDone p)
                  Hi eq_refl) as He.
    pose proof (omap_insert_gain reported_job _ _ (AtReport p e) (AtTaskDone p)
                  p Hi eq_refl eq_refl) as Hr.
    rewrite length_insert.
    split; [by rewrite Hh|]. split; [by rewrite Hh|]. split; [by rewrite He|].
    split.
    { rewrite (error_queue_reported export _ _ (finished s) Hr).
      cbn [app]. rewrite fmap_cons, error_queue_cons.
      assert (Hs : stderr_of export p = e) by (unfold stderr_of; by rewrite Hw).
      rewrite Hs.
      case_decide; [done|]. by rewrite <- Permutation_cons_append, Herr. }
    split; [by apply Forall_insert|]. split; [done|]. split; [|done].
    by apply Hret'.
  - (* line 57 *)
    pose proof (held_job_length _ _ _ Hi) as Hheld.
    destruct (unfinished_tasks s) as [|n] eqn:Hn; [lia|].
    intros [= <-]. unfold pool_inv.
    cbn [sketch_queue unfinished_tasks error_q workers exported finished].
    pose proof (omap_insert_lose held_job _ _ _ AtCheck p Hi eq_refl eq_refl) as Hh.
    pose proof (omap_insert_lose exported_job _ _ _ AtCheck p Hi eq_refl eq_refl) as He.
    pose proof (omap_insert_lose reported_job _ _ _ AtCheck p Hi eq_refl eq_refl) as Hr.
    rewrite length_insert.
    split.
    { rewrite Hjobs, Hh. rewrite (assoc_L (++) _ (finished s)).
      rewrite <- Permutation_cons_append. cbn [app].
      by rewrite <- Permutation_middle. }
    split.
    { apply Permutation_length in Hh. simpl in Hh. lia. }
    split.
    { rewrite Hexp, He. rewrite (assoc_L (++)).
      by rewrite <- Permutation_cons_append. }
    split.
    { rewrite Herr. apply error_queue_Permutation. f_equiv.
      rewrite Hr, (assoc_L (++)). by rewrite <- Permutation_cons_append. }
    split; [by apply Forall_insert|].
    split; [apply Forall_app; split; [done|by apply Forall_singleton]|].
    split; [|done]. by apply Hret'.
Qed.

Lemma run_pool_inv export sketch_list schedule s s' :
  pool_inv export sketch_list s →
  run_pool export schedule s = Some s' →
  pool_inv export sketch_list s'.
Proof.
  revert s. induction schedule as [|i rest IH]; intros s Hinv.
  - by intros [= <-].
  - cbn [run_pool]. destruct (worker_step export s i) as [s1|] eqn:Hstep;
      [|done]. cbn [mbind option_bind].
    apply IH. by eapply worker_step_inv.
Qed.

Lemma run_pool_start_inv export sketch_list schedule s :
  run_pool export schedule (process_start sketch_list) = Some s →
  pool_inv export sketch_list s.
Proof. apply run_pool_inv, pool_inv_start. Qed.

Lemma omap_held_nil ws :
  omap held_job ws = [] →
  omap exported_job ws = [] ∧ omap reported_job ws = []
  ∧ Forall (λ w, w = AtCheck ∨ w = AtGet ∨ w = Returned) ws.
Proof.
  induction ws as [|w ws IH]; [by repeat split|].
  destruct w; cbn; try done; intros (? & ? & ?)%IH; repeat split; auto.
Qed.

(** What the invariant gives once [join] has returned. *)
Lemma pool_inv_joined export sketch_list s :
  pool_inv export sketch_list s →
  unfinished_tasks s = 0 →
  sketch_queue s = [] ∧ exported s ≡ₚ sketch_list ∧ finished s ≡ₚ sketch_list
  ∧ error_q s ≡ₚ error_queue (stderr_of export <$> sketch_list)
  ∧ Forall (λ p, is_Some (export p)) sketch_list
  ∧ Forall (λ w, w = AtCheck ∨ w = AtGet ∨ w = Returned) (workers s).
Proof.
  intros (Hjobs & Hun & Hexp & Herr & Hws & Hfin & Hret & Hlen) H0.
  assert (Hq : sketch_queue s = []) by (apply length_zero_iff_nil; lia).
  assert (Hh : omap held_job (workers s) = [])
    by (apply length_zero_iff_nil; lia).
  destruct (omap_held_nil _ Hh) as (He & Hr & Hidle).
  rewrite Hq, Hh in Hjobs. rewrite He in Hexp. rewrite Hr in Herr.
  cbn [app] in *.
  split; [done|]. split; [by rewrite Hexp|]. split; [done|].
  split; [rewrite Herr; apply error_queue_Permutation; by rewrite Hjobs|].
  split; [by rewrite Hjobs|done].
Qed.

Lemma error_message_set_Permutation q1 q2 :
  q1 ≡ₚ q2 → error_message_set q1 = error_message_set q2.
Proof.
  intros Hp. apply set_eq. intros x. unfold error_message_set.
  rewrite !elem_of_add_stderrs. by setoid_rewrite Hp.
Qed.

(** X13. Whatever the interleaving of the eight workers of [process]
    (lines 48-57 and 60-70), once [sketch_queue.join()] returns the
    queue is empty, every document of the batch has been handed to the
    exporter and marked done as often as the batch lists it and no
    other has, every export has returned, and no worker is in the middle
    of a round. *)
Theorem join_returns_after_every_export export sketch_list schedule s :
  run_pool export schedule (process_start sketch_list) = Some s →
  join_returns s →
  sketch_queue s = [] ∧ exported s ≡ₚ sketch_list ∧ finished s ≡ₚ sketch_list
  ∧ Forall (λ p, is_Some (export p)) sketch_list
  ∧ Forall (λ w, w = AtCheck ∨ w = AtGet ∨ w = Returned) (workers s).
Proof.
  intros Hrun Hjoin.
  destruct (pool_inv_joined export sketch_list s) as (? & ? & ? & ? & ? & ?);
    [by eapply run_pool_start_inv|done|done].
Qed.

Lemma join_returns_after_every_export_witness :
  ∃ s, run_pool sample_export sample_schedule
         (process_start ["a.sketch"; "b.sketch"]) = Some s
       ∧ exported s ≡ₚ ["a.sketch"; "b.sketch"].
Proof.
  eexists. split; [vm_compute; reflexivity|].
  refine (proj1 (proj2 (join_returns_after_every_export sample_export
                          ["a.sketch"; "b.sketch"] sample_schedule _ _ _)));
    vm_compute; reflexivity.
Defined.

(** X14. The error queue that lines 71-75 drain holds, up to order, the
    non-empty stderrs of the exports of the batch, one per document, and
    the lines written to the error file (lines 76-77) are, each once and
    up to their order, those of [process] applied to the stderrs in
    batch order: the interleaving of the workers does not show in which
    lines the file holds. *)
Theorem error_file_independent_of_interleaving export sketch_list schedule s :
  run_pool export schedule (process_start sketch_list) = Some s →
  join_returns s →
  error_q s ≡ₚ error_queue (stderr_of export <$> sketch_list)
  ∧ NoDup (error_file_lines s)
  ∧ error_file_lines s ≡ₚ process (stderr_of export <$> sketch_list).
Proof.
  intros Hrun Hjoin.
  destruct (pool_inv_joined export sketch_list s) as (_ & _ & _ & Herr & _);
    [by eapply run_pool_start_inv|done|].
  split; [done|]. unfold error_file_lines, process.
  split; [apply NoDup_elements|].
  by rewrite (error_message_set_Permutation _ _ Herr).
Qed.

Lemma error_file_independent_of_interleaving_witness :
  ∃ s, run_pool sample_export sample_schedule
         (process_start ["a.sketch"; "b.sketch"]) = Some s
       ∧ error_file_lines s
         ≡ₚ process (stderr_of sample_export <$> ["a.sketch"; "b.sketch"]).
Proof.
  eexists. split; [vm_compute; reflexivity|].
  refine (proj2 (proj2 (error_file_independent_of_interleaving sample_export
                          ["a.sketch"; "b.sketch"] sample_schedule _ _ _)));
    vm_compute; reflexivity.
Defined.

(** X15. When the export of one document of the batch raises (line 53),
    the worker leaves [run] without reaching [task_done], and
    [sketch_queue.join()] of line 70 returns in no state the pool can
    reach: lines 71-77 are never run. *)
Theorem raising_export_blocks_join export sketch_list schedule s p :
  run_pool export schedule (process_start sketch_list) = Some s →
  p ∈ sketch_list → export p = None →
  ¬ join_returns s.
Proof.
  intros Hrun Hp Hnone Hjoin.
  destruct (pool_inv_joined export sketch_list s) as (_ & _ & _ & _ & Hall & _);
    [by eapply run_pool_start_inv|done|].
  apply (proj1 (Forall_forall _ _) Hall) in Hp. rewrite Hnone in Hp.
  by destruct Hp.
Qed.

Lemma raising_export_blocks_join_witness :
  ∃ s, run_pool raising_export [0; 1; 0; 1; 0; 1; 0; 0; 0]
         (process_start ["a.sketch"; "b.sketch"]) = Some s
       ∧ ¬ join_returns s.
Proof.
  eexists. split; [vm_compute; reflexivity|].
  apply (raising_export_blocks_join raising_export ["a.sketch"; "b.sketch"]
           [0; 1; 0; 1; 0; 1; 0; 0; 0] _ "b.sketch").
  - vm_compute; reflexivity.
  - apply (bool_decide_unpack _); vm_compute; exact I.
  - vm_compute; reflexivity.
Defined.

Lemma pc_weight_insert ws i w w' :
  ws !! i = Some w →
  sum_list (pc_weight <$> <[i := w']> ws) + pc_weight w
  = sum_list (pc_weight <$> ws) + pc_weight w'.
Proof.
  revert i. induction ws as [|v ws IH]; intros [|i]; try done.
  - intros [= ->]. simpl. lia.
  - intros Hi. specialize (IH _ Hi). simpl. unfold fmap in IH. lia.
Qed.

(** Every step of a worker uses up a part of the measure. *)
Lemma worker_step_measure export s i s' :
  worker_step export s i = Some s' → pool_measure s' < pool_measure s.
Proof.
  unfold worker_step. destruct (workers s !! i) as [w|] eqn:Hi; [|done].
  cbn [mbind option_bind]. unfold pool_measure.
  destruct w as [| |p|p e|p| |p]; try done.
  - intros [= <-]. cbn [set_worker sketch_queue workers].
    pose proof (pc_weight_insert _ _ _
      (if decide (sketch_queue s = []) then Returned else AtGet) Hi) as Hw.
    case_decide; cbn in Hw; lia.
  - destruct (sketch_queue s) as [|p q] eqn:Hq; [done|].
    intros [= <-]. cbn [sketch_queue workers].
    pose proof (pc_weight_insert _ _ _ (AtExport p) Hi) as Hw.
    cbn in Hw. cbn [length]. lia.
  - intros [= <-]. cbn [sketch_queue workers].
    pose proof (pc_weight_insert _ _ _
      (match export p with Some e => AtReport p e | None => Died p end) Hi)
      as Hw.
    destruct (export p); cbn in Hw; lia.
  - intros [= <-]. cbn [sketch_queue workers].
    pose proof (pc_weight_insert _ _ _ (AtTaskDone p) Hi) as Hw.
    cbn in Hw. lia.
  - destruct (unfinished_tasks s); intros [= <-];
      cbn [set_worker sketch_queue workers].
    + pose proof (pc_weight_insert _ _ _ (Died p) Hi) as Hw. cbn in Hw. lia.
    + pose proof (pc_weight_insert _ _ _ AtCheck Hi) as Hw. cbn in Hw. lia.
Qed.

Lemma run_pool_measure export schedule s s' :
  run_pool export schedule s = Some s' →
  length schedule + pool_measure s' ≤ pool_measure s.
Proof.
  revert s. induction schedule as [|i rest IH]; intros s.
  - intros [= <-]. cbn. lia.
  - cbn [run_pool]. destruct (worker_step export s i) as [s1|] eqn:Hstep;
      [|done]. cbn [mbind option_bind]. intros Hrun%IH.
    apply worker_step_measure in Hstep. cbn [length]. lia.
Qed.

(** X16. The workers of [process] take a bounded number of steps, in any
    interleaving and whatever the exporter does: at most five per
    document of the batch (lines 52 to 57 and the test of line 50) and
    two more per worker. No worker loops for ever in [run]. *)
Theorem pool_steps_bounded export sketch_list schedule s :
  run_pool export schedule (process_start sketch_list) = Some s →
  length schedule ≤ 16 + 5 * length sketch_list.
Proof.
  intros Hrun%run_pool_measure.
  change (pool_measure (process_start sketch_list))
    with (16 + 5 * length sketch_list) in Hrun. lia.
Qed.

Lemma pool_steps_bounded_witness :
  length sample_schedule ≤ 16 + 5 * length ["a.sketch"; "b.sketch"].
Proof.
  refine (pool_steps_bounded sample_export ["a.sketch"; "b.sketch"]
            sample_schedule _ _).
  vm_compute; reflexivity.
Defined.

Lemma omap_nil_lookup {A B} (f : A → option B) l i x :
  omap f l = [] → l !! i = Some x → f x = None.
Proof.
  intros Hnil Hi. destruct (f x) as [y|] eqn:Hf; [|done].
  assert (y ∈ omap f l) as Hin
    by (apply list_elem_of_omap; eauto using list_elem_of_lookup_2).
  rewrite Hnil in Hin. by apply elem_of_nil in Hin.
Qed.

(** While [join] has not returned and every export returns, some worker
    can take a step. *)
Lemma pool_progress export sketch_list s :
  pool_inv export sketch_list s →
  Forall (λ p, is_Some (export p)) sketch_list →
  unfinished_tasks s ≠ 0 →
  ∃ i s', worker_step export s i = Some s'.
Proof.
  intros (Hjobs & Hun & Hexp & Herr & Hws & Hfin & Hret & Hlen) Hall Hne.
  destruct (omap held_job (workers s)) as [|p held] eqn:Hheld.
  - destruct (sketch_queue s) as [|p q] eqn:Hq; [cbn in Hun; lia|].
    destruct (workers s) as [|w ws] eqn:Hwork; [done|].
    exists 0. unfold worker_step. rewrite Hwork. cbn.
    pose proof (omap_nil_lookup held_job (w :: ws) 0 w Hheld eq_refl) as Hw.
    destruct w; try done.
    + rewrite Hq. eauto.
    + rewrite Hq. eauto.
    + exfalso. discriminate Hret. left.
  - assert (p ∈ omap held_job (workers s)) as Hin by (rewrite Hheld; left).
    apply list_elem_of_omap in Hin as (w & Hw & Hp).
    apply list_elem_of_lookup_1 in Hw as [i Hi].
    exists i. unfold worker_step. rewrite Hi. cbn.
    destruct w; try done; eauto.
    + destruct (unfinished_tasks s); eauto.
    + injection Hp as ->.
      assert (Hd := proj1 (Forall_forall _ _) Hws _
                      (list_elem_of_lookup_2 _ _ _ Hi)). cbn in Hd.
      assert (p ∈ sketch_list) as Hin.
      { rewrite Hjobs. apply elem_of_app. right. left. }
      apply (proj1 (Forall_forall _ _) Hall) in Hin. rewrite Hd in Hin.
      by destruct Hin.
Qed.

Lemma pool_join_reachable export sketch_list n s :
  pool_measure s ≤ n →
  pool_inv export sketch_list s →
  Forall (λ p, is_Some (export p)) sketch_list →
  ∃ rest s', run_pool export rest s = Some s' ∧ unfinished_tasks s' = 0.
Proof.
  revert s. induction n as [|n IH]; intros s Hm Hinv Hall.
  - destruct (decide (unfinished_tasks s = 0)) as [H0|Hne];
      [by exists [], s|].
    destruct (pool_progress _ _ _ Hinv Hall Hne) as (i & s1 & Hstep).
    apply worker_step_measure in Hstep. lia.
  - destruct (decide (unfinished_tasks s = 0)) as [H0|Hne];
      [by exists [], s|].
    destruct (pool_progress _ _ _ Hinv Hall Hne) as (i & s1 & Hstep).
    destruct (IH s1) as (rest & s' & Hrun & H0).
    + apply worker_step_measure in Hstep. lia.
    + by eapply worker_step_inv.
    + done.
    + exists (i :: rest), s'. cbn [run_pool]. rewrite Hstep. by cbn.
Qed.

(** X17. When every export of the batch returns, [sketch_queue.join()]
    returns in every interleaving: a state in which no worker can move
    (each has returned or waits in [get]) is one in which [join] has
    returned, and from every reachable state the workers can go on to
    such a state. *)
Theorem join_returns_when_exports_return export sketch_list schedule s :
  run_pool export schedule (process_start sketch_list) = Some s →
  Forall (λ p, is_Some (export p)) sketch_list →
  ((∀ i, worker_step export s i = None) → join_returns s)
  ∧ ∃ rest s', run_pool export rest s = Some s' ∧ join_returns s'.
Proof.
  intros Hinv%run_pool_start_inv Hall. split.
  - intros Hstuck. unfold join_returns.
    destruct (decide (unfinished_tasks s = 0)) as [H0|Hne]; [done|].
    destruct (pool_progress _ _ _ Hinv Hall Hne) as (i & s1 & Hstep).
    by rewrite Hstuck in Hstep.
  - by eapply pool_join_reachable.
Qed.

Lemma join_returns_when_exports_return_witness :
  ∃ rest s', run_pool sample_export rest
               (process_start ["a.sketch"; "b.sketch"]) = Some s'
             ∧ join_returns s'.
Proof.
  refine (proj2 (join_returns_when_exports_return sample_export
                   ["a.sketch"; "b.sketch"] [] _ eq_refl _)).
  repeat constructor; vm_compute; eauto.
Defined.

Lemma run_pool_app export l1 l2 s :
  run_pool export (l1 ++ l2) s
  = s' ← run_pool export l1 s; run_pool export l2 s'.
Proof.
  revert s. induction l1 as [|i l1 IH]; intros s; [done|].
  cbn [app run_pool]. destruct (worker_step export s i); [|done].
  cbn [mbind option_bind]. apply IH.
Qed.

(** Worker 0 empties the queue on its own while worker 1 waits before
    its [get]. *)
Lemma one_worker_drains export q :
  Forall (λ p, is_Some (export p)) q →
  ∀ s, sketch_queue s = q → unfinished_tasks s = length q →
    workers s !! 0 = Some (if decide (q = []) then Returned else AtGet) →
    workers s !! 1 = Some AtGet →
    ∃ s', run_pool export (concat (replicate (length q) [0; 0; 0; 0; 0])) s
          = Some s'
          ∧ sketch_queue s' = [] ∧ unfinished_tasks s' = 0
          ∧ workers s' !! 1 = Some AtGet.
Proof.
  induction 1 as [|p q [e He] Hall IH]; intros s Hq Hun H0 H1.
  - exists s. by repeat split.
  - destruct s as [sq un eq ws ex fin]. cbn in Hq, Hun, H0, H1. subst sq un.
    destruct ws as [|w0 [|w1 ws]]; try done.
    injection H0 as ->. injection H1 as ->.
    cbn [length replicate concat]. rewrite run_pool_app.
    cbn. rewrite He. cbn.
    destruct (IH (Pool q (length q)
                    (if decide (e = EmptyString) then eq else eq ++ [e])
                    ((if decide (q = []) then Returned else AtGet)
                       :: AtGet :: ws) (ex ++ [p]) (fin ++ [p])))
      as (s' & Hrun & ?); [done..|].
    exists s'. split; [|done]. rewrite <- Hrun. by destruct q.
Qed.

(** A worker that waits in [get] on an empty queue waits there in every
    later state. *)
Lemma blocked_in_get_step export s i j s' :
  sketch_queue s = [] → workers s !! i = Some AtGet →
  worker_step export s j = Some s' →
  sketch_queue s' = [] ∧ workers s' !! i = Some AtGet.
Proof.
  intros Hq Hi. unfold worker_step.
  destruct (workers s !! j) as [w|] eqn:Hj; [|done]. cbn [mbind option_bind].
  assert (i ≠ j → ∀ w', <[j := w']> (workers s) !! i = Some AtGet) as Hne
    by (intros ? w'; by rewrite list_lookup_insert_ne).
  assert (w ≠ AtGet → i ≠ j) as Hij by (intros ? ->; congruence).
  destruct w as [| |p|p e|p| |p]; try done.
  - intros [= <-]. cbn. split; [done|]. by apply Hne, Hij.
  - by rewrite Hq.
  - intros [= <-]. cbn. split; [done|]. by apply Hne, Hij.
  - intros [= <-]. cbn. split; [done|]. by apply Hne, Hij.
  - destruct (unfinished_tasks s); intros [= <-]; cbn;
      (split; [done|]); by apply Hne, Hij.
Qed.

Lemma blocked_in_get_run export rest s i s' :
  sketch_queue s = [] → workers s !! i = Some AtGet →
  run_pool export rest s = Some s' →
  sketch_queue s' = [] ∧ workers s' !! i = Some AtGet.
Proof.
  revert s. induction rest as [|j rest IH]; intros s Hq Hi.
  - by intros [= <-].
  - cbn [run_pool]. destruct (worker_step export s j) as [s1|] eqn:Hstep;
      [|done]. cbn [mbind option_bind].
    destruct (blocked_in_get_step _ _ _ _ _ Hq Hi Hstep). by apply IH.
Qed.

(** X18. The test of line 50 and the [get] of line 52 are two steps:
    for every non-empty batch whose exports return there is an
    interleaving in which worker 1 passes the test, worker 0 then takes
    every document, [join] returns, and worker 1 waits in [get] in that
    state and in every later one. *)
Theorem worker_can_wait_in_get_for_ever export sketch_list :
  sketch_list ≠ [] →
  Forall (λ p, is_Some (export p)) sketch_list →
  ∃ s, run_pool export (one_worker_schedule (length sketch_list))
         (process_start sketch_list) = Some s
       ∧ join_returns s
       ∧ ∀ rest s', run_pool export rest s = Some s' →
                    workers s' !! 1 = Some AtGet
                    ∧ worker_step export s' 1 = None.
Proof.
  intros Hne Hall. unfold one_worker_schedule. 
  destruct (one_worker_drains export sketch_list Hall
              (Pool sketch_list (length sketch_list) []
                    (AtGet :: AtGet :: replicate 6 AtCheck) [] []))
    as (s & Hrun & Hq & H0 & H1); [done|done|by rewrite decide_False|done|].
  exists s. split; [|split; [done|]].
  - rewrite run_pool_app. destruct sketch_list; [done|]. exact Hrun.
  - intros rest s' Hrest.
    destruct (blocked_in_get_run _ _ _ _ _ Hq H1 Hrest) as [Hq' H1'].
    split; [done|]. unfold worker_step. rewrite H1'. cbn. by rewrite Hq'.
Qed.

Lemma worker_can_wait_in_get_for_ever_witness :
  ∃ s, run_pool sample_export (one_worker_schedule 2)
         (process_start ["a.sketch"; "b.sketch"]) = Some s
       ∧ join_returns s
       ∧ ∀ rest s', run_pool sample_export rest s = Some s' →
                    workers s' !! 1 = Some AtGet
                    ∧ worker_step sample_export s' 1 = None.
Proof.
  apply (worker_can_wait_in_get_for_ever sample_export
           ["a.sketch"; "b.sketch"]); [done|].
  repeat constructor; vm_compute; eauto.
Defined.

(** ** From the stderrs to the missing fonts *)

Lemma readlines_writelines lines :
  Forall written_line lines → readlines (writelines lines) = lines.
Proof.
  induction 1 as [|l lines (body & -> & Hnl & Hcr) _ IH]; [done|].
  change (writelines ((body +:+ String newline EmptyString) :: lines))
    with ((body +:+ String newline EmptyString) +:+ writelines lines).
  rewrite string_app_assoc. change (String newline EmptyString +:+ writelines lines)
    with (String newline (writelines lines)).
  by rewrite readlines_line, IH.
Qed.

Lemma lstrip_sub c s :
  c ∈ list_ascii_of_string (lstrip s) → c ∈ list_ascii_of_string s.
Proof.
  induction s as [|x s IH]; [done|]. cbn.
  destruct (is_whitespace x); [|done]. intros ?%IH. by right.
Qed.

Lemma rstrip_sub c s :
  c ∈ list_ascii_of_string (rstrip s) → c ∈ list_ascii_of_string s.
Proof.
  induction s as [|x s IH]; [done|]. cbn [rstrip].
  destruct (rstrip s) as [|y r] eqn:Hr.
  - destruct (is_whitespace x); cbn; [by intros ?%elem_of_nil|].
    intros [->|?%elem_of_nil]%elem_of_cons; [left|done].
  - cbn. intros [->|?]%elem_of_cons; [left|right; by apply IH].
Qed.

Lemma split_on_sub sep s piece c :
  piece ∈ split_on sep s → c ∈ list_ascii_of_string piece →
  c ∈ list_ascii_of_string s.
Proof.
  revert piece. induction s as [|x s IH]; intros piece; cbn [split_on].
  - by intros ->%list_elem_of_singleton.
  - case_decide as Hx.
    + intros [->|Hin]%elem_of_cons; [by intros ?%elem_of_nil|].
      intros ?. cbn. right. by eapply IH.
    + destruct (split_on sep s) as [|l ls] eqn:Hs.
      * intros ->%list_elem_of_singleton. cbn.
        intros [->|?%elem_of_nil]%elem_of_cons; [left|done].
      * intros [->|Hin]%elem_of_cons; cbn.
        -- intros [->|?]%elem_of_cons; [left|right].
           apply (IH l); [left|done].
        -- intros ?. right. apply (IH piece); [by right|done].
Qed.

Lemma process_written_lines stderrs :
  Forall cr_free stderrs → Forall written_line (process stderrs).
Proof.
  intros Hcr. apply Forall_forall.
  intros x (s & line & Hs & _ & Hline & ->)%elem_of_process.
  exists line. split; [done|]. split; [by eapply split_on_no_sep|].
  intros Hin. apply (proj1 (Forall_forall _ _) Hcr s Hs).
  by eapply lstrip_sub, rstrip_sub, split_on_sub.
Qed.

Lemma drop_literal_length w s s1 :
  drop_literal w s = Some s1 → s = w ++ s1.
Proof.
  revert s. induction w as [|c w IH]; intros s; cbn.
  - by intros [= ->].
  - destruct s as [|c' s]; [done|]. case_decide; [|done]. subst c'.
    intros ->%IH. done.
Qed.

Lemma quoted_name_at_newline l :
  newline ∉ l → quoted_name_at (l ++ [newline]) = quoted_name_at l.
Proof.
  intros Hnl.
  destruct (quoted_name_at l) as [f|] eqn:Hl.
  - apply quoted_name_at_inv in Hl as (rest & -> & Hne & Hf).
    rewrite <- !(assoc_L (++)). by apply quoted_name_at_intro.
  - destruct (quoted_name_at (l ++ [newline])) as [f|] eqn:Hl'; [|done].
    apply quoted_name_at_inv in Hl' as (rest & Heq & Hne & Hf).
    destruct (decide (rest = [])) as [->|Hrest].
    + rewrite !(assoc_L (++)), app_nil_r in Heq.
      by apply app_inj_tail in Heq as [_ ?].
    + destruct (exists_last Hrest) as (rest' & c & ->).
      rewrite !(assoc_L (++)) in Heq. apply app_inj_tail in Heq as [-> _].
      rewrite <- !(assoc_L (++)) in Hl.
      by rewrite quoted_name_at_intro in Hl.
Qed.

Lemma last_quoted_name_newline l :
  newline ∉ l → last_quoted_name (l ++ [newline]) = last_quoted_name l.
Proof.
  induction l as [|c l IH]; intros Hnl.
  - cbn. by rewrite decide_True.
  - apply not_elem_of_cons in Hnl as [Hc Hnl].
    cbn [app last_quoted_name]. rewrite !decide_False by congruence.
    by rewrite IH, quoted_name_at_newline.
Qed.

Lemma font_of_line_newline line :
  newline ∉ list_ascii_of_string line →
  font_of_line (line +:+ String newline EmptyString) = font_of_line line.
Proof.
  intros Hnl. rewrite !font_of_line_last_quoted_name.
  rewrite list_ascii_of_string_app. cbn [list_ascii_of_string].
  by rewrite last_quoted_name_newline.
Qed.

(** X19. What [get_missing_font] reads back from the file that
    [process] writes. When no stderr of the batch holds a carriage
    return, the file is read back line for line as it was written, and
    the fonts returned are exactly those named in a line of a stripped
    stderr of the batch, sorted and without duplicates. *)
Theorem missing_fonts_of_written_error_file stderrs :
  Forall cr_free stderrs →
  readlines (writelines (process stderrs)) = process stderrs
  ∧ StronglySorted String.le (get_missing_font (writelines (process stderrs)))
  ∧ ∀ font,
      font ∈ get_missing_font (writelines (process stderrs))
      ↔ ∃ s line, s ∈ stderrs ∧ line ∈ split_on newline (strip s)
                  ∧ font_of_line line = Some font.
Proof.
  intros Hcr.
  assert (Hread := readlines_writelines _ (process_written_lines _ Hcr)).
  split; [done|].
  destruct (get_missing_font_sorted (writelines (process stderrs)))
    as (Hsorted & _ & Hmem).
  split; [done|]. intros font. rewrite Hmem, Hread. split.
  - intros (x & (s & line & Hs & _ & Hline & ->)%elem_of_process & Hfont).
    exists s, line. split; [done|]. split; [done|].
    rewrite font_of_line_newline in Hfont; [done|].
    by eapply split_on_no_sep.
  - intros (s & line & Hs & Hline & Hfont).
    exists (line +:+ String newline EmptyString). split.
    + apply elem_of_process. exists s, line. repeat split; try done.
      intros ->. cbn in Hline. apply list_elem_of_singleton in Hline as ->.
      by vm_compute in Hfont.
    + rewrite font_of_line_newline; [done|]. by eapply split_on_no_sep.
Qed.

Lemma missing_fonts_of_written_error_file_witness :
  get_missing_font (writelines (process sample_stderrs))
  = ["Arial"; "Helvetica Neue"].
Proof.
  destruct (missing_fonts_of_written_error_file sample_stderrs) as (_ & _ & _).
  - repeat constructor; apply (bool_decide_unpack _); vm_compute; exact I.
  - vm_compute; reflexivity.
Defined.

(** ** Flattening a layer tree *)

Lemma all_layers_reset h g :
  all_layers h ≡ₚ layers_of h g ++ all_layers (<[g := []]> h).
Proof.
  unfold all_layers, layers_of. destruct (h !! g) as [l|] eqn:Hg; cbn [default].
  - rewrite <- (insert_delete_eq h).
    rewrite map_to_list_insert by apply lookup_delete_eq.
    rewrite <- (map_to_list_delete h g l Hg). by rewrite !bind_cons.
  - rewrite map_to_list_insert by done. by rewrite bind_cons.
Qed.

Section FlattenProofs.
Context (test : layer → option bool).

Lemma flatten_loop_ends flatten fuel :
  (∀ h g, length (all_layers h) < fuel →
     ∃ h' r, flatten h g = Some (h', r)
             ∧ length (all_layers h') ≤ length (all_layers h)) →
  ∀ rest h acc,
    (rest ≠ [] → length (all_layers h) < fuel) →
    ∃ h' r, flatten_loop test flatten rest h acc = Some (h', r)
            ∧ length (all_layers h') ≤ length (all_layers h).
Proof.
  intros Hrec. induction rest as [|l rest IH]; intros h acc Hlt.
  - by exists h, (inr acc).
  - cbn [flatten_loop]. specialize (Hlt ltac:(done)).
    destruct (test l) as [[|]|].
    + destruct (Hrec h l Hlt) as (h1 & [e|sub] & -> & Hle).
      * by exists h1, (inl e).
      * destruct (IH h1 (acc ++ sub)) as (h' & r & -> & Hle'); [lia|].
        exists h', r. split; [done|lia].
    + apply IH. by intros _.
    + by exists h, (inl TypeError).
Qed.

Lemma flatten_sketch_group_total fuel :
  ∀ h g, length (all_layers h) < fuel →
    ∃ h' r, flatten_sketch_group test fuel h g = Some (h', r)
            ∧ length (all_layers h') ≤ length (all_layers h).
Proof.
  induction fuel as [|fuel IH]; intros h g Hlt; [lia|].
  cbn [flatten_sketch_group].
  pose proof (all_layers_reset h g) as Hp. apply Permutation_length in Hp.
  rewrite length_app in Hp.
  destruct (flatten_loop_ends _ fuel IH (layers_of h g) (<[g := []]> h) [g])
    as (h' & r & -> & Hle).
  - intros Hne. destruct (layers_of h g); [done|]. cbn in Hp. lia.
  - exists h', r. split; [done|lia].
Qed.

Lemma only_emptied_refl h : only_emptied h h.
Proof. intros r. by left. Qed.

Lemma only_emptied_trans h1 h2 h3 :
  only_emptied h1 h2 → only_emptied h2 h3 → only_emptied h1 h3.
Proof.
  intros H12 H23 r. destruct (H23 r) as [->|?]; [apply H12|by right].
Qed.

Lemma flatten_loop_effect flatten :
  (∀ h g h' r, flatten h g = Some (h', r) → only_emptied h h') →
  ∀ rest h acc h' r,
    flatten_loop test flatten rest h acc = Some (h', r) → only_emptied h h'.
Proof.
  intros Hrec. induction rest as [|l rest IH]; intros h acc h' r.
  - intros [= <- _]. apply only_emptied_refl.
  - cbn [flatten_loop]. destruct (test l) as [[|]|].
    + destruct (flatten h l) as [[h1 [e|sub]]|] eqn:Hl; [| |done].
      * intros [= <- _]. by eapply Hrec.
      * intros Hloop%IH. eapply only_emptied_trans; [|done]. by eapply Hrec.
    + apply IH.
    + intros [= <- _]. apply only_emptied_refl.
Qed.

Lemma flatten_sketch_group_effect fuel :
  ∀ h g h' r, flatten_sketch_group test fuel h g = Some (h', r) →
    h' !! g = Some [] ∧ only_emptied h h'.
Proof.
  induction fuel as [|fuel IH]; intros h g h' r; [done|].
  cbn [flatten_sketch_group]. intros Hloop.
  apply (flatten_loop_effect _ (λ h g h' r H, proj2 (IH h g h' r H)))
    in Hloop.
  split.
  - destruct (Hloop g) as [->|?]; [apply lookup_insert_eq|done].
  - intros r'. destruct (decide (r' = g)) as [->|Hne].
    + right. destruct (Hloop g) as [->|?]; [apply lookup_insert_eq|done].
    + destruct (Hloop r') as [->|?]; [left; by apply lookup_insert_ne|by right].
Qed.

(** The layers a call hands out and the layers it leaves in the store. *)
Lemma flatten_loop_accounting flatten :
  (∀ h g h' r, flatten h g = Some (h', r) →
     all_layers h' ⊆+ all_layers h
     ∧ ∀ ls, r = inr ls → ls ++ all_layers h' ≡ₚ g :: all_layers h) →
  ∀ rest h acc h' r,
    flatten_loop test flatten rest h acc = Some (h', r) →
    all_layers h' ⊆+ all_layers h
    ∧ (∀ out, r = inr out → out ++ all_layers h' ≡ₚ acc ++ rest ++ all_layers h)
    ∧ (∀ e, r = inl e → rest ≠ []).
Proof.
  intros Hrec. induction rest as [|l rest IH]; intros h acc h' r.
  - intros [= <- <-]. split; [done|]. split; [by intros out [= <-]|done].
  - cbn [flatten_loop]. destruct (test l) as [[|]|].
    + destruct (flatten h l) as [[h1 [e|sub]]|] eqn:Hl; [| |done].
      * intros [= <- <-]. destruct (Hrec _ _ _ _ Hl) as [Hsub _].
        split; [done|]. split; [done|]. by intros _ _.
      * intros (Hsub' & Hout & _)%IH.
        destruct (Hrec _ _ _ _ Hl) as [Hsub Hsubl].
        split; [by etrans|]. split; [|by intros _ _].
        intros out ->. rewrite (Hout out eq_refl), <- (assoc_L (++)).
        f_equiv. cbn [app].
        rewrite (assoc_L (++) sub), (comm (++) sub rest),
          <- (assoc_L (++) rest).
        by rewrite (Hsubl sub eq_refl), <- Permutation_middle.
    + intros (Hsub & Hout & _)%IH. split; [done|]. split; [|by intros _ _].
      intros out ->. rewrite (Hout out eq_refl). by rewrite <- (assoc_L (++)).
    + intros [= <- <-]. split; [done|]. split; [done|]. by intros _ _.
Qed.

Lemma flatten_sketch_group_accounts fuel :
  ∀ h g h' r, flatten_sketch_group test fuel h g = Some (h', r) →
    all_layers h' ⊆+ all_layers h
    ∧ (∀ ls, r = inr ls → ls ++ all_layers h' ≡ₚ g :: all_layers h)
    ∧ (∀ e, r = inl e → length (all_layers h') < length (all_layers h)).
Proof.
  induction fuel as [|fuel IH]; intros h g h' r; [done|].
  cbn [flatten_sketch_group]. intros Hloop.
  apply (flatten_loop_accounting _
           (λ h g h' r H, conj (proj1 (IH h g h' r H))
                               (proj1 (proj2 (IH h g h' r H))))) in Hloop
    as (Hsub & Hout & Hraise).
  pose proof (all_layers_reset h g) as Hp.
  assert (all_layers (<[g := []]> h) ⊆+ all_layers h) as Hsub1
    by (rewrite Hp; by apply submseteq_inserts_l).
  split; [by etrans|]. split.
  - intros ls ->. rewrite (Hout ls eq_refl). cbn [app]. by rewrite <- Hp.
  - intros e ->. specialize (Hraise e eq_refl).
    apply submseteq_length in Hsub. apply Permutation_length in Hp.
    rewrite length_app in Hp. destruct (layers_of h g); [done|].
    cbn [length] in Hp. lia.
Qed.

End FlattenProofs.

(** X20. What [flatten_sketch_group] does when the class test of
    line 17 raises, as it does with a second argument that holds
    something that is not a class. On a group without layers the call
    returns the group alone. On a group with layers it raises
    [TypeError] at the first layer, after line 14 has emptied the group:
    the layers of the group are gone from the group and are not handed
    out; no other group is touched. *)
Theorem flatten_sketch_group_raises_on_layers test fuel h sketch_group :
  (layers_of h sketch_group = [] →
   flatten_sketch_group test (S fuel) h sketch_group
   = Some (<[sketch_group := []]> h, inr [sketch_group]))
  ∧ (∀ first rest,
       layers_of h sketch_group = first :: rest → test first = None →
       flatten_sketch_group test (S fuel) h sketch_group
       = Some (<[sketch_group := []]> h, inl TypeError)).
Proof.
  split.
  - intros Hl. cbn [flatten_sketch_group]. by rewrite Hl.
  - intros first rest Hl Hfirst. cbn [flatten_sketch_group].
    rewrite Hl. cbn [flatten_loop]. by rewrite Hfirst.
Qed.

Lemma flatten_sketch_group_raises_on_layers_witness :
  flatten_sketch_group raising_test 1 sample_store 0
  = Some (<[0 := []]> sample_store, inl TypeError)
  ∧ flatten_sketch_group raising_test 1 sample_store 4
    = Some (<[4 := []]> sample_store, inr [4]).
Proof.
  destruct (flatten_sketch_group_raises_on_layers raising_test 0
              sample_store 0) as [_ Hraise].
  destruct (flatten_sketch_group_raises_on_layers raising_test 0
              sample_store 4) as [Hempty _].
  split.
  - apply (Hraise 1 [2; 5]); vm_compute; reflexivity.
  - apply Hempty. vm_compute; reflexivity.
Defined.

(** X21. Whatever the class test of line 17 does with each layer
    (returns true, returns false or raises), and on every store, also
    one in which groups hold each other or themselves, the call ends:
    a recursion depth of one more than the number of entries of all
    [layers] lists is enough, because line 14 empties a group before
    line 18 descends. When it has ended, by returning or by raising,
    the group it was called on has no layers, and no [layers] list of
    the store has changed other than by becoming empty. *)
Theorem flatten_sketch_group_ends test fuel h sketch_group :
  length (all_layers h) < fuel →
  ∃ h' r, flatten_sketch_group test fuel h sketch_group = Some (h', r)
          ∧ layers_of h' sketch_group = []
          ∧ only_emptied h h'.
Proof.
  intros Hlt.
  destruct (flatten_sketch_group_total test fuel h sketch_group Hlt)
    as (h' & r & Hrun & _).
  destruct (flatten_sketch_group_effect test _ _ _ _ _ Hrun) as [Hg Hrest].
  exists h', r. split; [done|]. split; [|done].
  unfold layers_of. by rewrite Hg.
Qed.

Lemma flatten_sketch_group_ends_witness :
  ∃ h' r, flatten_sketch_group raising_test 6 sample_store 0 = Some (h', r)
          ∧ layers_of h' 0 = [] ∧ only_emptied sample_store h'.
Proof.
  apply (flatten_sketch_group_ends raising_test 6 sample_store 0).
  vm_compute. lia.
Defined.

(** X22. Where the layers go. A call never adds an entry to a
    [layers] list. When it returns, nothing is lost: the list returned
    and the entries left in the store are together, up to order, the
    group itself and the entries the store had. When it raises, entries
    are lost: the store holds fewer entries than before, and the caller
    gets none. *)
Theorem flatten_sketch_group_accounting test fuel h sketch_group h' r :
  flatten_sketch_group test fuel h sketch_group = Some (h', r) →
  all_layers h' ⊆+ all_layers h
  ∧ (∀ layers, r = inr layers →
       layers ++ all_layers h' ≡ₚ sketch_group :: all_layers h)
  ∧ (∀ e, r = inl e → length (all_layers h') < length (all_layers h)).
Proof. apply flatten_sketch_group_accounts. Qed.

Lemma flatten_sketch_group_accounting_witness :
  ∃ h', flatten_sketch_group raising_test 1 sample_store 0
        = Some (h', inl TypeError)
        ∧ length (all_layers h') < length (all_layers sample_store).
Proof.
  eexists. split; [vm_compute; reflexivity|].
  refine (proj2 (proj2 (flatten_sketch_group_accounting raising_test 1
                          sample_store 0 _ (inl TypeError) _)) TypeError _).
  - vm_compute; reflexivity.
  - reflexivity.
Defined.

(** X23. A second call on the same group, after a first call that
    returned or raised, returns the group alone and leaves the store as
    it is, whatever the class test does: the exception of the first call
    does not come back, and the layers do not either. *)
Theorem flatten_sketch_group_second_call test fuel fuel' h sketch_group h' r :
  flatten_sketch_group test fuel h sketch_group = Some (h', r) →
  flatten_sketch_group test (S fuel') h' sketch_group
  = Some (h', inr [sketch_group]).
Proof.
  intros [Hg _]%flatten_sketch_group_effect.
  cbn [flatten_sketch_group]. unfold layers_of. rewrite Hg.
  cbn [default flatten_loop]. by rewrite insert_id.
Qed.

Lemma flatten_sketch_group_second_call_witness :
  flatten_sketch_group raising_test 1 (<[0 := []]> sample_store) 0
  = Some (<[0 := []]> sample_store, inr [0]).
Proof.
  apply (flatten_sketch_group_second_call raising_test 1 0 sample_store 0
           _ (inl TypeError)).
  vm_compute; reflexivity.
Defined.

Lemma extract_artboards_sublist is_artboard h h' pages :
  only_emptied h h' →
  extract_artboards_from_sketch is_artboard h' pages
  `sublist_of` extract_artboards_from_sketch is_artboard h pages.
Proof.
  intros Hem. unfold extract_artboards_from_sketch.
  induction pages as [|p pages IH]; [done|].
  rewrite !bind_cons. apply sublist_app; [|done].
  unfold layers_of. destruct (Hem p) as [->| ->]; [done|].
  apply sublist_nil_l.
Qed.

(** X24. [extract_artboards_from_sketch] reads the [layers] of the
    pages at the time of the call: after a call of
    [flatten_sketch_group] on a page, whether that call returned or
    raised, it finds no artboard on that page, and on no page does it
    find an artboard that it did not find before. *)
Theorem extract_artboards_after_flatten is_artboard test fuel h page h' r :
  flatten_sketch_group test fuel h page = Some (h', r) →
  extract_artboards_from_sketch is_artboard h' [page] = []
  ∧ ∀ pages,
      extract_artboards_from_sketch is_artboard h' pages
      `sublist_of` extract_artboards_from_sketch is_artboard h pages.
Proof.
  intros [Hg Hem]%flatten_sketch_group_effect. split.
  - unfold extract_artboards_from_sketch, layers_of.
    rewrite bind_singleton. by rewrite Hg.
  - intros pages. by apply extract_artboards_sublist.
Qed.

Lemma extract_artboards_after_flatten_witness :
  extract_artboards_from_sketch (λ l, bool_decide (l = 2)) sample_store [0]
  = [2]
  ∧ extract_artboards_from_sketch (λ l, bool_decide (l = 2))
      (<[0 := []]> sample_store) [0] = [].
Proof.
  split; [vm_compute; reflexivity|].
  refine (proj1 (extract_artboards_after_flatten _ raising_test 1
                   sample_store 0 _ (inl TypeError) _)).
  vm_compute; reflexivity.
Defined.

(** ** The image cache *)

Lemma cache_get_Some p cache a rest :
  cache_get p cache = Some (a, rest) →
  ∃ pre post, cache = pre ++ (p, a) :: post ∧ rest = pre ++ post
              ∧ p ∉ pre.*1.
Proof.
  revert a rest. induction cache as [|[q b] cache IH]; intros a rest; [done|].
  cbn [cache_get]. case_decide as Hq.
  - intros [= <- <-]. subst q. exists [], cache. repeat split.
    by intros ?%elem_of_nil.
  - destruct (cache_get p cache) as [[b' rest']|]; [|done].
    intros [= <- <-]. destruct (IH _ _ eq_refl) as (pre & post & -> & -> & Hpre).
    exists ((q, b) :: pre), post. repeat split.
    rewrite fmap_cons. by intros [?|?]%elem_of_cons.
Qed.

Lemma cache_get_None p cache :
  cache_get p cache = None ↔ p ∉ cache.*1.
Proof.
  induction cache as [|[q b] cache IH]; cbn [cache_get].
  - split; [by intros _ ?%elem_of_nil|done].
  - rewrite fmap_cons, not_elem_of_cons. cbn. case_decide as Hq.
    + split; [done|]. by intros [? _].
    + destruct (cache_get p cache) as [[b' rest']|].
      * split; [done|]. intros [_ Hn]. by apply IH in Hn.
      * split; [|done]. intros _. split; [done|]. by apply IH.
Qed.

Lemma cache_get_first p a pre post :
  p ∉ pre.*1 → cache_get p (pre ++ (p, a) :: post) = Some (a, pre ++ post).
Proof.
  induction pre as [|[q b] pre IH]; intros Hpre; cbn [app cache_get].
  - by rewrite decide_True.
  - rewrite fmap_cons in Hpre. apply not_elem_of_cons in Hpre as [Hq Hpre].
    rewrite decide_False by done. by rewrite IH.
Qed.

Lemma cached_get_image_ok fs maxsize cache p cache' decoded r :
  cache_ok fs maxsize cache →
  cached_get_image fs maxsize cache p = (cache', decoded, r) →
  r = snd (get_image fs p) ∧ cache_ok fs maxsize cache'.
Proof.
  intros (Hall & Hnd & Hlen). unfold cached_get_image.
  destruct (cache_get p cache) as [[a rest]|] eqn:Hget.
  - intros [= <- <- <-].
    apply cache_get_Some in Hget as (pre & post & -> & -> & Hpre).
    apply Forall_app in Hall as [Hpre_ok Hpost_ok].
    apply Forall_cons in Hpost_ok as [Hp Hpost_ok]. cbn in Hp.
    split; [done|]. split; [|split].
    + constructor; [done|]. by apply Forall_app.
    + rewrite fmap_cons, fmap_app. rewrite fmap_app, fmap_cons in Hnd.
      by rewrite <- Permutation_middle in Hnd.
    + rewrite length_app in Hlen. cbn [length] in *. rewrite length_app. lia.
  - destruct (snd (get_image fs p)) as [e|a] eqn:Hp; intros [= <- <- <-].
    + by repeat split.
    + split; [done|]. apply cache_get_None in Hget. split; [|split].
      * apply Forall_take. by constructor.
      * rewrite fmap_take. eapply sublist_NoDup; [|apply sublist_take].
        rewrite fmap_cons. by constructor.
      * rewrite length_take. lia.
Qed.

Lemma cached_calls_ok fs maxsize paths :
  ∀ cache cache' rs,
    cache_ok fs maxsize cache →
    cached_calls fs maxsize cache paths = (cache', rs) →
    rs.*2 = (λ p, snd (get_image fs p)) <$> paths
    ∧ cache_ok fs maxsize cache'.
Proof.
  induction paths as [|p paths IH]; intros cache cache' rs Hok.
  - by intros [= <- <-].
  - cbn [cached_calls].
    destruct (cached_get_image fs maxsize cache p) as [[c1 d] r] eqn:Hcall.
    destruct (cached_calls fs maxsize c1 paths) as [c2 rs'] eqn:Hrest.
    intros [= <- <-].
    destruct (cached_get_image_ok _ _ _ _ _ _ _ Hok Hcall) as [-> Hok1].
    destruct (IH _ _ _ Hok1 Hrest) as [Hrs Hok2].
    split; [|done]. by rewrite !fmap_cons, Hrs.
Qed.

(** X25. The cache of line 91 does not show in the results: whatever
    paths are asked for, in whatever order, starting from the empty
    cache, each call returns or raises what [get_image] without the
    cache does, and the cache ends with at most 128 entries, no path
    twice, each holding what a decode of its path returns. *)
Theorem image_cache_is_transparent fs paths :
  (cached_calls fs 128 [] paths).2.*2
  = (λ p, snd (get_image fs p)) <$> paths
  ∧ cache_ok fs 128 (cached_calls fs 128 [] paths).1.
Proof.
  destruct (cached_calls fs 128 [] paths) as [c rs] eqn:Hrun.
  apply (cached_calls_ok fs 128 paths [] c rs); [|done].
  split; [constructor|]. split; [constructor|cbn; lia].
Qed.

Lemma cached_within_mono n m p a cache :
  n ≤ m → cached_within n p a cache → cached_within m p a cache.
Proof. intros Hle (pre & post & ? & ? & ?). exists pre, post. split_and!; [done..|lia]. Qed.

Lemma cached_get_image_keeps fs maxsize cache q cache' decoded r n p a :
  cached_within n p a cache → n < maxsize →
  cached_get_image fs maxsize cache q = (cache', decoded, r) →
  cached_within (S n) p a cache'.
Proof.
  intros (pre & post & -> & Hpre & Hlen) Hn. unfold cached_get_image.
  destruct (decide (q = p)) as [->|Hqp].
  - rewrite cache_get_first by done. intros [= <- <- <-].
    exists [], (pre ++ post). split; [done|]. split; [|cbn; lia].
    by intros ?%elem_of_nil.
  - destruct (cache_get q (pre ++ (p, a) :: post)) as [[b rest]|] eqn:Hget.
    + intros [= <- <- <-].
      apply cache_get_Some in Hget as (pre' & post' & Heq & -> & Hpre').
      destruct (decide (length pre' < length pre)) as [Hlt|Hge].
      * (* the entry of [q] is before that of [p] *)
        assert (∃ mid, pre = pre' ++ (q, b) :: mid ∧ post' = mid ++ (p, a) :: post)
          as (mid & -> & ->).
        { apply (f_equal (drop (length pre'))) in Heq as Hdrop.
          rewrite drop_app_length in Hdrop.
          apply (f_equal (take (length pre'))) in Heq as Htake.
          rewrite take_app_length in Htake.
          rewrite take_app_le in Htake by lia.
          rewrite drop_app_le in Hdrop by lia.
          destruct (drop (length pre') pre) as [|x mid] eqn:Hd.
          { apply (f_equal length) in Hd. rewrite length_drop in Hd.
            cbn in Hd. lia. }
          cbn in Hdrop. injection Hdrop as -> <-.
          exists mid. split; [|done].
          by rewrite <- (take_drop (length pre') pre), Hd, Htake. }
        exists ((q, b) :: pre' ++ mid), post. split; [|split].
        -- cbn. by rewrite <- (assoc_L (++)).
        -- rewrite fmap_cons, fmap_app. rewrite fmap_app, fmap_cons in Hpre.
           intros [?|[?|?]%elem_of_app]%elem_of_cons; [done| |];
             apply Hpre, elem_of_app; [by left|right; by right].
        -- cbn. rewrite length_app in *. cbn in Hlen. lia.
      * (* it is after that of [p] *)
        assert (∃ mid, pre' = pre ++ (p, a) :: mid) as (mid & ->).
        { apply (f_equal (take (length pre'))) in Heq as Htake.
          rewrite take_app_length in Htake.
          destruct (decide (length pre' = length pre)) as [Heq'|Hne].
          { apply (f_equal (drop (length pre'))) in Heq as Hdrop.
            rewrite drop_app_length in Hdrop. rewrite Heq' in Hdrop.
            rewrite drop_app_length in Hdrop. by injection Hdrop as -> _. }
          rewrite take_app_ge in Htake by lia.
          destruct (length pre' - length pre) as [|k] eqn:Hk; [lia|].
          cbn in Htake. by exists (take k post). }
        exists ((q, b) :: pre), (mid ++ post'). split; [|split].
        -- cbn. by rewrite <- (assoc_L (++)).
        -- rewrite fmap_cons. by intros [?|?]%elem_of_cons.
        -- cbn. lia.
    + destruct (snd (get_image fs q)) as [e|b]; intros [= <- <- <-].
      * exists pre, post. split; [done|]. split; [done|lia].
      * exists ((q, b) :: pre), (take (maxsize - S (S (length pre))) post).
        split; [|split].
        -- destruct maxsize as [|m]; [lia|]. cbn [take app].
           rewrite take_app_ge by lia. f_equal. f_equal.
           replace (m - length pre) with (S (m - S (length pre))) by lia.
           cbn [take]. do 2 f_equal.
        -- rewrite fmap_cons. by intros [?|?]%elem_of_cons.
        -- cbn. lia.
Qed.

Lemma cached_calls_keep fs maxsize others :
  ∀ cache cache' rs n p a,
    cached_within n p a cache → n + length others ≤ maxsize →
    cached_calls fs maxsize cache others = (cache', rs) →
    cached_within (n + length others) p a cache'.
Proof.
  induction others as [|q others IH]; intros cache cache' rs n p a Hin Hn.
  - intros [= <- <-]. by rewrite Nat.add_0_r.
  - cbn [cached_calls].
    destruct (cached_get_image fs maxsize cache q) as [[c1 d] r] eqn:Hcall.
    destruct (cached_calls fs maxsize c1 others) as [c2 rs'] eqn:Hrest.
    intros [= <- <-]. cbn [length] in *.
    replace (n + S (length others)) with (S n + length others) by lia.
    apply (IH c1 c2 rs'); [|lia|done].
    eapply cached_get_image_keeps; [done| |done]. lia.
Qed.

(** X26. The cache keeps what was used last. After a call for a path
    has returned an array, and whatever up to 127 calls follow it,
    the next call for that path returns the same array without decoding
    the file. An exception is not cached: a call that raises decodes the
    file and leaves the cache as it was. *)
Theorem image_cache_keeps_recent fs cache p cache1 decoded a others :
  cached_get_image fs 128 cache p = (cache1, decoded, inr a) →
  length others < 128 →
  (∃ cache3,
     cached_get_image fs 128 (cached_calls fs 128 cache1 others).1 p
     = (cache3, false, inr a))
  ∧ ∀ q c d e, cached_get_image fs 128 cache q = (c, d, inl e) →
               c = cache ∧ d = true.
Proof.
  intros Hcall Hlen. split.
  - assert (cached_within 1 p a cache1) as Hin.
    { unfold cached_get_image in Hcall.
      destruct (cache_get p cache) as [[b rest]|].
      - injection Hcall as <- _ <-. exists [], rest.
        split; [done|]. split; [by intros ?%elem_of_nil|cbn; lia].
      - destruct (snd (get_image fs p)) as [e|b]; [done|].
        injection Hcall as <- _ <-. exists [], (take 127 cache).
        split; [done|]. split; [by intros ?%elem_of_nil|cbn; lia]. }
    destruct (cached_calls fs 128 cache1 others) as [c2 rs] eqn:Hrest.
    assert (1 + length others ≤ 128) as Hle by lia.
    destruct (cached_calls_keep _ _ _ _ _ _ _ _ _ Hin Hle Hrest)
      as (pre & post & -> & Hpre & _).
    cbn [fst]. unfold cached_get_image. rewrite cache_get_first by done.
    by eexists.
  - intros q c d e. unfold cached_get_image.
    destruct (cache_get q cache) as [[b rest]|]; [done|].
    destruct (snd (get_image fs q)) as [e'|b]; [|done].
    by intros [= <- <- _].
Qed.

Lemma image_cache_keeps_recent_witness :
  ∃ cache3,
    cached_get_image gray_fs 128
      (cached_calls gray_fs 128
         (cached_get_image gray_fs 128 [] "output/doc1/a.png").1.1
         ["output/doc1/b.png"; "output/doc1/b.png"]).1
      "output/doc1/a.png"
    = (cache3, false, inr (np_array (flat 2 1 3 0))).
Proof.
  refine (proj1 (image_cache_keeps_recent gray_fs [] "output/doc1/a.png"
                   _ true (np_array (flat 2 1 3 0))
                   ["output/doc1/b.png"; "output/doc1/b.png"] _ _)).
  - vm_compute; reflexivity.
  - cbn; lia.
Defined.
